(** * OCR front end: image preprocessing, batch queue and text-editor history

    A shallow embedding of the TypeScript sources of the OCR web
    application:

    - [TextEditor]: the undo/redo history of the [useTextEditor] hook;
    - [JS]: the fragment of JavaScript number semantics the pixel code
      relies on (binary64 arithmetic, [Uint8ClampedArray] stores,
      [Math.round]);
    - [Image]: [ImagePreprocessor]'s pixel transforms (grayscale, Otsu and
      adaptive thresholding, skew detection and deskew);
    - [Pipeline]: [PreprocessingOptions], the two presets, their merge with
      the caller's options and the stage orchestration of [preprocess];
    - [Batch]: [processItem] of the [useBatchQueue] hook.

    JavaScript numbers that hold integers (pixel samples, counts, indices)
    are [Z] or [nat]; numbers that can be fractional are binary64 floats
    ([PrimFloat]).  Objects used as records of optional fields are [gmap]s
    from property names to values. *)

From Stdlib Require Import ZArith Lia List Bool String.
From Stdlib Require Import PrimFloat Uint63 FloatOps SpecFloat.
From Stdlib Require FloatAxioms.
From stdpp Require Import list sorting gmap strings pretty.

(** ** The text-editor history ([useTextEditor]) *)

Module TextEditor.

(** [interface HistoryState { past: string[]; present: string; future: string[] }] *)
Record HistoryState : Type := mkHistory
  { past : list string; present : string; future : list string }.

(** The hook's mutable cells next to the React state: the debounce timer
    ([debounceTimer.current !== null] is [true]) and [pendingText.current]. *)
Record Editor : Type := mkEditor
  { history : HistoryState; debounceTimer : bool; pendingText : option string }.

(** The callbacks of the hook and the debounce timer.  React may run the
    updater of [setText] at once or only at the next render, after
    [setText] has armed the timer: [deferred] tells which. *)
Inductive Event : Type :=
| EvSetText (deferred : bool) (newText : string)
| EvTimerFires
| EvUndo
| EvRedo
| EvReset (newText : string).

Section WithMaxHistory.

(** [maxHistory = 100] by default; it is compared with an array length. *)
Variable maxHistory : nat.

(** [const newPast = [...prev.past, prev.present];
     if (newPast.length > maxHistory) newPast.shift();] *)
Definition pushPresent (prev : HistoryState) : list string :=
  let newPast := past prev ++ [present prev] in
  if maxHistory <? length newPast then tail newPast else newPast.

(** The updater [commitChange] hands to [setHistory]. *)
Definition commitChange (newText : string) (prev : HistoryState) : HistoryState :=
  if String.eqb newText (present prev) then prev
  else {| past := pushPresent prev; present := newText; future := [] |}.

(** The updater of [setText]; [alreadyPending] is what the updater reads
    from [debounceTimer.current !== null]. *)
Definition setTextUpdate (alreadyPending : bool) (newText : string)
    (prev : HistoryState) : HistoryState :=
  if negb alreadyPending
  then {| past := pushPresent prev; present := newText; future := [] |}
  else {| past := past prev; present := newText; future := future prev |}.

(** The updater of [undo]: [newPast.pop()] takes the last entry. *)
Definition undoUpdate (prev : HistoryState) : HistoryState :=
  if length (past prev) =? 0 then prev
  else {| past := removelast (past prev);
          present := List.last (past prev) EmptyString;
          future := present prev :: future prev |}.

(** The updater of [redo]: [newFuture.shift()] takes the first entry. *)
Definition redoUpdate (prev : HistoryState) : HistoryState :=
  match future prev with
  | [] => prev
  | next :: newFuture =>
      {| past := past prev ++ [present prev]; present := next; future := newFuture |}
  end.

Definition resetUpdate (newText : string) : HistoryState :=
  {| past := []; present := newText; future := [] |}.

(** The state [useState] starts from. *)
Definition initial (initialText : string) : Editor :=
  {| history := {| past := []; present := initialText; future := [] |};
     debounceTimer := false; pendingText := None |}.

(** One callback of the hook, or the debounce timer firing. *)
Definition step (e : Editor) (ev : Event) : Editor :=
  match ev with
  | EvSetText deferred newText =>
      {| history := setTextUpdate (debounceTimer e || deferred) newText (history e);
         debounceTimer := true;
         pendingText := Some newText |}
  | EvTimerFires =>
      if debounceTimer e then
        match pendingText e with
        | Some txt =>
            {| history := commitChange txt (history e);
               debounceTimer := false; pendingText := None |}
        | None => e
        end
      else e
  | EvUndo =>
      {| history := undoUpdate (history e); debounceTimer := false; pendingText := None |}
  | EvRedo =>
      {| history := redoUpdate (history e); debounceTimer := false; pendingText := None |}
  | EvReset newText =>
      {| history := resetUpdate newText; debounceTimer := false; pendingText := None |}
  end.

Definition run (e : Editor) (evs : list Event) : Editor := fold_left step evs e.

(** What the bound rests on: undo and redo only move entries between the
    two stacks, so the stacks together never hold more than [maxHistory]. *)
Definition within_limit (h : HistoryState) : Prop :=
  length (past h) + length (future h) <= maxHistory.

Lemma pushPresent_length (h : HistoryState) :
  length (past h) <= maxHistory -> length (pushPresent h) <= maxHistory.
Proof.
  intros Hle. unfold pushPresent.
  destruct (Nat.ltb_spec maxHistory (length (past h ++ [present h]))) as [Hgt|Hok].
  - destruct (past h ++ [present h]) as [|x l] eqn:E.
    + simpl. lia.
    + apply (f_equal (@length string)) in E.
      rewrite length_app in E. simpl in E |- *. lia.
  - exact Hok.
Qed.

Lemma commitChange_within (txt : string) (h : HistoryState) :
  within_limit h -> within_limit (commitChange txt h).
Proof.
  unfold within_limit, commitChange. intros Hh.
  destruct (String.eqb txt (present h)); [exact Hh|].
  simpl. pose proof (pushPresent_length h). lia.
Qed.

Lemma setTextUpdate_within (pending : bool) (txt : string) (h : HistoryState) :
  within_limit h -> within_limit (setTextUpdate pending txt h).
Proof.
  unfold within_limit, setTextUpdate. intros Hh.
  destruct pending; simpl; [exact Hh|].
  pose proof (pushPresent_length h). lia.
Qed.

Lemma undoUpdate_within (h : HistoryState) :
  within_limit h -> within_limit (undoUpdate h).
Proof.
  destruct h as [p c f]. unfold within_limit, undoUpdate. simpl.
  destruct p as [|x l _] using rev_ind; simpl; [lia|].
  rewrite length_app. simpl. intros Hh.
  replace (length l + 1 =? 0) with false by (symmetry; apply Nat.eqb_neq; lia).
  simpl. rewrite removelast_last. lia.
Qed.

Lemma redoUpdate_within (h : HistoryState) :
  within_limit h -> within_limit (redoUpdate h).
Proof.
  destruct h as [p c [|next rest]]; unfold within_limit, redoUpdate; simpl.
  - lia.
  - rewrite length_app. simpl. lia.
Qed.

Lemma step_within (e : Editor) (ev : Event) :
  within_limit (history e) -> within_limit (history (step e ev)).
Proof.
  intros Hh. destruct ev; simpl.
  - by apply setTextUpdate_within.
  - destruct (debounceTimer e); [|exact Hh].
    destruct (pendingText e); [|exact Hh].
    simpl. by apply commitChange_within.
  - by apply undoUpdate_within.
  - by apply redoUpdate_within.
  - unfold within_limit. simpl. lia.
Qed.

Lemma run_within (evs : list Event) (e : Editor) :
  within_limit (history e) -> within_limit (history (run e evs)).
Proof.
  unfold run. revert e.
  induction evs as [|ev evs IH]; intros e Hh; simpl; [exact Hh|].
  apply IH. by apply step_within.
Qed.

End WithMaxHistory.

Lemma undoUpdate_snoc (p : list string) (x c : string) (f : list string) :
  undoUpdate {| past := p ++ [x]; present := c; future := f |}
  = {| past := p; present := x; future := c :: f |}.
Proof.
  unfold undoUpdate. simpl. rewrite length_app. simpl.
  replace (length p + 1 =? 0) with false by (symmetry; apply Nat.eqb_neq; lia).
  by rewrite removelast_last, last_last.
Qed.

(** C9. Undo with an empty past and redo with an empty future leave the
    history as it is; when the past is not empty, undo followed by redo
    gives back the history undo started from: the same past, present and
    future.  The same holds for the two callbacks run one after the other
    on the hook's state. *)
Theorem undo_redo_roundtrip (h : HistoryState) :
  (past h = [] -> undoUpdate h = h)
  /\ (future h = [] -> redoUpdate h = h)
  /\ (past h <> [] ->
      redoUpdate (undoUpdate h) = h
      /\ forall (maxHistory : nat) (e : Editor), history e = h ->
           history (run maxHistory e [EvUndo; EvRedo]) = h).
Proof.
  destruct h as [p c f]. simpl. repeat split.
  - intros ->. reflexivity.
  - intros ->. reflexivity.
  - destruct p as [|x l _] using rev_ind; [done|].
    rewrite undoUpdate_snoc. reflexivity.
  - intros maxHistory e He. simpl. rewrite He.
    destruct p as [|x l _] using rev_ind; [done|].
    rewrite undoUpdate_snoc. reflexivity.
Qed.

Definition sample_history : HistoryState :=
  {| past := ["draft"%string; "draft one"%string];
     present := "draft two"%string;
     future := ["draft three"%string] |}.

Lemma undo_redo_roundtrip_witness :
  redoUpdate (undoUpdate sample_history) = sample_history
  /\ history (run 100 (mkEditor sample_history true (Some "draft two"%string))
                [EvUndo; EvRedo]) = sample_history.
Proof.
  pose proof (undo_redo_roundtrip sample_history) as (_ & _ & H).
  destruct H as [H1 H2]; [discriminate|].
  split; [exact H1|]. apply H2. reflexivity.
Defined.

(** C10. Started from the hook's initial state, after any sequence of
    setText calls, debounce commits, undos, redos and resets the past holds
    at most [maxHistory] entries; and where appending the present to a
    non-empty past would exceed the limit, the oldest entry is the one that
    goes. *)
Theorem past_never_exceeds_maxHistory (maxHistory : nat) (initialText : string)
    (evs : list Event) :
  length (past (history (run maxHistory (initial initialText) evs))) <= maxHistory
  /\ forall (h : HistoryState) (oldest : string) (rest : list string),
       past h = oldest :: rest -> maxHistory < length (past h) + 1 ->
       pushPresent maxHistory h = rest ++ [present h].
Proof.
  split.
  - pose proof (run_within maxHistory evs (initial initialText)) as H.
    unfold within_limit in H. simpl in H.
    specialize (H ltac:(lia)). lia.
  - intros h oldest rest Hp Hlt. unfold pushPresent.
    rewrite length_app. simpl.
    destruct (Nat.ltb_spec maxHistory (length (past h) + 1)) as [_|Hge]; [|lia].
    rewrite Hp. reflexivity.
Qed.

Lemma past_never_exceeds_maxHistory_witness :
  length (past (history
            (run 2 (initial "v0")
               [EvSetText false "v1"; EvTimerFires; EvSetText false "v2"; EvTimerFires;
                EvSetText false "v3"; EvUndo; EvRedo; EvSetText true "v4"]))) <= 2
  /\ pushPresent 2 {| past := ["v1"; "v2"]%string; present := "v3"; future := [] |}
     = ["v2"; "v3"]%string.
Proof.
  destruct (past_never_exceeds_maxHistory 2 "v0"
              [EvSetText false "v1"; EvTimerFires; EvSetText false "v2"; EvTimerFires;
               EvSetText false "v3"; EvUndo; EvRedo; EvSetText true "v4"]) as [Hlen Hpush].
  split; [exact Hlen|].
  apply (Hpush {| past := ["v1"; "v2"]%string; present := "v3"; future := [] |}
           "v1"%string ["v2"%string]); [reflexivity | simpl; lia].
Defined.

(** *** Further properties of the history *)

(** Every version the history holds, oldest first. *)
Definition timeline (h : HistoryState) : list string :=
  past h ++ present h :: future h.

Lemma undoUpdate_timeline (h : HistoryState) : timeline (undoUpdate h) = timeline h.
Proof.
  destruct h as [p c f]. destruct p as [|x l _] using rev_ind; [reflexivity|].
  rewrite undoUpdate_snoc. unfold timeline. simpl. by rewrite <- app_assoc.
Qed.

Lemma redoUpdate_timeline (h : HistoryState) : timeline (redoUpdate h) = timeline h.
Proof.
  destruct h as [p c [|next rest]]; [reflexivity|].
  unfold timeline, redoUpdate. simpl. by rewrite <- app_assoc.
Qed.

(** X1. Undo and redo never lose or reorder a version: over any sequence
    of undo and redo calls the list of versions, past then present then
    future, stays the same, and so does its length. *)
Theorem undo_redo_keep_timeline (maxHistory : nat) (e : Editor) (evs : list Event) :
  Forall (fun ev => ev = EvUndo \/ ev = EvRedo) evs ->
  timeline (history (run maxHistory e evs)) = timeline (history e)
  /\ length (past (history (run maxHistory e evs)))
     + length (future (history (run maxHistory e evs)))
     = length (past (history e)) + length (future (history e)).
Proof.
  intros Hevs.
  assert (Ht : timeline (history (run maxHistory e evs)) = timeline (history e)).
  { unfold run. revert e. induction Hevs as [|ev evs [->| ->] _ IH]; intros e; simpl.
    - reflexivity.
    - rewrite IH. simpl. apply undoUpdate_timeline.
    - rewrite IH. simpl. apply redoUpdate_timeline. }
  split; [exact Ht|].
  apply (f_equal (@length string)) in Ht. unfold timeline in Ht.
  rewrite !length_app in Ht. simpl in Ht. lia.
Qed.

Lemma undo_redo_keep_timeline_witness :
  timeline (history (run 100 (mkEditor sample_history false None)
                       [EvUndo; EvUndo; EvUndo; EvRedo]))
  = ["draft"; "draft one"; "draft two"; "draft three"]%string.
Proof.
  apply (undo_redo_keep_timeline 100 (mkEditor sample_history false None)
           [EvUndo; EvUndo; EvUndo; EvRedo]).
  repeat (apply Forall_cons_2; [first [by left | by right]|]). apply Forall_nil_2.
Defined.

Lemma redoUpdate_undoUpdate (h : HistoryState) :
  past h <> [] -> redoUpdate (undoUpdate h) = h.
Proof.
  destruct h as [p c f]. simpl. intros Hp.
  destruct p as [|x l _] using rev_ind; [done|].
  by rewrite undoUpdate_snoc.
Qed.

Lemma undoUpdate_past_length (h : HistoryState) :
  length (past (undoUpdate h)) = length (past h) - 1.
Proof.
  destruct h as [p c f]. destruct p as [|x l _] using rev_ind; [reflexivity|].
  rewrite undoUpdate_snoc. simpl. rewrite length_app. simpl. lia.
Qed.

(** X2. Going back [k] versions and forward [k] versions gives the
    history one started from, as long as the past holds [k] versions; and
    the same for forward then back when the future holds [k]. *)
Theorem undo_redo_many (k : nat) (h : HistoryState) :
  (k <= length (past h) ->
   Nat.iter k redoUpdate (Nat.iter k undoUpdate h) = h)
  /\ (k <= length (future h) ->
      Nat.iter k undoUpdate (Nat.iter k redoUpdate h) = h).
Proof.
  split.
  - revert h. induction k as [|k IH]; intros h Hk; [reflexivity|].
    rewrite (Nat.iter_succ_r k undoUpdate), (Nat.iter_succ k redoUpdate). rewrite IH.
    + apply redoUpdate_undoUpdate. destruct (past h); [simpl in Hk; lia|done].
    + rewrite undoUpdate_past_length. lia.
  - revert h. induction k as [|k IH]; intros h Hk; [reflexivity|].
    rewrite (Nat.iter_succ_r k redoUpdate), (Nat.iter_succ k undoUpdate).
    destruct h as [p c [|next rest]]; [simpl in Hk; lia|].
    rewrite IH by (simpl in *; lia).
    unfold redoUpdate. simpl. by rewrite undoUpdate_snoc.
Qed.

Lemma undo_redo_many_witness :
  Nat.iter 2 redoUpdate (Nat.iter 2 undoUpdate sample_history) = sample_history
  /\ Nat.iter 1 undoUpdate (Nat.iter 1 redoUpdate sample_history) = sample_history.
Proof.
  destruct (undo_redo_many 2 sample_history) as [H2 _].
  destruct (undo_redo_many 1 sample_history) as [_ H1].
  split; [apply H2 | apply H1]; simpl; lia.
Defined.

(** While a debounced change is pending, the text it will commit is the
    present text. *)
Definition pending_is_present (e : Editor) : Prop :=
  forall txt, pendingText e = Some txt -> present (history e) = txt.

Lemma step_pending_is_present (maxHistory : nat) (e : Editor) (ev : Event) :
  pending_is_present e -> pending_is_present (step maxHistory e ev).
Proof.
  unfold pending_is_present. intros He.
  destruct ev as [deferred newText| | | |newText]; simpl;
    try (intros txt Hnone; discriminate Hnone).
  - intros txt [= <-]. unfold setTextUpdate. by destruct (negb _).
  - destruct (debounceTimer e); [|exact He].
    destruct (pendingText e) eqn:E; [intros txt Hnone; discriminate Hnone|].
    intros txt Hsome. congruence.
Qed.

Lemma run_pending_is_present (maxHistory : nat) (evs : list Event) (e : Editor) :
  pending_is_present e -> pending_is_present (run maxHistory e evs).
Proof.
  unfold run. revert e. induction evs as [|ev evs IH]; intros e He; [exact He|].
  simpl. by apply IH, step_pending_is_present.
Qed.

(** X3. The debounced commit never changes the history: whenever the
    timer fires, in any state the hook can reach, the text it commits is
    already the present one, so [commitChange] takes its early return. *)
Theorem debounced_commit_changes_nothing (maxHistory : nat) (initialText : string)
    (evs : list Event) :
  history (step maxHistory (run maxHistory (initial initialText) evs) EvTimerFires)
  = history (run maxHistory (initial initialText) evs).
Proof.
  pose proof (run_pending_is_present maxHistory evs (initial initialText)) as H.
  specialize (H ltac:(intros txt [=])).
  set (e := run maxHistory (initial initialText) evs) in *.
  simpl. destruct (debounceTimer e); [|reflexivity].
  destruct (pendingText e) as [txt|] eqn:E; [|reflexivity].
  simpl. unfold commitChange. rewrite (H txt E).
  by rewrite String.eqb_refl.
Qed.







End TextEditor.

(** ** JavaScript numbers *)

Module JS.

Set Warnings "-inexact-float".

(** The Number value of an integer.  The conversion is exact up to [2^53],
    which bounds every integer the pixel code computes (samples, counts,
    sums of samples) on any canvas a browser can allocate. *)
Definition of_Z (z : Z) : float :=
  if (z <? 0)%Z then PrimFloat.opp (PrimFloat.of_uint63 (Uint63.of_Z (- z)))
  else PrimFloat.of_uint63 (Uint63.of_Z z).

Definition is_nan (x : float) : bool := negb (PrimFloat.eqb x x).

(** [a > b] *)
Definition gt (a b : float) : bool := PrimFloat.ltb b a.

(** [floor] of a number already known to lie strictly between 0 and 255:
    the number of integers [1 .. 254] at or below it. *)
Definition floor_byte (x : float) : Z :=
  Z.of_nat (length (List.filter (fun k => PrimFloat.leb (of_Z k) x) (seqZ 1 254))).

(** ECMAScript's [ToUint8Clamp], the conversion a store into a
    [Uint8ClampedArray] applies: NaN is 0, the number is clamped to
    [0, 255] and rounded to the nearest integer, a tie going to the even
    one. *)
Definition ToUint8Clamp (x : float) : Z :=
  if is_nan x then 0%Z
  else if PrimFloat.leb x 0 then 0%Z
  else if PrimFloat.leb 255 x then 255%Z
  else
    let f := floor_byte x in
    if PrimFloat.ltb x (of_Z f + 0.5) then f
    else if PrimFloat.ltb (of_Z f + 0.5) x then (f + 1)%Z
    else if Z.even f then f else (f + 1)%Z.

(** [Math.round]: the integer nearest to the number, a tie going up;
    computed exactly from the number's mantissa and exponent.  [None]
    stands for the results that are no integer (NaN and the infinities). *)
Definition Math_round (x : float) : option Z :=
  match Prim2SF x with
  | S754_zero _ => Some 0%Z
  | S754_finite s m e =>
      let n := if s then Z.neg m else Z.pos m in
      Some (if (0 <=? e)%Z then (n * 2 ^ e)%Z
            else ((2 * n + 2 ^ (- e)) / 2 ^ (- e + 1))%Z)
  | _ => None
  end.

(** [Math.PI] *)
Definition Math_PI : float := 0x1.921fb54442d18p+1%float.

(** A division that reports a zero divisor instead of producing an
    infinity or NaN: [None] is a division by zero. *)
Definition checked_div (a b : Z) : option float :=
  if (b =? 0)%Z then None else Some (of_Z a / of_Z b)%float.

End JS.

(** ** Pixel transforms ([ImagePreprocessor]) *)

Module Image.

Set Warnings "-inexact-float".

(** [ImageData]: [data] is the [Uint8ClampedArray] of samples, four per
    pixel (R, G, B, A), row after row.  The platform only builds buffers
    with [data.length = 4 * width * height] and samples in [0 .. 255]. *)
Record ImageData : Type := mkImageData
  { width : nat; height : nat; data : list Z }.

Definition wf_image (img : ImageData) : Prop :=
  length (data img) = width img * height img * 4
  /\ Forall (fun v => 0 <= v <= 255)%Z (data img).

(** [a[i]] on an array of numbers. *)
Definition get (a : list Z) (i : nat) : Z := default 0%Z (a !! i).

(** *** Grayscale *)

(** [data[i] * 0.299 + data[i + 1] * 0.587 + data[i + 2] * 0.114] *)
Definition luminance (r g b : Z) : float :=
  (JS.of_Z r * 0.299 + JS.of_Z g * 0.587 + JS.of_Z b * 0.114)%float.

(** The loop [for (i = 0; i < data.length; i += 4)] of [toGrayscale], one
    pixel at a time; the three stores go through [ToUint8Clamp]. *)
Fixpoint toGrayscale_data (data : list Z) : list Z :=
  match data with
  | r :: g :: b :: a :: rest =>
      let avg := JS.ToUint8Clamp (luminance r g b) in
      avg :: avg :: avg :: a :: toGrayscale_data rest
  | _ => data
  end.

Definition toGrayscale (imageData : ImageData) : ImageData :=
  {| width := width imageData; height := height imageData;
     data := toGrayscale_data (data imageData) |}.

(** *** Otsu's threshold *)

(** [histogram[Math.floor(data[i])]++] for the red sample of every pixel. *)
Fixpoint build_histogram (data : list Z) (histogram : list Z) : list Z :=
  match data with
  | r :: _ :: _ :: _ :: rest =>
      build_histogram rest (alter Z.succ (Z.to_nat r) histogram)
  | _ => histogram
  end.

(** [for (i = 0; i < 256; i++) sum += i * histogram[i]] *)
Definition weighted_sum (histogram : list Z) : Z :=
  fold_left (fun sum i => (sum + Z.of_nat i * get histogram i)%Z) (seq 0 256) 0%Z.

(** The variables of the scan over the candidate thresholds. *)
Record OtsuState : Type := mkOtsu
  { sumB : Z; wB : Z; wF : Z; maxVariance : float; best : Z }.

Inductive Flow : Type :=
| Continue (st : OtsuState)
| Break (st : OtsuState)
| DivisionByZero.

(** The body of [for (let t = 0; t < 256; t++)]. *)
Definition otsu_step (histogram : list Z) (totalPixels sum : Z)
    (st : OtsuState) (t : nat) : Flow :=
  let wB := (wB st + get histogram t)%Z in
  if (wB =? 0)%Z then
    Continue {| sumB := sumB st; wB := wB; wF := wF st;
                maxVariance := maxVariance st; best := best st |}
  else
    let wF := (totalPixels - wB)%Z in
    if (wF =? 0)%Z then
      Break {| sumB := sumB st; wB := wB; wF := wF;
               maxVariance := maxVariance st; best := best st |}
    else
      let sumB := (sumB st + Z.of_nat t * get histogram t)%Z in
      match JS.checked_div sumB wB, JS.checked_div (sum - sumB) wF with
      | Some mB, Some mF =>
          let variance := (JS.of_Z wB * JS.of_Z wF * (mB - mF) * (mB - mF))%float in
          if JS.gt variance (maxVariance st) then
            Continue {| sumB := sumB; wB := wB; wF := wF;
                        maxVariance := variance; best := Z.of_nat t |}
          else
            Continue {| sumB := sumB; wB := wB; wF := wF;
                        maxVariance := maxVariance st; best := best st |}
      | _, _ => DivisionByZero
      end.

Fixpoint otsu_scan (histogram : list Z) (totalPixels sum : Z)
    (ts : list nat) (st : OtsuState) : option OtsuState :=
  match ts with
  | [] => Some st
  | t :: ts' =>
      match otsu_step histogram totalPixels sum st t with
      | Continue st' => otsu_scan histogram totalPixels sum ts' st'
      | Break st' => Some st'
      | DivisionByZero => None
      end
  end.

Definition otsu_start : OtsuState :=
  {| sumB := 0; wB := 0; wF := 0; maxVariance := 0%float; best := 0 |}.

(** [calculateOtsuThreshold]; [None] would be a division by zero. *)
Definition calculateOtsuThreshold (imageData : ImageData) : option Z :=
  let histogram := build_histogram (data imageData) (replicate 256 0%Z) in
  let totalPixels := (Z.of_nat (length (data imageData)) / 4)%Z in
  let sum := weighted_sum histogram in
  best <$> otsu_scan histogram totalPixels sum (seq 0 256) otsu_start.

(** *** Global threshold *)

(** [const value = gray > threshold ? 255 : 0] for every pixel. *)
Fixpoint threshold_data (threshold : float) (data : list Z) : list Z :=
  match data with
  | gray :: _ :: _ :: a :: rest =>
      let value := if JS.gt (JS.of_Z gray) threshold then 255%Z else 0%Z in
      value :: value :: value :: a :: threshold_data threshold rest
  | _ => data
  end.

(** [threshold(imageData, thresholdValue?)]:
    [thresholdValue ?? this.calculateOtsuThreshold(imageData)]. *)
Definition threshold (imageData : ImageData) (thresholdValue : option float)
    : option ImageData :=
  t ← match thresholdValue with
       | Some v => Some v
       | None => JS.of_Z <$> calculateOtsuThreshold imageData
       end;
  Some {| width := width imageData; height := height imageData;
          data := threshold_data t (data imageData) |}.

(** *** Adaptive threshold *)

(** One row of [computeIntegralImage]: the loop over [x] with its running
    [rowSum], storing into the flat [(width + 1) * (height + 1)] array. *)
Definition integral_row (w : nat) (data : list Z) (y : nat) (integral : list Z)
    (columns : list nat) : Z * list Z :=
  fold_left
    (fun '(rowSum, integral) x =>
       let idx := (y * w + x) * 4 in
       let rowSum := (rowSum + get data idx)%Z in
       (rowSum,
        <[(y + 1) * (w + 1) + (x + 1)
          := (rowSum + get integral (y * (w + 1) + (x + 1)))%Z]> integral))
    columns (0%Z, integral).

Definition integral_rows (w : nat) (data : list Z) (rows : list nat)
    (integral : list Z) : list Z :=
  fold_left (fun integral y => snd (integral_row w data y integral (seq 0 w)))
    rows integral.

(** [computeIntegralImage]: the [Float64Array] starts zero-filled. *)
Definition computeIntegralImage (imageData : ImageData) : list Z :=
  let w := width imageData in
  let h := height imageData in
  integral_rows w (data imageData) (seq 0 h) (replicate ((w + 1) * (h + 1)) 0%Z).

(** [getIntegralSum(integral, x1, y1, x2, y2, width)] *)
Definition getIntegralSum (integral : list Z) (x1 y1 x2 y2 width : nat) : Z :=
  let w := width + 1 in
  (get integral ((y2 + 1) * w + (x2 + 1))
   - get integral (y1 * w + (x2 + 1))
   - get integral ((y2 + 1) * w + x1)
   + get integral (y1 * w + x1))%Z.

(** [Math.max(0, v - half)] and [Math.min(limit - 1, v + half)]. *)
Definition window_low (v half : nat) : nat :=
  Z.to_nat (Z.max 0 (Z.of_nat v - Z.of_nat half)).

Definition window_high (limit v half : nat) : nat :=
  Z.to_nat (Z.min (Z.of_nat limit - 1) (Z.of_nat v + Z.of_nat half)).

(** [output[idx] = value; output[idx + 1] = value; output[idx + 2] = value] *)
Definition store_gray (output : list Z) (idx : nat) (value : Z) : list Z :=
  <[idx + 2 := value]> (<[idx + 1 := value]> (<[idx := value]> output)).

(** [out = pixel > mean - c ? 255 : 0] with [mean = sum / count]. *)
Definition binarize (pixel sum count : Z) (c : float) : Z :=
  let mean := (JS.of_Z sum / JS.of_Z count - c)%float in
  if JS.gt (JS.of_Z pixel) mean then 255%Z else 0%Z.

(** [adaptiveThreshold(imageData, blockSize, c)]: the output starts as a
    copy of the input, and each pixel is compared with the mean of its
    clamped window, read off the integral image. *)
Definition adaptiveThreshold (imageData : ImageData) (blockSize : nat) (c : float)
    : ImageData :=
  let w := width imageData in
  let h := height imageData in
  let half := blockSize / 2 in
  let integral := computeIntegralImage imageData in
  let output :=
    fold_left
      (fun output y =>
         fold_left
           (fun output x =>
              let x1 := window_low x half in
              let y1 := window_low y half in
              let x2 := window_high w x half in
              let y2 := window_high h y half in
              let count :=
                ((Z.of_nat x2 - Z.of_nat x1 + 1) * (Z.of_nat y2 - Z.of_nat y1 + 1))%Z in
              let sum := getIntegralSum integral x1 y1 x2 y2 w in
              let idx := (y * w + x) * 4 in
              store_gray output idx (binarize (get (data imageData) idx) sum count c))
           (seq 0 w) output)
      (seq 0 h) (data imageData) in
  {| width := w; height := h; data := output |}.

(** The reference computation: visit every pixel of the clamped window,
    adding up its luminance and counting it. *)
Definition window_sum_count (w : nat) (data : list Z) (x1 y1 x2 y2 : nat) : Z * Z :=
  fold_left
    (fun acc yy =>
       fold_left
         (fun '(sum, count) xx => ((sum + get data ((yy * w + xx) * 4))%Z, (count + 1)%Z))
         (seq x1 (x2 + 1 - x1)) acc)
    (seq y1 (y2 + 1 - y1)) (0%Z, 0%Z).

Definition adaptiveThreshold_naive (imageData : ImageData) (blockSize : nat) (c : float)
    : ImageData :=
  let w := width imageData in
  let h := height imageData in
  let half := blockSize / 2 in
  let output :=
    fold_left
      (fun output y =>
         fold_left
           (fun output x =>
              let '(sum, count) :=
                window_sum_count w (data imageData)
                  (window_low x half) (window_low y half)
                  (window_high w x half) (window_high h y half) in
              let idx := (y * w + x) * 4 in
              store_gray output idx (binarize (get (data imageData) idx) sum count c))
           (seq 0 w) output)
      (seq 0 h) (data imageData) in
  {| width := w; height := h; data := output |}.

(** *** Skew detection and deskew *)

(** [for (let angle = -15; angle <= 15; angle += 0.5) body]: the loop on
    the candidate angles, for any body; [None] when [fuel] iterations do
    not reach the end of the loop. *)
Fixpoint skew_scan {St : Type} (body : float -> St -> St) (fuel : nat)
    (angle : float) (st : St) : option St :=
  if PrimFloat.leb angle 15 then
    match fuel with
    | 0 => None
    | S fuel' => skew_scan body fuel' (angle + 0.5)%float (body angle st)
    end
  else Some st.

Section Skew.

(** The platform's [Math.cos], [Math.sin] and exponentiation ([**]), and
    the redraw of the image rotated by an angle in radians on a temporary
    canvas sized to the rotated bounding box and filled with white (the
    canvas calls of [deskew]). *)
Variables Math_cos Math_sin : float -> float.
Variable Math_pow : float -> float -> float.
Variable rotateOnCanvas : ImageData -> float -> ImageData.

(** The horizontal projection profile of the dark pixels for one angle. *)
Definition projection_profile (imageData : ImageData) (cosA sinA : float) : list Z :=
  let w := width imageData in
  let h := height imageData in
  fold_left
    (fun profile y =>
       fold_left
         (fun profile x =>
            match JS.Math_round (JS.of_Z (Z.of_nat x) * sinA
                                 + JS.of_Z (Z.of_nat y) * cosA)%float with
            | Some newY =>
                if (0 <=? newY)%Z && (newY <? Z.of_nat h)%Z then
                  let idx := (y * w + x) * 4 in
                  if (get (data imageData) idx <? 128)%Z
                  then alter Z.succ (Z.to_nat newY) profile
                  else profile
                else profile
            | None => profile
            end)
         (seq 0 w) profile)
    (seq 0 h) (replicate h 0%Z).

(** [profile.reduce((sum, val) => sum + (val - mean) ** 2, 0) / profile.length]
    with [mean = profile.reduce((a, b) => a + b, 0) / profile.length]. *)
Definition profile_variance (profile : list Z) : float :=
  let len := JS.of_Z (Z.of_nat (length profile)) in
  let mean := (JS.of_Z (fold_left Z.add profile 0%Z) / len)%float in
  (fold_left (fun sum val => sum + Math_pow (JS.of_Z val - mean) 2)%float
             profile 0%float / len)%float.

(** The body of the loop over the angles, on [(bestAngle, maxVariance)]. *)
Definition skew_body (imageData : ImageData) (angle : float)
    (st : float * float) : float * float :=
  let radians := (angle * JS.Math_PI / 180)%float in
  let cosA := Math_cos radians in
  let sinA := Math_sin radians in
  let variance := profile_variance (projection_profile imageData cosA sinA) in
  if JS.gt variance (snd st) then (angle, variance) else st.

(** [detectSkewAngle]: 61 candidates from -15 to 15 degrees. *)
Definition detectSkewAngle (imageData : ImageData) : option float :=
  fst <$> skew_scan (skew_body imageData) 61 (-15)%float (0%float, 0%float).

(** [deskew]: [if (Math.abs(angle) < 0.5) return imageData;], else the
    canvas rotated by [(-angle * Math.PI) / 180]. *)
Definition deskew (imageData : ImageData) : option ImageData :=
  angle ← detectSkewAngle imageData;
  if PrimFloat.ltb (PrimFloat.abs angle) 0.5 then Some imageData
  else Some (rotateOnCanvas imageData (- angle * JS.Math_PI / 180)%float).

End Skew.

(** The candidate angles, in the order the loop visits them. *)
Definition skew_angles : list float :=
  map (fun k => (JS.of_Z k / 2)%float) (seqZ (-30) 61).

(** The loop ends by its own test within 61 iterations, having run its
    body on each candidate angle in turn. *)
Lemma skew_scan_angles {St : Type} (body : float -> St -> St) (st : St) :
  skew_scan body 61 (-15)%float st
  = Some (fold_left (fun st angle => body angle st) skew_angles st).
Proof. vm_compute. reflexivity. Qed.

(** *** Properties of the colour and threshold stages *)

(** Induction on a sample array one pixel at a time. *)
Lemma pixel_ind (P : list Z -> Prop) :
  (forall l, length l < 4 -> P l) ->
  (forall r g b a rest, P rest -> P (r :: g :: b :: a :: rest)) ->
  forall l, P l.
Proof.
  intros Hshort Hpixel. fix IH 1.
  intros [|r [|g [|b [|a rest]]]]; try (apply Hshort; simpl; lia).
  apply Hpixel, IH.
Qed.

Lemma floor_byte_range (x : float) : (0 <= JS.floor_byte x <= 254)%Z.
Proof.
  unfold JS.floor_byte.
  pose proof (List.filter_length_le (fun k => PrimFloat.leb (JS.of_Z k) x) (seqZ 1 254)) as H.
  rewrite length_seqZ in H. lia.
Qed.

Lemma ToUint8Clamp_range (x : float) : (0 <= JS.ToUint8Clamp x <= 255)%Z.
Proof.
  unfold JS.ToUint8Clamp. pose proof (floor_byte_range x).
  repeat match goal with |- context [if ?c then _ else _] => destruct c end; lia.
Qed.

(** A gray pixel keeps its value: checked on each of the 256 samples. *)
Lemma luminance_gray (v : Z) :
  (0 <= v <= 255)%Z -> JS.ToUint8Clamp (luminance v v v) = v.
Proof.
  intros Hv.
  assert (Hall : forallb (fun v => Z.eqb (JS.ToUint8Clamp (luminance v v v)) v)
                   (seqZ 0 256) = true) by (vm_compute; reflexivity).
  rewrite forallb_forall in Hall.
  apply Z.eqb_eq, Hall, list_elem_of_In, elem_of_seqZ. lia.
Qed.

(** From here on the number conversions are used through their lemmas. *)
#[local] Opaque JS.ToUint8Clamp JS.of_Z JS.gt luminance.

Lemma toGrayscale_data_idem (l : list Z) :
  toGrayscale_data (toGrayscale_data l) = toGrayscale_data l.
Proof.
  induction l as [l Hl | r g b a rest IH] using pixel_ind.
  - destruct l as [|r [|g [|b [|a rest]]]]; simpl in Hl; try lia; reflexivity.
  - cbn [toGrayscale_data]. rewrite IH.
    rewrite luminance_gray by apply ToUint8Clamp_range. reflexivity.
Qed.

(** Every bin read by the scan leaves it without dividing by zero. *)
Lemma otsu_step_safe (histogram : list Z) (totalPixels sum : Z)
    (st : OtsuState) (t : nat) :
  otsu_step histogram totalPixels sum st t <> DivisionByZero.
Proof.
  unfold otsu_step, JS.checked_div.
  destruct (wB st + get histogram t =? 0)%Z eqn:EB; [discriminate|].
  destruct (totalPixels - (wB st + get histogram t) =? 0)%Z eqn:EF; [discriminate|].
  destruct (JS.gt _ _); discriminate.
Qed.

Lemma otsu_step_best (histogram : list Z) (totalPixels sum : Z)
    (st st' : OtsuState) (t : nat) :
  otsu_step histogram totalPixels sum st t = Continue st'
  \/ otsu_step histogram totalPixels sum st t = Break st' ->
  best st' = best st \/ best st' = Z.of_nat t.
Proof.
  unfold otsu_step, JS.checked_div.
  destruct (wB st + get histogram t =? 0)%Z eqn:EB.
  { intros [[= <-]|[=]]. by left. }
  destruct (totalPixels - (wB st + get histogram t) =? 0)%Z eqn:EF.
  { intros [[=]|[= <-]]. by left. }
  destruct (JS.gt _ _); intros [[= <-]|[=]]; simpl; auto.
Qed.

Lemma otsu_scan_total (histogram : list Z) (totalPixels sum : Z)
    (ts : list nat) (st : OtsuState) :
  exists st', otsu_scan histogram totalPixels sum ts st = Some st'
    /\ (best st' = best st \/ exists t, t ∈ ts /\ best st' = Z.of_nat t).
Proof.
  revert st. induction ts as [|t ts IH]; intros st; simpl.
  - exists st. auto.
  - destruct (otsu_step histogram totalPixels sum st t) as [st1|st1|] eqn:E.
    + destruct (IH st1) as (st' & -> & Hb). exists st'. split; [done|].
      destruct Hb as [Hb|(t' & Hin & Hb)].
      * destruct (otsu_step_best _ _ _ _ st1 _ (or_introl E)) as [H|H].
        -- left. congruence.
        -- right. exists t. split; [left|congruence].
      * right. exists t'. split; [by right|done].
    + exists st1. split; [done|].
      destruct (otsu_step_best _ _ _ _ st1 _ (or_intror E)) as [H|H].
      * by left.
      * right. exists t. split; [left|done].
    + by apply otsu_step_safe in E.
Qed.

Lemma calculateOtsuThreshold_total (img : ImageData) :
  exists t, calculateOtsuThreshold img = Some t /\ (0 <= t <= 255)%Z.
Proof.
  unfold calculateOtsuThreshold.
  destruct (otsu_scan_total
              (build_histogram (data img) (replicate 256 0%Z))
              (Z.of_nat (length (data img)) / 4)
              (weighted_sum (build_histogram (data img) (replicate 256 0%Z)))
              (seq 0 256) otsu_start) as (st' & -> & Hb).
  exists (best st'). split; [done|].
  destruct Hb as [->|(t & Hin & ->)]; [simpl; lia|].
  apply elem_of_seq in Hin. lia.
Qed.

(** Sample [c] (0 = R, 1 = G, 2 = B, 3 = A) of pixel [k]: [data[k * 4 + c]]. *)
Definition sample (data : list Z) (k c : nat) : Z := get data (k * 4 + c).

Lemma sample_next (r g b a : Z) (rest : list Z) (k c : nat) :
  sample (r :: g :: b :: a :: rest) (S k) c = sample rest k c.
Proof. reflexivity. Qed.

Lemma toGrayscale_data_pixel (l : list Z) (k : nat) :
  k * 4 + 3 < length l ->
  let avg := JS.ToUint8Clamp (luminance (sample l k 0) (sample l k 1) (sample l k 2)) in
  sample (toGrayscale_data l) k 0 = avg
  /\ sample (toGrayscale_data l) k 1 = avg
  /\ sample (toGrayscale_data l) k 2 = avg
  /\ sample (toGrayscale_data l) k 3 = sample l k 3.
Proof.
  revert k. induction l as [l Hl | r g b a rest IH] using pixel_ind; intros k Hk.
  - lia.
  - destruct k as [|k].
    + cbn [toGrayscale_data]. repeat split; reflexivity.
    + cbn [toGrayscale_data]. cbn zeta. rewrite !sample_next.
      apply IH. simpl in Hk. lia.
Qed.

(** C4. Converting to grayscale twice gives what converting once gives;
    one conversion writes the rounded luminance 0.299 R + 0.587 G + 0.114 B
    into the three colour samples of each pixel and leaves alpha as it
    was. *)
Theorem toGrayscale_idempotent (x : ImageData) :
  toGrayscale (toGrayscale x) = toGrayscale x
  /\ forall k : nat, k * 4 + 3 < length (data x) ->
       sample (data (toGrayscale x)) k 0
       = JS.ToUint8Clamp (luminance (sample (data x) k 0) (sample (data x) k 1)
                                    (sample (data x) k 2))
       /\ sample (data (toGrayscale x)) k 1 = sample (data (toGrayscale x)) k 0
       /\ sample (data (toGrayscale x)) k 2 = sample (data (toGrayscale x)) k 0
       /\ sample (data (toGrayscale x)) k 3 = sample (data x) k 3.
Proof.
  split.
  - unfold toGrayscale. cbn [data width height]. f_equal. apply toGrayscale_data_idem.
  - intros k Hk.
    destruct (toGrayscale_data_pixel (data x) k Hk) as (HR & HG & HB & HA).
    cbn [toGrayscale data]. rewrite HR, HG, HB, HA. auto.
Qed.

Definition sample_rgb : ImageData :=
  {| width := 2; height := 1;
     data := [255; 0; 0; 255; 12; 200; 31; 128]%Z |}.

Lemma toGrayscale_idempotent_witness :
  toGrayscale (toGrayscale sample_rgb) = toGrayscale sample_rgb
  /\ sample (data (toGrayscale sample_rgb)) 1 0 = 125%Z
  /\ sample (data (toGrayscale sample_rgb)) 1 3 = 128%Z.
Proof.
  destruct (toGrayscale_idempotent sample_rgb) as [Hidem Hpx].
  split; [exact Hidem|].
  destruct (Hpx 1 ltac:(simpl; lia)) as (HR & _ & _ & HA).
  rewrite HR, HA. vm_compute. split; reflexivity.
Defined.

Lemma threshold_data_length (t : float) (l : list Z) :
  length (threshold_data t l) = length l.
Proof.
  induction l as [l Hl | r g b a rest IH] using pixel_ind.
  - destruct l as [|r [|g [|b [|a rest]]]]; simpl in Hl; try lia; reflexivity.
  - cbn [threshold_data length]. by rewrite IH.
Qed.

Lemma threshold_data_pixel (t : float) (l : list Z) (k : nat) :
  k * 4 + 3 < length l ->
  let value := if JS.gt (JS.of_Z (sample l k 0)) t then 255%Z else 0%Z in
  sample (threshold_data t l) k 0 = value
  /\ sample (threshold_data t l) k 1 = value
  /\ sample (threshold_data t l) k 2 = value
  /\ sample (threshold_data t l) k 3 = sample l k 3.
Proof.
  revert k. induction l as [l Hl | r g b a rest IH] using pixel_ind; intros k Hk.
  - lia.
  - destruct k as [|k].
    + cbn [threshold_data]. repeat split; reflexivity.
    + cbn [threshold_data]. cbn zeta. rewrite !sample_next.
      apply IH. simpl in Hk. lia.
Qed.

(** C6. Whatever the buffer and whether or not a threshold value is
    passed, [threshold] returns a buffer of the same shape in which the R
    sample of every pixel is 0 or 255: 255 where the pixel's sample exceeds
    the value passed (Otsu's value when none is), 0 elsewhere. *)
Theorem threshold_output_binary (imageData : ImageData) (thresholdValue : option float) :
  exists (out : ImageData) (t : float),
    threshold imageData thresholdValue = Some out
    /\ match thresholdValue with
       | Some v => t = v
       | None => JS.of_Z <$> calculateOtsuThreshold imageData = Some t
       end
    /\ width out = width imageData /\ height out = height imageData
    /\ length (data out) = length (data imageData)
    /\ forall k : nat, k * 4 + 3 < length (data imageData) ->
         sample (data out) k 0
         = (if JS.gt (JS.of_Z (sample (data imageData) k 0)) t then 255%Z else 0%Z)
         /\ (sample (data out) k 0 = 0%Z \/ sample (data out) k 0 = 255%Z).
Proof.
  assert (Ht : exists t, match thresholdValue with
                         | Some v => Some v
                         | None => JS.of_Z <$> calculateOtsuThreshold imageData
                         end = Some t
                         /\ match thresholdValue with
                            | Some v => t = v
                            | None => JS.of_Z <$> calculateOtsuThreshold imageData = Some t
                            end).
  { destruct thresholdValue as [v|]; [by exists v|].
    destruct (calculateOtsuThreshold_total imageData) as (t & -> & _).
    by exists (JS.of_Z t). }
  destruct Ht as (t & Ht & Hspec).
  exists {| width := width imageData; height := height imageData;
            data := threshold_data t (data imageData) |}, t.
  unfold threshold. rewrite Ht. cbn [mbind option_bind data width height].
  split; [reflexivity|]. split; [exact Hspec|].
  split; [reflexivity|]. split; [reflexivity|].
  split; [apply threshold_data_length|].
  intros k Hk.
  destruct (threshold_data_pixel t (data imageData) k Hk) as (-> & _).
  split; [reflexivity|]. destruct (JS.gt _ _); auto.
Qed.

Lemma threshold_output_binary_witness :
  exists out t,
    threshold sample_rgb (Some 100%float) = Some out
    /\ t = 100%float
    /\ sample (data out) 0 0 = 255%Z /\ sample (data out) 1 0 = 0%Z.
Proof.
  destruct (threshold_output_binary sample_rgb (Some 100%float))
    as (out & t & Hout & Ht & _ & _ & _ & Hpx).
  exists out, t. split; [exact Hout|]. split; [exact Ht|].
  destruct (Hpx 0 ltac:(simpl; lia)) as [H0 _].
  destruct (Hpx 1 ltac:(simpl; lia)) as [H1 _].
  subst t. rewrite H0, H1. vm_compute. split; reflexivity.
Defined.

(** *** The degenerate histogram *)

(** Every pixel of the buffer has the red sample [v]. *)
Definition uniform_red (v : Z) (data : list Z) : Prop :=
  forall k : nat, k * 4 + 3 < length data -> sample data k 0 = v.

Lemma get_alter_succ (h : list Z) (i t : nat) :
  get (alter Z.succ i h) t
  = if decide (t = i /\ t < length h) then (get h t + 1)%Z else get h t.
Proof.
  unfold get. destruct (decide (t = i)) as [->|Hne].
  - rewrite list_lookup_alter_eq.
    destruct (h !! i) as [x|] eqn:E; simpl.
    + apply lookup_lt_Some in E. case_decide; [simpl; lia|tauto].
    + apply lookup_ge_None in E. case_decide; [lia|done].
  - rewrite list_lookup_alter_ne by done. case_decide; [tauto|done].
Qed.

Lemma build_histogram_uniform (v : Z) (l : list Z) :
  uniform_red v l ->
  forall (h : list Z) (t : nat),
    get (build_histogram l h) t
    = if decide (t = Z.to_nat v /\ t < length h)
      then (get h t + Z.of_nat (length l) / 4)%Z else get h t.
Proof.
  induction l as [l Hl | r g b a rest IH] using pixel_ind; intros Hu h t.
  - replace (build_histogram l h) with h
      by (destruct l as [|r [|g [|b [|a rest]]]]; simpl in Hl; try lia; reflexivity).
    rewrite Z.div_small by lia. case_decide; lia.
  - assert (r = v) as -> by (apply (Hu 0); simpl; lia).
    cbn [build_histogram]. rewrite IH.
    2:{ intros k Hk. rewrite <- (sample_next v g b a rest k 0).
        apply Hu. simpl. lia. }
    rewrite length_alter, get_alter_succ.
    replace (Z.of_nat (length (v :: g :: b :: a :: rest)))
      with (1 * 4 + Z.of_nat (length rest))%Z by (simpl length; lia).
    rewrite Z.div_add_l by lia.
    case_decide; lia.
Qed.

Lemma otsu_scan_single_bin (histogram : list Z) (totalPixels sum : Z)
    (ts : list nat) (st : OtsuState) :
  wB st = 0%Z ->
  (forall t, get histogram t = 0%Z \/ get histogram t = totalPixels) ->
  exists st', otsu_scan histogram totalPixels sum ts st = Some st'
              /\ best st' = best st.
Proof.
  intros HwB Hbins. revert st HwB.
  induction ts as [|t ts IH]; intros st HwB; simpl; [by exists st|].
  unfold otsu_step. rewrite HwB.
  destruct (Z.eqb_spec (0 + get histogram t) 0) as [E0|E0].
  - match goal with
    | |- exists st', otsu_scan _ _ _ _ ?st1 = _ /\ _ =>
        destruct (IH st1 E0) as (st' & -> & Hb); by exists st'
    end.
  - destruct (Hbins t) as [Hz|Hfull]; [lia|].
    destruct (Z.eqb_spec (totalPixels - (0 + get histogram t)) 0) as [E1|E1]; [|lia].
    eexists. split; reflexivity.
Qed.

Lemma calculateOtsuThreshold_uniform (v : Z) (img : ImageData) :
  uniform_red v (data img) -> calculateOtsuThreshold img = Some 0%Z.
Proof.
  intros Hu. unfold calculateOtsuThreshold.
  destruct (otsu_scan_single_bin
              (build_histogram (data img) (replicate 256 0%Z))
              (Z.of_nat (length (data img)) / 4)
              (weighted_sum (build_histogram (data img) (replicate 256 0%Z)))
              (seq 0 256) otsu_start eq_refl) as (st' & -> & Hb).
  - intros t. rewrite (build_histogram_uniform v) by exact Hu.
    assert (get (replicate 256 0%Z) t = 0%Z) as ->.
    { unfold get. destruct (replicate 256 0%Z !! t) as [x|] eqn:E; [|done].
      apply lookup_replicate in E as [-> _]. done. }
    case_decide; [right|left]; lia.
  - simpl. by rewrite Hb.
Qed.

(** C2. [calculateOtsuThreshold] never divides by zero and always returns
    a threshold in [0 .. 255]: a candidate at which the background weight
    is 0 is passed over with the best threshold and variance as they were,
    the scan stops at the first candidate at which the foreground weight is
    0, and every other candidate divides by two non-zero weights.  On a
    buffer whose pixels all have one luminance the result is 0. *)
Theorem calculateOtsuThreshold_no_division_by_zero (imageData : ImageData) :
  (exists t : Z, calculateOtsuThreshold imageData = Some t /\ (0 <= t <= 255)%Z)
  /\ (forall (histogram : list Z) (totalPixels sum : Z) (st : OtsuState) (t : nat),
        otsu_step histogram totalPixels sum st t <> DivisionByZero
        /\ ((wB st + get histogram t = 0)%Z ->
            exists st', otsu_step histogram totalPixels sum st t = Continue st'
                        /\ best st' = best st /\ maxVariance st' = maxVariance st)
        /\ ((wB st + get histogram t <> 0)%Z ->
            (totalPixels - (wB st + get histogram t) = 0)%Z ->
            exists st', otsu_step histogram totalPixels sum st t = Break st'
                        /\ best st' = best st))
  /\ (forall v : Z, uniform_red v (data imageData) ->
        calculateOtsuThreshold imageData = Some 0%Z).
Proof.
  split; [apply calculateOtsuThreshold_total|]. split.
  - intros histogram totalPixels sum st t.
    split; [apply otsu_step_safe|]. split.
    + intros E. unfold otsu_step. rewrite E. simpl. eexists. by repeat split.
    + intros EB EF. unfold otsu_step.
      destruct (Z.eqb_spec (wB st + get histogram t) 0) as [|_]; [done|].
      rewrite EF. simpl. eexists. by split.
  - intros v. apply calculateOtsuThreshold_uniform.
Qed.

Definition sample_flat : ImageData :=
  {| width := 2; height := 2;
     data := [90; 90; 90; 255; 90; 90; 90; 255; 90; 90; 90; 255; 90; 90; 90; 255]%Z |}.

Lemma calculateOtsuThreshold_no_division_by_zero_witness :
  uniform_red 90 (data sample_flat)
  /\ calculateOtsuThreshold sample_flat = Some 0%Z.
Proof.
  assert (Hu : uniform_red 90 (data sample_flat)).
  { intros k Hk. do 4 (destruct k as [|k]; [reflexivity|]). simpl in Hk. lia. }
  split; [exact Hu|].
  exact (proj2 (proj2 (calculateOtsuThreshold_no_division_by_zero sample_flat)) 90%Z Hu).
Defined.

(** *** The integral image against the window sums *)

(** The sum of the first [x] luminances of row [y], and of the [x] first
    columns of the [y] first rows: what the integral image tabulates. *)
Fixpoint row_prefix (w : nat) (data : list Z) (y x : nat) : Z :=
  match x with
  | 0 => 0%Z
  | S x' => (row_prefix w data y x' + get data ((y * w + x') * 4))%Z
  end.

Fixpoint area (w : nat) (data : list Z) (y x : nat) : Z :=
  match y with
  | 0 => 0%Z
  | S y' => (area w data y' x + row_prefix w data y' x)%Z
  end.

Lemma area_zero_column (w : nat) (data : list Z) (y : nat) : area w data y 0 = 0%Z.
Proof. induction y as [|y IH]; simpl; lia. Qed.

Lemma fold_left_ext_in {A B : Type} (f g : A -> B -> A) (l : list B) (a : A) :
  (forall acc x, x ∈ l -> f acc x = g acc x) ->
  fold_left f l a = fold_left g l a.
Proof.
  revert a. induction l as [|x l IH]; intros a H; simpl; [done|].
  rewrite H by left. apply IH. intros acc x' Hin. apply H. by right.
Qed.

(** Cells of the flat integral array are told apart by row and column. *)
Lemma cell_inj (w y x y' x' : nat) :
  x <= w -> x' <= w -> y * (w + 1) + x = y' * (w + 1) + x' -> y = y' /\ x = x'.
Proof.
  intros Hx Hx' E. destruct (lt_eq_lt_dec y y') as [[Hlt|Heq]|Hgt]; [nia| |nia].
  subst. split; [done|lia].
Qed.

Lemma get_insert (l : list Z) (i j : nat) (v : Z) :
  get (<[i := v]> l) j = if decide (i = j /\ i < length l) then v else get l j.
Proof. unfold get. rewrite list_lookup_insert. by case_decide. Qed.

Lemma get_insert_ne (l : list Z) (i j : nat) (v : Z) :
  i <> j -> get (<[i := v]> l) j = get l j.
Proof. intros H. unfold get. by rewrite list_lookup_insert_ne. Qed.

(** The loop over the columns of row [y], after [k] columns. *)
Lemma integral_row_spec (w : nat) (data : list Z) (y : nat) (integral : list Z) (k : nat) :
  k <= w ->
  (y + 2) * (w + 1) <= length integral ->
  (forall x, x <= w -> get integral (y * (w + 1) + x) = area w data y x) ->
  let '(rowSum, out) := integral_row w data y integral (seq 0 k) in
  rowSum = row_prefix w data y k
  /\ length out = length integral
  /\ (forall x, 1 <= x <= k ->
        get out ((y + 1) * (w + 1) + x) = area w data (y + 1) x)
  /\ (forall j, (forall x, 1 <= x <= k -> j <> (y + 1) * (w + 1) + x) ->
        get out j = get integral j).
Proof.
  intros Hk Hlen Hrow. induction k as [|k IH].
  - simpl. repeat split. intros; lia.
  - unfold integral_row in *. rewrite seq_S, fold_left_app. simpl.
    destruct (fold_left _ (seq 0 k) (0%Z, integral)) as [rowSum out].
    destruct (IH ltac:(lia)) as (-> & Hl & Hnew & Hold).
    split; [done|]. split; [by rewrite length_insert|].
    assert (Hprev : get out (y * (w + 1) + (k + 1)) = area w data y (k + 1)).
    { rewrite Hold by (intros x Hx; nia). apply Hrow. lia. }
    split.
    + intros x Hx. rewrite get_insert.
      case_decide as Hc.
      * destruct Hc as [Hc _]. assert (x = k + 1) as -> by lia.
        rewrite Hprev.
        replace (y + 1) with (S y) by lia. replace (k + 1) with (S k) by lia.
        simpl. lia.
      * assert (x <> k + 1) by (intros ->; apply Hc; split; [done|nia]).
        apply Hnew. lia.
    + intros j Hj. rewrite get_insert_ne.
      * apply Hold. intros x Hx. apply Hj. lia.
      * intros <-. apply (Hj (k + 1)); lia.
Qed.

(** The loop over the rows, after [n] rows: the rows up to [n] hold the
    area sums, the rows below are still zero. *)
Lemma integral_rows_spec (w h : nat) (data : list Z) (n : nat) :
  n <= h ->
  let out := integral_rows w data (seq 0 n) (replicate ((w + 1) * (h + 1)) 0%Z) in
  length out = (w + 1) * (h + 1)
  /\ forall y x, y <= h -> x <= w ->
       get out (y * (w + 1) + x) = if decide (y <= n) then area w data y x else 0%Z.
Proof.
  intros Hn. induction n as [|n IH].
  - simpl. split; [by rewrite length_replicate|].
    intros y x Hy Hx.
    assert (get (replicate ((w + 1) * (h + 1)) 0%Z) (y * (w + 1) + x) = 0%Z) as ->.
    { unfold get. destruct (replicate _ _ !! _) as [v|] eqn:E; [|done].
      apply lookup_replicate in E as [-> _]. done. }
    case_decide; [|done]. assert (y = 0) as -> by lia. done.
  - unfold integral_rows in *. rewrite seq_S, fold_left_app. simpl.
    destruct (IH ltac:(lia)) as [Hl Hcells].
    set (prev := fold_left _ (seq 0 n) _) in *.
    pose proof (integral_row_spec w data n prev w (Nat.le_refl w)) as Hrow.
    destruct (integral_row w data n prev (seq 0 w)) as [rowSum out].
    destruct Hrow as (_ & Hl' & Hnew & Hold).
    { rewrite Hl. nia. }
    { intros x Hx. rewrite Hcells by lia. by rewrite decide_True. }
    simpl. split; [lia|].
    intros y x Hy Hx.
    destruct (decide (y = n + 1 /\ 1 <= x)) as [[-> Hx1]|Hne].
    + rewrite Hnew by lia. rewrite decide_True by lia. done.
    + rewrite Hold.
      * rewrite Hcells by done.
        destruct (decide (y <= n)); [by rewrite decide_True by lia|].
        destruct (decide (y <= S n)) as [Hle|]; [|done].
        assert (y = n + 1) as -> by lia. assert (x = 0) as -> by lia.
        by rewrite area_zero_column.
      * intros x' Hx' E. apply cell_inj in E as [-> ->]; [|lia..].
        apply Hne. lia.
Qed.

Lemma computeIntegralImage_spec (img : ImageData) (y x : nat) :
  y <= height img -> x <= width img ->
  get (computeIntegralImage img) (y * (width img + 1) + x)
  = area (width img) (data img) y x.
Proof.
  intros Hy Hx. unfold computeIntegralImage.
  destruct (integral_rows_spec (width img) (height img) (data img) (height img)
              (Nat.le_refl _)) as [_ H].
  rewrite H by done. by rewrite decide_True.
Qed.

(** The reference loops in closed form. *)
Lemma window_row_spec (w : nat) (data : list Z) (yy x1 n : nat) (s c : Z) :
  fold_left
    (fun '(sum, count) xx => ((sum + get data ((yy * w + xx) * 4))%Z, (count + 1)%Z))
    (seq x1 n) (s, c)
  = ((s + (row_prefix w data yy (x1 + n) - row_prefix w data yy x1))%Z,
     (c + Z.of_nat n)%Z).
Proof.
  induction n as [|n IH].
  - simpl. rewrite Nat.add_0_r. f_equal; lia.
  - rewrite seq_S, fold_left_app, IH. simpl.
    replace (x1 + S n) with (S (x1 + n)) by lia. simpl. f_equal; lia.
Qed.

Lemma window_rows_spec (w : nat) (data : list Z) (x1 n y1 m : nat) (s c : Z) :
  fold_left
    (fun acc yy =>
       fold_left
         (fun '(sum, count) xx => ((sum + get data ((yy * w + xx) * 4))%Z, (count + 1)%Z))
         (seq x1 n) acc)
    (seq y1 m) (s, c)
  = ((s + (area w data (y1 + m) (x1 + n) - area w data y1 (x1 + n))
        - (area w data (y1 + m) x1 - area w data y1 x1))%Z,
     (c + Z.of_nat m * Z.of_nat n)%Z).
Proof.
  induction m as [|m IH].
  - simpl. rewrite Nat.add_0_r. f_equal; lia.
  - rewrite seq_S, fold_left_app, IH. simpl. rewrite window_row_spec.
    replace (y1 + S m) with (S (y1 + m)) by lia. simpl. f_equal; lia.
Qed.

Lemma window_sum_count_spec (w : nat) (data : list Z) (x1 y1 x2 y2 : nat) :
  x1 <= x2 -> y1 <= y2 ->
  window_sum_count w data x1 y1 x2 y2
  = ((area w data (y2 + 1) (x2 + 1) - area w data y1 (x2 + 1)
      - area w data (y2 + 1) x1 + area w data y1 x1)%Z,
     ((Z.of_nat x2 - Z.of_nat x1 + 1) * (Z.of_nat y2 - Z.of_nat y1 + 1))%Z).
Proof.
  intros Hx Hy. unfold window_sum_count. rewrite window_rows_spec.
  replace (y1 + (y2 + 1 - y1)) with (y2 + 1) by lia.
  replace (x1 + (x2 + 1 - x1)) with (x2 + 1) by lia.
  f_equal; lia.
Qed.

(** The window of a pixel inside the image is clamped to the image and
    holds the pixel. *)
Lemma window_clamped (limit v half : nat) :
  v < limit ->
  window_low v half <= v <= window_high limit v half
  /\ window_high limit v half < limit
  /\ window_low v half = v - half
  /\ window_high limit v half = Nat.min (limit - 1) (v + half).
Proof. unfold window_low, window_high. lia. Qed.

Lemma getIntegralSum_spec (img : ImageData) (x1 y1 x2 y2 : nat) :
  x1 <= x2 < width img -> y1 <= y2 < height img ->
  getIntegralSum (computeIntegralImage img) x1 y1 x2 y2 (width img)
  = fst (window_sum_count (width img) (data img) x1 y1 x2 y2).
Proof.
  intros Hx Hy. rewrite window_sum_count_spec by lia.
  unfold getIntegralSum. cbn [fst].
  by rewrite !computeIntegralImage_spec by lia.
Qed.

(** *** What the stores of the adaptive threshold leave in the output *)

Lemma pixel_in_bounds (img : ImageData) (x y : nat) :
  wf_image img -> x < width img -> y < height img ->
  (y * width img + x) * 4 + 3 < length (data img).
Proof. intros [Hlen _] Hx Hy. rewrite Hlen. nia. Qed.

Lemma store_gray_length (out : list Z) (idx : nat) (value : Z) :
  length (store_gray out idx value) = length out.
Proof. unfold store_gray. by rewrite !length_insert. Qed.

Lemma sample_store_gray (out : list Z) (q p c : nat) (value : Z) :
  q * 4 + 3 < length out -> c < 4 ->
  sample (store_gray out (q * 4) value) p c
  = if decide (p = q /\ c < 3) then value else sample out p c.
Proof.
  intros Hq Hc. unfold sample, store_gray.
  rewrite !get_insert, !length_insert.
  repeat case_decide; try reflexivity; lia.
Qed.

(** One row of stores, after [k] columns. *)
Lemma store_row_spec (w y k : nat) (v : nat -> Z) (out : list Z) :
  (y * w + k) * 4 <= length out ->
  let out' :=
    fold_left (fun out x => store_gray out ((y * w + x) * 4) (v x)) (seq 0 k) out in
  length out' = length out
  /\ forall p c, c < 4 ->
       sample out' p c
       = if decide (y * w <= p < y * w + k /\ c < 3) then v (p - y * w) else sample out p c.
Proof.
  intros Hlen. induction k as [|k IH]; cbn zeta.
  - simpl. split; [done|]. intros p c Hc. case_decide; [lia|done].
  - rewrite seq_S, fold_left_app. cbn [fold_left Nat.add].
    destruct (IH ltac:(lia)) as [Hl Hs]. split.
    + by rewrite store_gray_length.
    + intros p c Hc. rewrite sample_store_gray by (rewrite ?Hl; lia).
      rewrite Hs by done. clear IH Hs.
      repeat case_decide; first [reflexivity | lia | f_equal; lia].
Qed.

(** All the stores of a pass over the image: the colour samples of pixel
    [(x, y)] hold the value computed for it, alpha is as it was. *)
Lemma store_rows_spec (w h : nat) (v : nat -> nat -> Z) (data : list Z) (m : nat) :
  length data = w * h * 4 -> m <= h ->
  let out :=
    fold_left
      (fun out y =>
         fold_left (fun out x => store_gray out ((y * w + x) * 4) (v x y)) (seq 0 w) out)
      (seq 0 m) data in
  length out = length data
  /\ forall x y c, x < w -> c < 4 ->
       sample out (y * w + x) c
       = if decide (y < m /\ c < 3) then v x y else sample data (y * w + x) c.
Proof.
  intros Hlen Hm. induction m as [|m IH]; cbn zeta.
  - cbn [seq fold_left]. split; [done|]. intros x y c Hx Hc. case_decide; [lia|done].
  - rewrite seq_S, fold_left_app. cbn [fold_left Nat.add].
    destruct (IH ltac:(lia)) as [Hl Hs].
    set (prev := fold_left _ (seq 0 m) data) in *.
    destruct (store_row_spec w m w (fun x => v x m) prev) as [Hl' Hs'].
    { rewrite Hl, Hlen. nia. }
    split; [lia|].
    intros x y c Hx Hc. rewrite Hs' by done. rewrite Hs by done.
    clear IH Hs Hs'.
    destruct (decide (y = m)) as [->|Hne].
    + repeat case_decide; first [reflexivity | lia | f_equal; lia].
    + assert (~ (m * w <= y * w + x < m * w + w)) by nia.
      repeat case_decide; first [reflexivity | lia | tauto].
Qed.

(** The reference computation, pixel by pixel: on a well-formed buffer the
    three colour samples of each pixel hold the comparison of the pixel
    with the mean of its window less [c], and alpha is kept. *)
Lemma adaptiveThreshold_naive_pixel (img : ImageData) (blockSize : nat) (c : float)
    (x y : nat) :
  wf_image img -> x < width img -> y < height img ->
  let half := blockSize / 2 in
  let window :=
    window_sum_count (width img) (data img)
      (window_low x half) (window_low y half)
      (window_high (width img) x half) (window_high (height img) y half) in
  let p := y * width img + x in
  let value := binarize (sample (data img) p 0) (fst window) (snd window) c in
  let out := data (adaptiveThreshold_naive img blockSize c) in
  sample out p 0 = value /\ sample out p 1 = value /\ sample out p 2 = value
  /\ sample out p 3 = sample (data img) p 3
  /\ (value = 0%Z \/ value = 255%Z).
Proof.
  intros [Hlen _] Hx Hy. cbv zeta.
  set (v := fun x y =>
         binarize (sample (data img) (y * width img + x) 0)
           (fst (window_sum_count (width img) (data img)
                   (window_low x (blockSize / 2)) (window_low y (blockSize / 2))
                   (window_high (width img) x (blockSize / 2))
                   (window_high (height img) y (blockSize / 2))))
           (snd (window_sum_count (width img) (data img)
                   (window_low x (blockSize / 2)) (window_low y (blockSize / 2))
                   (window_high (width img) x (blockSize / 2))
                   (window_high (height img) y (blockSize / 2)))) c).
  assert (Hout : data (adaptiveThreshold_naive img blockSize c)
                 = fold_left
                     (fun out y =>
                        fold_left
                          (fun out x => store_gray out ((y * width img + x) * 4) (v x y))
                          (seq 0 (width img)) out)
                     (seq 0 (height img)) (data img)).
  { unfold adaptiveThreshold_naive. cbn [data].
    apply fold_left_ext_in. intros out y' _.
    apply fold_left_ext_in. intros out' x' _. unfold v, sample.
    rewrite Nat.add_0_r. by destruct (window_sum_count _ _ _ _ _ _). }
  rewrite Hout.
  destruct (store_rows_spec (width img) (height img) v (data img) (height img)
              Hlen (Nat.le_refl _)) as [_ Hs].
  rewrite !Hs by lia. rewrite !decide_True by lia. rewrite decide_False by lia.
  repeat split. unfold v, binarize. destruct (JS.gt _ _); auto.
Qed.

(** C3. For every buffer, block size and constant [c], the adaptive
    threshold computed from the integral image is the same buffer as the
    one computed by visiting, for each pixel, every pixel of its window
    (the block clamped to the image), taking the mean of their luminances
    and writing 255 where the pixel exceeds the mean less [c] and 0
    elsewhere: the four-corner sum read off the integral image is the sum
    over the window, and on a well-formed buffer each pixel of the output
    holds that comparison. *)
Theorem adaptiveThreshold_integral_matches_naive
    (imageData : ImageData) (blockSize : nat) (c : float) :
  adaptiveThreshold imageData blockSize c = adaptiveThreshold_naive imageData blockSize c
  /\ forall x y : nat, x < width imageData -> y < height imageData ->
       let half := blockSize / 2 in
       let x1 := window_low x half in
       let y1 := window_low y half in
       let x2 := window_high (width imageData) x half in
       let y2 := window_high (height imageData) y half in
       let p := y * width imageData + x in
       (x1 <= x <= x2 /\ x2 < width imageData)
       /\ (y1 <= y <= y2 /\ y2 < height imageData)
       /\ (getIntegralSum (computeIntegralImage imageData) x1 y1 x2 y2 (width imageData),
           ((Z.of_nat x2 - Z.of_nat x1 + 1) * (Z.of_nat y2 - Z.of_nat y1 + 1))%Z)
          = window_sum_count (width imageData) (data imageData) x1 y1 x2 y2
       /\ (wf_image imageData ->
           let window := window_sum_count (width imageData) (data imageData) x1 y1 x2 y2 in
           let value :=
             binarize (sample (data imageData) p 0) (fst window) (snd window) c in
           let out := data (adaptiveThreshold imageData blockSize c) in
           sample out p 0 = value /\ sample out p 1 = value /\ sample out p 2 = value
           /\ sample out p 3 = sample (data imageData) p 3
           /\ (value = 0%Z \/ value = 255%Z)).
Proof.
  assert (Hwin : forall x y : nat, x < width imageData -> y < height imageData ->
            let half := blockSize / 2 in
            let x1 := window_low x half in
            let y1 := window_low y half in
            let x2 := window_high (width imageData) x half in
            let y2 := window_high (height imageData) y half in
            (x1 <= x <= x2 /\ x2 < width imageData)
            /\ (y1 <= y <= y2 /\ y2 < height imageData)
            /\ (getIntegralSum (computeIntegralImage imageData) x1 y1 x2 y2 (width imageData),
                ((Z.of_nat x2 - Z.of_nat x1 + 1) * (Z.of_nat y2 - Z.of_nat y1 + 1))%Z)
               = window_sum_count (width imageData) (data imageData) x1 y1 x2 y2).
  { intros x y Hx Hy. cbn zeta.
    destruct (window_clamped (width imageData) x (blockSize / 2) Hx) as (Hx1 & Hx2 & _).
    destruct (window_clamped (height imageData) y (blockSize / 2) Hy) as (Hy1 & Hy2 & _).
    split; [done|]. split; [done|].
    rewrite getIntegralSum_spec by lia.
    rewrite window_sum_count_spec by lia. reflexivity. }
  assert (Heq : adaptiveThreshold imageData blockSize c
                = adaptiveThreshold_naive imageData blockSize c).
  { unfold adaptiveThreshold, adaptiveThreshold_naive. f_equal.
    apply fold_left_ext_in. intros output y Hy.
    apply fold_left_ext_in. intros output' x Hx.
    apply elem_of_seq in Hy, Hx.
    destruct (Hwin x y ltac:(lia) ltac:(lia)) as (_ & _ & <-).
    reflexivity. }
  split; [exact Heq|].
  intros x y Hx Hy. cbv zeta.
  destruct (Hwin x y Hx Hy) as (H1 & H2 & H3).
  split; [exact H1|]. split; [exact H2|]. split; [exact H3|].
  intros Hwf. rewrite Heq.
  exact (adaptiveThreshold_naive_pixel imageData blockSize c x y Hwf Hx Hy).
Qed.

Definition sample_gray : ImageData :=
  {| width := 3; height := 2;
     data := [10; 10; 10; 255; 200; 200; 200; 255; 30; 30; 30; 255;
              90; 90; 90; 255; 100; 100; 100; 255; 250; 250; 250; 255]%Z |}.

Lemma sample_gray_wf : wf_image sample_gray.
Proof. split; [reflexivity|]. repeat constructor; lia. Qed.

Lemma adaptiveThreshold_integral_matches_naive_witness :
  adaptiveThreshold sample_gray 3 5%float = adaptiveThreshold_naive sample_gray 3 5%float
  /\ getIntegralSum (computeIntegralImage sample_gray) 1 0 2 1 3 = 580%Z
  /\ sample (data (adaptiveThreshold sample_gray 3 5%float)) 5 0 = 255%Z.
Proof.
  destruct (adaptiveThreshold_integral_matches_naive sample_gray 3 5%float) as [Heq Hwin].
  split; [exact Heq|].
  destruct (Hwin 2 1 ltac:(simpl; lia) ltac:(simpl; lia)) as (_ & _ & Hsum & Hpixel).
  split.
  - apply (f_equal fst) in Hsum. exact Hsum.
  - destruct (Hpixel sample_gray_wf) as (Hred & _).
    change (1 * width sample_gray + 2) with 5 in Hred. rewrite Hred.
    vm_compute. reflexivity.
Defined.

(** *** Deskew *)

Lemma detectSkewAngle_total (Math_cos Math_sin : float -> float)
    (Math_pow : float -> float -> float) (img : ImageData) :
  exists angle, detectSkewAngle Math_cos Math_sin Math_pow img = Some angle.
Proof. unfold detectSkewAngle. rewrite skew_scan_angles. by eexists. Qed.

(** C5. Skew detection always yields an angle, and when its absolute
    value is below 0.5 degrees [deskew] hands back the buffer it was given:
    the same width, the same height and the same samples. *)
Theorem deskew_small_angle_unchanged (Math_cos Math_sin : float -> float)
    (Math_pow : float -> float -> float)
    (rotateOnCanvas : ImageData -> float -> ImageData) (imageData : ImageData) :
  exists angle : float,
    detectSkewAngle Math_cos Math_sin Math_pow imageData = Some angle
    /\ (PrimFloat.ltb (PrimFloat.abs angle) 0.5 = true ->
        exists out : ImageData,
          deskew Math_cos Math_sin Math_pow rotateOnCanvas imageData = Some out
          /\ out = imageData
          /\ width out = width imageData /\ height out = height imageData
          /\ data out = data imageData).
Proof.
  destruct (detectSkewAngle_total Math_cos Math_sin Math_pow imageData) as [angle Ha].
  exists angle. split; [exact Ha|]. intros Hsmall.
  exists imageData. unfold deskew. rewrite Ha. cbn [mbind option_bind].
  rewrite Hsmall. by repeat split.
Qed.

Definition sample_white : ImageData :=
  {| width := 2; height := 2; data := replicate 16 255%Z |}.

Lemma deskew_small_angle_unchanged_witness :
  deskew (fun _ => 1%float) (fun _ => 0%float) (fun x _ => (x * x)%float)
         (fun img _ => mkImageData (height img) (width img) []) sample_white
  = Some sample_white.
Proof.
  destruct (deskew_small_angle_unchanged
              (fun _ => 1%float) (fun _ => 0%float) (fun x _ => (x * x)%float)
              (fun img _ => mkImageData (height img) (width img) []) sample_white)
    as (angle & Ha & Hsmall).
  assert (angle = 0%float) as ->.
  { vm_compute in Ha. by injection Ha as <-. }
  destruct (Hsmall ltac:(vm_compute; reflexivity)) as (out & -> & -> & _).
  reflexivity.
Defined.

(** *** Neighbourhood filters *)

(** The samples the two inner loops of a filter read around pixel
    [(x, y)], row by row: the offsets [-half .. half] in both directions
    ([j - half] and [i - half] here), on channel [c].  The loops run on
    [half <= y < height - half] and [half <= x < width - half], so that on
    a well-formed buffer every read is in range. *)
Definition neighbourhood (w : nat) (data : list Z) (x y half c : nat) : list Z :=
  j ← seq 0 (2 * half + 1);
  i ← seq 0 (2 * half + 1);
  [get data (((y + j - half) * w + (x + i - half)) * 4 + c)].

(** [for (v = r; v < limit - r; v++)] *)
Definition interior (limit r : nat) : list nat := seq r (limit - r - r).

(** [dilate]: the minimum of the red samples of the window goes to the
    three colour samples of the pixel. *)
Definition dilate (imageData : ImageData) (kernelSize : nat) : ImageData :=
  let w := width imageData in
  let h := height imageData in
  let half := kernelSize / 2 in
  let output :=
    fold_left
      (fun output y =>
         fold_left
           (fun output x =>
              let minVal :=
                fold_left Z.min (neighbourhood w (data imageData) x y half 0) 255%Z in
              store_gray output ((y * w + x) * 4) minVal)
           (interior w half) output)
      (interior h half) (data imageData) in
  {| width := w; height := h; data := output |}.

(** [erode]: the same with the maximum. *)
Definition erode (imageData : ImageData) (kernelSize : nat) : ImageData :=
  let w := width imageData in
  let h := height imageData in
  let half := kernelSize / 2 in
  let output :=
    fold_left
      (fun output y =>
         fold_left
           (fun output x =>
              let maxVal :=
                fold_left Z.max (neighbourhood w (data imageData) x y half 0) 0%Z in
              store_gray output ((y * w + x) * 4) maxVal)
           (interior w half) output)
      (interior h half) (data imageData) in
  {| width := w; height := h; data := output |}.

(** [closing]: dilate then erode; [opening]: erode then dilate. *)
Definition closing (imageData : ImageData) (kernelSize : nat) : ImageData :=
  erode (dilate imageData kernelSize) kernelSize.

Definition opening (imageData : ImageData) (kernelSize : nat) : ImageData :=
  dilate (erode imageData kernelSize) kernelSize.

(** The passes that compute each colour channel on its own:
    [for (c = 0; c < 3; c++) output[(y * width + x) * 4 + c] = value]. *)
Definition interior_pass (w h r : nat) (value : nat -> nat -> nat -> Z)
    (output : list Z) : list Z :=
  fold_left
    (fun output y =>
       fold_left
         (fun output x =>
            fold_left
              (fun output c => <[(y * w + x) * 4 + c := value x y c]> output)
              (seq 0 3) output)
         (interior w r) output)
    (interior h r) output.

(** The kernel of [sharpen]. *)
Definition kernel : list Z := [0; -1; 0; -1; 5; -1; 0; -1; 0]%Z.

(** [sharpen]: [sum += data[idx] * kernel[ki++]] over the 3 x 3 window,
    stored as [Math.min(255, Math.max(0, sum))]. *)
Definition sharpen (imageData : ImageData) : ImageData :=
  let w := width imageData in
  let h := height imageData in
  let value x y c :=
    let '(sum, ki) :=
      fold_left (fun '(sum, ki) v => ((sum + v * get kernel ki)%Z, S ki))
        (neighbourhood w (data imageData) x y 1 c) (0%Z, 0) in
    Z.min 255 (Z.max 0 sum) in
  {| width := w; height := h;
     data := interior_pass w h 1 value (data imageData) |}.

(** [denoise]: the box blur; [sum / count] is stored through
    [ToUint8Clamp]. *)
Definition denoise (imageData : ImageData) (radius : nat) : ImageData :=
  let w := width imageData in
  let h := height imageData in
  let value x y c :=
    let '(sum, count) :=
      fold_left (fun '(sum, count) v => ((sum + v)%Z, (count + 1)%Z))
        (neighbourhood w (data imageData) x y radius c) (0%Z, 0%Z) in
    JS.ToUint8Clamp (JS.of_Z sum / JS.of_Z count) in
  {| width := w; height := h;
     data := interior_pass w h radius value (data imageData) |}.

(** **** What a pass over the interior stores *)

Lemma channels_spec (out : list Z) (q : nat) (value : nat -> Z) :
  q * 4 + 3 < length out ->
  let out' := fold_left (fun out c => <[q * 4 + c := value c]> out) (seq 0 3) out in
  length out' = length out
  /\ forall p c, c < 4 ->
       sample out' p c = if decide (p = q /\ c < 3) then value c else sample out p c.
Proof.
  intros Hq. cbn [seq fold_left]. split; [by rewrite !length_insert|].
  intros p c Hc. unfold sample. rewrite !get_insert, !length_insert.
  destruct c as [|[|[|[|c]]]]; try lia;
    repeat case_decide; first [reflexivity | lia].
Qed.

Lemma row_pass_spec (w y a k : nat) (value : nat -> nat -> Z) (out : list Z) :
  (y * w + a + k) * 4 <= length out ->
  let out' :=
    fold_left
      (fun out x => fold_left (fun out c => <[(y * w + x) * 4 + c := value x c]> out)
                      (seq 0 3) out)
      (seq a k) out in
  length out' = length out
  /\ forall p c, c < 4 ->
       sample out' p c
       = if decide (y * w + a <= p < y * w + a + k /\ c < 3)
         then value (p - y * w) c else sample out p c.
Proof.
  intros Hlen. induction k as [|k IH]; cbn zeta.
  - cbn [seq fold_left]. split; [done|]. intros p c Hc. case_decide; [lia|done].
  - rewrite (seq_S k a), fold_left_app. cbn [fold_left].
    destruct (IH ltac:(lia)) as [Hl Hs].
    set (prev := fold_left _ (seq a k) out) in *.
    destruct (channels_spec prev (y * w + (a + k)) (value (a + k))) as [Hl' Hs'].
    { rewrite Hl. lia. }
    split; [lia|]. intros p c Hc. rewrite Hs', Hs by done. clear IH Hs Hs'.
    repeat case_decide; first [reflexivity | lia | f_equal; lia].
Qed.

Lemma rows_pass_spec (w h a k b m : nat) (value : nat -> nat -> nat -> Z)
    (data : list Z) :
  length data = w * h * 4 -> a + k <= w -> b + m <= h ->
  let out :=
    fold_left
      (fun out y =>
         fold_left
           (fun out x =>
              fold_left (fun out c => <[(y * w + x) * 4 + c := value x y c]> out)
                (seq 0 3) out)
           (seq a k) out)
      (seq b m) data in
  length out = length data
  /\ forall x y c, x < w -> c < 4 ->
       sample out (y * w + x) c
       = if decide ((a <= x < a + k /\ b <= y < b + m) /\ c < 3)
         then value x y c else sample data (y * w + x) c.
Proof.
  intros Hlen Ha Hb. induction m as [|m IH]; cbn zeta.
  - cbn [seq fold_left]. split; [done|]. intros x y c Hx Hc. case_decide; [lia|done].
  - rewrite (seq_S m b), fold_left_app. cbn [fold_left].
    destruct (IH ltac:(lia)) as [Hl Hs].
    set (prev := fold_left _ (seq b m) data) in *.
    destruct (row_pass_spec w (b + m) a k (fun x c => value x (b + m) c) prev)
      as [Hl' Hs'].
    { rewrite Hl, Hlen. nia. }
    split; [lia|]. intros x y c Hx Hc. rewrite Hs', Hs by done. clear IH Hs Hs'.
    destruct (decide (y = b + m)) as [->|Hne].
    + repeat case_decide; first [reflexivity | lia | f_equal; lia].
    + assert (~ ((b + m) * w + a <= y * w + x < (b + m) * w + a + k)) by nia.
      repeat case_decide; first [reflexivity | lia | tauto].
Qed.

Lemma fold_left_id {A B : Type} (l : list B) (a : A) : fold_left (fun a _ => a) l a = a.
Proof. by induction l. Qed.

(** Every interior pixel holds the computed values in its colour samples;
    the frame and the alpha samples are as they were. *)
Lemma interior_pass_spec (w h r : nat) (value : nat -> nat -> nat -> Z) (data : list Z) :
  length data = w * h * 4 ->
  length (interior_pass w h r value data) = length data
  /\ forall x y c, x < w -> c < 4 ->
       sample (interior_pass w h r value data) (y * w + x) c
       = if decide ((r <= x < w - r /\ r <= y < h - r) /\ c < 3)
         then value x y c else sample data (y * w + x) c.
Proof.
  intros Hlen. unfold interior_pass, interior.
  destruct (le_lt_dec (2 * r) w) as [Hw|Hw]; [destruct (le_lt_dec (2 * r) h) as [Hh|Hh]|].
  - destruct (rows_pass_spec w h r (w - r - r) r (h - r - r) value data Hlen)
      as [Hl Hs]; [lia|lia|].
    split; [exact Hl|]. intros x y c Hx Hc. rewrite Hs by done.
    repeat case_decide; first [reflexivity | lia].
  - replace (h - r - r) with 0 by lia. cbn [seq fold_left]. split; [done|].
    intros x y c Hx Hc. case_decide; [lia|done].
  - replace (w - r - r) with 0 by lia. cbn [seq fold_left]. rewrite fold_left_id.
    split; [done|]. intros x y c Hx Hc. case_decide; [lia|done].
Qed.

Lemma store_gray_channels (out : list Z) (q : nat) (v : Z) :
  store_gray out (q * 4) v = fold_left (fun out c => <[q * 4 + c := v]> out) (seq 0 3) out.
Proof. unfold store_gray. cbn [seq fold_left]. by rewrite Nat.add_0_r. Qed.

Lemma dilate_data (img : ImageData) (kernelSize : nat) :
  data (dilate img kernelSize)
  = interior_pass (width img) (height img) (kernelSize / 2)
      (fun x y _ => fold_left Z.min
                      (neighbourhood (width img) (data img) x y (kernelSize / 2) 0) 255%Z)
      (data img).
Proof.
  unfold dilate, interior_pass. cbn [data].
  apply fold_left_ext_in. intros out y _. apply fold_left_ext_in. intros out' x _.
  apply store_gray_channels.
Qed.

Lemma erode_data (img : ImageData) (kernelSize : nat) :
  data (erode img kernelSize)
  = interior_pass (width img) (height img) (kernelSize / 2)
      (fun x y _ => fold_left Z.max
                      (neighbourhood (width img) (data img) x y (kernelSize / 2) 0) 0%Z)
      (data img).
Proof.
  unfold erode, interior_pass. cbn [data].
  apply fold_left_ext_in. intros out y _. apply fold_left_ext_in. intros out' x _.
  apply store_gray_channels.
Qed.

(** **** Samples stay samples *)

Lemma get_range (data : list Z) (i : nat) :
  Forall (fun v => 0 <= v <= 255)%Z data -> (0 <= get data i <= 255)%Z.
Proof.
  intros H. unfold get. destruct (data !! i) as [v|] eqn:E; simpl; [|lia].
  by apply (Forall_lookup_1 _ _ _ _ H E).
Qed.

Lemma neighbourhood_range (w : nat) (data : list Z) (x y half c : nat) :
  Forall (fun v => 0 <= v <= 255)%Z data ->
  Forall (fun v => 0 <= v <= 255)%Z (neighbourhood w data x y half c).
Proof.
  intros H. apply Forall_forall. intros v Hv. unfold neighbourhood in Hv.
  apply list_elem_of_bind in Hv as (j & Hv & _).
  apply list_elem_of_bind in Hv as (i & Hv & _).
  apply list_elem_of_singleton in Hv as ->. by apply get_range.
Qed.

(** The pixel itself is in its window. *)
Lemma neighbourhood_centre (w : nat) (data : list Z) (x y half c : nat) :
  sample data (y * w + x) c ∈ neighbourhood w data x y half c.
Proof.
  unfold neighbourhood, sample.
  apply list_elem_of_bind. exists half. split; [|apply elem_of_seq; lia].
  apply list_elem_of_bind. exists half. split; [|apply elem_of_seq; lia].
  apply list_elem_of_singleton. do 3 f_equal; lia.
Qed.

Lemma fold_min_spec (l : list Z) (a : Z) :
  (fold_left Z.min l a <= a)%Z
  /\ Forall (fun v => fold_left Z.min l a <= v)%Z l
  /\ ((forall v, v ∈ l -> 0 <= v)%Z -> (0 <= a)%Z -> (0 <= fold_left Z.min l a)%Z).
Proof.
  revert a. induction l as [|x l IH]; intros a; cbn [fold_left].
  { split; [lia|]. split; [constructor|]. auto. }
  destruct (IH (Z.min a x)) as (Ha & Hall & Hpos). split; [lia|]. split.
  - constructor; [lia|exact Hall].
  - intros Hl H0. apply Hpos; [intros v Hv; apply Hl; by right|].
    pose proof (Hl x ltac:(left)). lia.
Qed.

Lemma fold_max_spec (l : list Z) (a : Z) :
  (a <= fold_left Z.max l a)%Z
  /\ Forall (fun v => v <= fold_left Z.max l a)%Z l
  /\ ((forall v, v ∈ l -> v <= 255)%Z -> (a <= 255)%Z -> (fold_left Z.max l a <= 255)%Z).
Proof.
  revert a. induction l as [|x l IH]; intros a; cbn [fold_left].
  { split; [lia|]. split; [constructor|]. auto. }
  destruct (IH (Z.max a x)) as (Ha & Hall & Hpos). split; [lia|]. split.
  - constructor; [lia|exact Hall].
  - intros Hl H0. apply Hpos; [intros v Hv; apply Hl; by right|].
    pose proof (Hl x ltac:(left)). lia.
Qed.

(** A buffer of the right length is well formed when each sample of each
    pixel is a byte. *)
Lemma wf_by_samples (w h : nat) (out : list Z) :
  length out = w * h * 4 ->
  (forall x y c, x < w -> y < h -> c < 4 -> (0 <= sample out (y * w + x) c <= 255)%Z) ->
  Forall (fun v => 0 <= v <= 255)%Z out.
Proof.
  intros Hlen Hs. apply Forall_lookup. intros i v Hi.
  pose proof (lookup_lt_Some _ _ _ Hi) as Hlt. rewrite Hlen in Hlt.
  assert (0 < w) as Hw by nia.
  pose proof (Nat.div_mod_eq i 4) as Hi4.
  pose proof (Nat.div_mod_eq (i / 4) w) as Hiw.
  pose proof (Nat.mod_upper_bound i 4 ltac:(lia)) as Hc.
  pose proof (Nat.mod_upper_bound (i / 4) w ltac:(lia)) as Hx.
  set (c := i mod 4) in *. set (q := i / 4) in *.
  set (x := q mod w) in *. set (y := q / w) in *.
  assert (y < h) as Hy by nia.
  specialize (Hs x y c Hx Hy Hc). unfold sample, get in Hs.
  replace ((y * w + x) * 4 + c) with i in Hs by lia.
  by rewrite Hi in Hs.
Qed.

Lemma sample_range (data : list Z) (k c : nat) :
  Forall (fun v => 0 <= v <= 255)%Z data -> (0 <= sample data k c <= 255)%Z.
Proof. apply get_range. Qed.

(** A pass that stores bytes keeps the buffer well formed. *)
Lemma interior_pass_wf (img : ImageData) (r : nat) (value : nat -> nat -> nat -> Z) :
  wf_image img ->
  (forall x y c, 0 <= value x y c <= 255)%Z ->
  wf_image {| width := width img; height := height img;
              data := interior_pass (width img) (height img) r value (data img) |}.
Proof.
  intros [Hlen Hbytes] Hvalue.
  destruct (interior_pass_spec (width img) (height img) r value (data img) Hlen)
    as [Hl Hs].
  split; cbn [data width height]; [congruence|].
  apply (wf_by_samples (width img) (height img)); [congruence|].
  intros x y c Hx Hy Hc. rewrite Hs by done.
  case_decide; [apply Hvalue|by apply sample_range].
Qed.

Lemma dilate_wf (img : ImageData) (kernelSize : nat) :
  wf_image img -> wf_image (dilate img kernelSize).
Proof.
  intros Hwf.
  pose proof (interior_pass_wf img (kernelSize / 2)
    (fun x y _ => fold_left Z.min
                    (neighbourhood (width img) (data img) x y (kernelSize / 2) 0) 255%Z)
    Hwf) as H.
  rewrite <- dilate_data in H. apply H. intros x y _.
  pose proof (neighbourhood_range (width img) (data img) x y (kernelSize / 2) 0
                (proj2 Hwf)) as Hn.
  rewrite Forall_forall in Hn.
  destruct (fold_min_spec (neighbourhood (width img) (data img) x y (kernelSize / 2) 0)
              255) as (Hle & _ & Hpos).
  split; [|exact Hle]. apply Hpos; [|lia]. intros v Hv. by apply Hn.
Qed.

Lemma erode_wf (img : ImageData) (kernelSize : nat) :
  wf_image img -> wf_image (erode img kernelSize).
Proof.
  intros Hwf.
  pose proof (interior_pass_wf img (kernelSize / 2)
    (fun x y _ => fold_left Z.max
                    (neighbourhood (width img) (data img) x y (kernelSize / 2) 0) 0%Z)
    Hwf) as H.
  rewrite <- erode_data in H. apply H. intros x y _.
  pose proof (neighbourhood_range (width img) (data img) x y (kernelSize / 2) 0
                (proj2 Hwf)) as Hn.
  rewrite Forall_forall in Hn.
  destruct (fold_max_spec (neighbourhood (width img) (data img) x y (kernelSize / 2) 0)
              0) as (Hle & _ & Hpos).
  split; [exact Hle|]. apply Hpos; [|lia]. intros v Hv. by apply Hn.
Qed.

(** X14. The two morphological filters move the red sample one way
    only: on a well-formed image [dilate] (a minimum over the window)
    never raises it and [erode] (a maximum) never lowers it; both leave
    the alpha sample as it was, and write the same value to the three
    colour samples of every pixel they touch. *)
Theorem dilate_lowers_erode_raises (img : ImageData) (kernelSize x y : nat) :
  wf_image img -> x < width img -> y < height img ->
  let p := y * width img + x in
  let half := kernelSize / 2 in
  let inside := (half <= x < width img - half /\ half <= y < height img - half) in
  (sample (data (dilate img kernelSize)) p 0 <= sample (data img) p 0
   <= sample (data (erode img kernelSize)) p 0)%Z
  /\ sample (data (dilate img kernelSize)) p 3 = sample (data img) p 3
  /\ sample (data (erode img kernelSize)) p 3 = sample (data img) p 3
  /\ (inside ->
      forall c, c < 3 ->
        sample (data (dilate img kernelSize)) p c = sample (data (dilate img kernelSize)) p 0
        /\ sample (data (erode img kernelSize)) p c = sample (data (erode img kernelSize)) p 0)
  /\ (~ inside ->
      forall c, c < 4 ->
        sample (data (dilate img kernelSize)) p c = sample (data img) p c
        /\ sample (data (erode img kernelSize)) p c = sample (data img) p c).
Proof.
  intros [Hlen Hbytes] Hx Hy. cbv zeta.
  rewrite dilate_data, erode_data.
  destruct (interior_pass_spec (width img) (height img) (kernelSize / 2)
              (fun x y _ => fold_left Z.min
                 (neighbourhood (width img) (data img) x y (kernelSize / 2) 0) 255%Z)
              (data img) Hlen) as [_ Hd].
  destruct (interior_pass_spec (width img) (height img) (kernelSize / 2)
              (fun x y _ => fold_left Z.max
                 (neighbourhood (width img) (data img) x y (kernelSize / 2) 0) 0%Z)
              (data img) Hlen) as [_ He].
  pose proof (neighbourhood_centre (width img) (data img) x y (kernelSize / 2) 0) as Hc.
  destruct (fold_min_spec (neighbourhood (width img) (data img) x y (kernelSize / 2) 0)
              255) as (_ & Hmin & _).
  destruct (fold_max_spec (neighbourhood (width img) (data img) x y (kernelSize / 2) 0)
              0) as (_ & Hmax & _).
  rewrite Forall_forall in Hmin, Hmax.
  specialize (Hmin _ Hc). specialize (Hmax _ Hc).
  split; [|split; [|split; [|split]]].
  - rewrite Hd, He by lia. repeat case_decide; lia.
  - rewrite Hd by lia. case_decide; [lia|done].
  - rewrite He by lia. case_decide; [lia|done].
  - intros Hin c Hc3. rewrite !Hd, !He by lia. rewrite !decide_True by lia. done.
  - intros Hout c Hc4. rewrite !Hd, !He by lia. rewrite !decide_False by tauto. done.
Qed.

Definition sample_dots : ImageData :=
  {| width := 3; height := 3;
     data := [ 200; 200; 200; 255;  90;  90;  90; 255; 200; 200; 200; 255;
               200; 200; 200; 255; 120; 120; 120; 255; 250; 250; 250; 255;
               200; 200; 200; 255; 200; 200; 200; 255;  10;  10;  10; 255 ]%Z |}.

Lemma sample_dots_wf : wf_image sample_dots.
Proof.
  split; [reflexivity|]. unfold sample_dots. cbn [data].
  repeat (apply Forall_cons_2; [lia|]). apply Forall_nil_2.
Qed.

Lemma dilate_lowers_erode_raises_witness :
  (sample (data (dilate sample_dots 3)) 4 0 <= sample (data sample_dots) 4 0
   <= sample (data (erode sample_dots 3)) 4 0)%Z
  /\ sample (data (dilate sample_dots 3)) 4 0 = 10%Z
  /\ sample (data (erode sample_dots 3)) 4 0 = 250%Z.
Proof.
  destruct (dilate_lowers_erode_raises sample_dots 3 1 1 sample_dots_wf
              ltac:(simpl; lia) ltac:(simpl; lia)) as (H & _).
  split; [exact H|]. split; vm_compute; reflexivity.
Defined.

(** X15. The morphology step keeps the image an image: [dilate],
    [erode], [opening] and [closing] return a buffer of the same width and
    height, of the same length, with every sample a byte; and the kernel
    sizes 2 and 3 the pipeline passes select the same 3 x 3 window. *)
Theorem morphology_well_formed (img : ImageData) (kernelSize : nat) :
  wf_image img ->
  (wf_image (dilate img kernelSize) /\ wf_image (erode img kernelSize)
   /\ wf_image (opening img kernelSize) /\ wf_image (closing img kernelSize))
  /\ (width (opening img kernelSize) = width img
      /\ height (opening img kernelSize) = height img
      /\ width (closing img kernelSize) = width img
      /\ height (closing img kernelSize) = height img)
  /\ opening img 2 = opening img 3 /\ closing img 2 = closing img 3.
Proof.
  intros Hwf. split; [|split; [|split]].
  - split; [by apply dilate_wf|]. split; [by apply erode_wf|].
    split; [by apply dilate_wf, erode_wf|by apply erode_wf, dilate_wf].
  - done.
  - reflexivity.
  - reflexivity.
Qed.

Lemma morphology_well_formed_witness :
  wf_image (closing (opening sample_dots 2) 3)
  /\ width (closing (opening sample_dots 2) 3) = 3.
Proof.
  destruct (morphology_well_formed sample_dots 2 sample_dots_wf)
    as ((_ & _ & Hopen & _) & _).
  destruct (morphology_well_formed (opening sample_dots 2) 3 Hopen)
    as ((_ & _ & _ & Hclose) & (_ & _ & Hw & _) & _).
  split; [exact Hclose|exact Hw].
Defined.

(** **** Sharpen and box blur *)

Lemma sharpen_value (w : nat) (data : list Z) (x y c : nat) :
  1 <= x -> 1 <= y ->
  (let '(sum, ki) :=
     fold_left (fun '(sum, ki) v => ((sum + v * get kernel ki)%Z, S ki))
       (neighbourhood w data x y 1 c) (0%Z, 0) in
   Z.min 255 (Z.max 0 sum))
  = Z.min 255 (Z.max 0 (5 * sample data (y * w + x) c
                        - sample data ((y - 1) * w + x) c
                        - sample data (y * w + (x - 1)) c
                        - sample data (y * w + (x + 1)) c
                        - sample data ((y + 1) * w + x) c))%Z.
Proof.
  intros Hx Hy. unfold neighbourhood, sample.
  cbn [seq mbind list_bind app fold_left Nat.mul Nat.add].
  replace (y + 0 - 1) with (y - 1) by lia. replace (y + 1 - 1) with y by lia.
  replace (y + 2 - 1) with (y + 1) by lia.
  replace (x + 0 - 1) with (x - 1) by lia. replace (x + 1 - 1) with x by lia.
  replace (x + 2 - 1) with (x + 1) by lia.
  change (get kernel 0) with 0%Z. change (get kernel 1) with (-1)%Z.
  change (get kernel 2) with 0%Z. change (get kernel 3) with (-1)%Z.
  change (get kernel 4) with 5%Z. change (get kernel 5) with (-1)%Z.
  change (get kernel 6) with 0%Z. change (get kernel 7) with (-1)%Z.
  change (get kernel 8) with 0%Z.
  f_equal. f_equal. lia.
Qed.

(** X16. [sharpen], pixel by pixel.  On a well-formed image each colour
    sample of a pixel off the one-pixel frame becomes five times itself
    less its four direct neighbours, clamped to a byte: the diagonal
    neighbours, whose kernel weights are zero, play no part; the frame and
    the alpha samples are kept.  So a sample equal to its four direct
    neighbours is unchanged. *)
Theorem sharpen_pixel (img : ImageData) (x y c : nat) :
  wf_image img -> x < width img -> y < height img -> c < 4 ->
  let w := width img in
  let at_ x' y' := sample (data img) (y' * w + x') c in
  let out := sample (data (sharpen img)) (y * w + x) c in
  out = (if decide ((1 <= x < w - 1 /\ 1 <= y < height img - 1) /\ c < 3)
         then Z.min 255 (Z.max 0 (5 * at_ x y - at_ x (y - 1)%nat - at_ (x - 1)%nat y
                                  - at_ (x + 1)%nat y - at_ x (y + 1)%nat))%Z
         else at_ x y)
  /\ (at_ x (y - 1) = at_ x y -> at_ (x - 1) y = at_ x y ->
      at_ (x + 1) y = at_ x y -> at_ x (y + 1) = at_ x y -> out = at_ x y).
Proof.
  intros [Hlen Hbytes] Hx Hy Hc. cbv zeta. unfold sharpen. cbn [data].
  match goal with
  | |- context [interior_pass ?w ?h 1 ?value ?d] =>
      destruct (interior_pass_spec w h 1 value d Hlen) as [_ Hs]
  end.
  rewrite Hs by done. clear Hs.
  pose proof (sample_range (data img) (y * width img + x) c Hbytes) as Hrange.
  case_decide as Hin.
  - rewrite sharpen_value by lia. split; [reflexivity|].
    intros -> -> -> ->. lia.
  - split; reflexivity.
Qed.

Definition sample_edge : ImageData :=
  {| width := 3; height := 3;
     data := [ 100; 100; 100; 255; 100; 100; 100; 255; 100; 100; 100; 255;
               100; 100; 100; 255; 100; 100; 100; 255; 100; 100; 100; 255;
                 7;   7;   7; 255; 100; 100; 100; 255; 250; 250; 250; 255 ]%Z |}.

Lemma sample_edge_wf : wf_image sample_edge.
Proof.
  split; [reflexivity|]. unfold sample_edge. cbn [data].
  repeat (apply Forall_cons_2; [lia|]). apply Forall_nil_2.
Qed.

Lemma sharpen_pixel_witness :
  sample (data (sharpen sample_edge)) 4 0 = 100%Z.
Proof.
  destruct (sharpen_pixel sample_edge 1 1 0 sample_edge_wf
              ltac:(simpl; lia) ltac:(simpl; lia) ltac:(lia)) as [_ Hflat].
  apply Hflat; reflexivity.
Defined.

Lemma mean_fold (l : list Z) (s0 c0 : Z) :
  fold_left (fun '(sum, count) v => ((sum + v)%Z, (count + 1)%Z)) l (s0, c0)
  = (fold_left Z.add l s0, (c0 + Z.of_nat (length l))%Z).
Proof.
  revert s0 c0. induction l as [|v l IH]; intros s0 c0; cbn [fold_left length].
  - f_equal. lia.
  - rewrite IH. f_equal. lia.
Qed.

(** The quotient by nine of a sum of nine bytes, stored in the clamped
    array, is the nearest integer: checked on each of the 2296 sums. *)
Lemma box_mean_rounds (s : Z) :
  (0 <= s <= 2295)%Z -> JS.ToUint8Clamp (JS.of_Z s / JS.of_Z 9) = ((s + 4) / 9)%Z.
Proof.
  intros Hs.
  assert (Hall : forallb (fun s => Z.eqb (JS.ToUint8Clamp (JS.of_Z s / JS.of_Z 9))
                                     ((s + 4) / 9)) (seqZ 0 2296) = true)
    by (vm_compute; reflexivity).
  rewrite forallb_forall in Hall.
  apply Z.eqb_eq, Hall, list_elem_of_In, elem_of_seqZ. lia.
Qed.

Lemma fold_add_range (l : list Z) (s0 : Z) :
  Forall (fun v => 0 <= v <= 255)%Z l ->
  (s0 <= fold_left Z.add l s0 <= s0 + 255 * Z.of_nat (length l))%Z.
Proof.
  intros H. revert s0. induction H as [|v l Hv _ IH]; intros s0; cbn [fold_left length].
  - lia.
  - specialize (IH (s0 + v)%Z). lia.
Qed.

(** X17. The box blur of radius 1, the one the pipeline runs, pixel by
    pixel.  On a well-formed image each colour sample of a pixel off the
    one-pixel frame becomes the mean of the nine samples of its 3 x 3
    window rounded to the nearest integer; the frame and the alpha samples
    are kept. *)
Theorem denoise_pixel (img : ImageData) (x y c : nat) :
  wf_image img -> x < width img -> y < height img -> c < 4 ->
  let w := width img in
  let window := neighbourhood w (data img) x y 1 c in
  let total := fold_left Z.add window 0%Z in
  let out := sample (data (denoise img 1)) (y * w + x) c in
  length window = 9
  /\ out = (if decide ((1 <= x < w - 1 /\ 1 <= y < height img - 1) /\ c < 3)
            then ((total + 4) / 9)%Z else sample (data img) (y * w + x) c)
  /\ (0 <= out <= 255)%Z.
Proof.
  intros [Hlen Hbytes] Hx Hy Hc. cbv zeta. unfold denoise. cbn [data].
  match goal with
  | |- context [interior_pass ?w ?h 1 ?value ?d] =>
      destruct (interior_pass_spec w h 1 value d Hlen) as [_ Hs]
  end.
  rewrite Hs by done. clear Hs.
  assert (Hnine : length (neighbourhood (width img) (data img) x y 1 c) = 9)
    by reflexivity.
  pose proof (fold_add_range _ 0 (neighbourhood_range (width img) (data img) x y 1 c
                                    Hbytes)) as Hsum.
  rewrite Hnine in Hsum. change (Z.of_nat 9) with 9%Z in Hsum.
  split; [exact Hnine|].
  assert (Hvalue : forall total,
            (0 <= total <= 2295)%Z ->
            (0 <= (total + 4) / 9 <= 255)%Z).
  { intros t Ht. split; [apply Z.div_pos; lia|].
    assert ((t + 4) / 9 < 256)%Z by (apply Z.div_lt_upper_bound; lia). lia. }
  case_decide as Hin.
  - rewrite mean_fold, Hnine. change (0 + Z.of_nat 9)%Z with 9%Z.
    rewrite box_mean_rounds by lia. split; [reflexivity|]. apply Hvalue. lia.
  - split; [reflexivity|]. by apply sample_range.
Qed.

Lemma denoise_pixel_witness :
  sample (data (denoise sample_edge 1)) 4 0 = 106%Z.
Proof.
  destruct (denoise_pixel sample_edge 1 1 0 sample_edge_wf
              ltac:(simpl; lia) ltac:(simpl; lia) ltac:(lia)) as (_ & -> & _).
  vm_compute. reflexivity.
Defined.

(** **** Where Otsu's threshold falls *)

(** The number of pixels whose red sample is counted in bin [t]. *)
Fixpoint occurrences (t : nat) (data : list Z) : Z :=
  match data with
  | r :: _ :: _ :: _ :: rest =>
      ((if decide (Z.to_nat r = t) then 1 else 0) + occurrences t rest)%Z
  | _ => 0%Z
  end.

(** The pixels counted in the bins below [n]. *)
Fixpoint cumulative (n : nat) (data : list Z) : Z :=
  match n with
  | 0 => 0%Z
  | S n' => (cumulative n' data + occurrences n' data)%Z
  end.

(** The between-class variance the scan computes for a candidate. *)
Definition variance_at (totalPixels sum sumB wB : Z) : float :=
  let mB := (JS.of_Z sumB / JS.of_Z wB)%float in
  let mF := (JS.of_Z (sum - sumB) / JS.of_Z (totalPixels - wB))%float in
  (JS.of_Z wB * JS.of_Z (totalPixels - wB) * (mB - mF) * (mB - mF))%float.

Lemma occurrences_short (t : nat) (l : list Z) : length l < 4 -> occurrences t l = 0%Z.
Proof. destruct l as [|r [|g [|b [|a rest]]]]; simpl; try reflexivity; lia. Qed.

Lemma occurrences_nonneg (t : nat) (l : list Z) : (0 <= occurrences t l)%Z.
Proof.
  induction l as [l Hl | r g b a rest IH] using pixel_ind.
  - rewrite occurrences_short by done. lia.
  - cbn [occurrences]. case_decide; lia.
Qed.

Lemma occurrences_sample (t : nat) (l : list Z) :
  (0 < occurrences t l)%Z ->
  exists k, k * 4 + 3 < length l /\ Z.to_nat (sample l k 0) = t.
Proof.
  induction l as [l Hl | r g b a rest IH] using pixel_ind.
  - rewrite occurrences_short by done. lia.
  - cbn [occurrences]. case_decide as E.
    + intros _. exists 0. split; [simpl; lia|exact E].
    + intros H. destruct IH as (k & Hk & Hs); [lia|].
      exists (S k). split; [simpl; lia|]. by rewrite sample_next.
Qed.

Lemma build_histogram_short (l h : list Z) : length l < 4 -> build_histogram l h = h.
Proof. destruct l as [|r [|g [|b [|a rest]]]]; simpl; try reflexivity; lia. Qed.

Lemma build_histogram_spec (l : list Z) :
  forall (h : list Z) (t : nat),
    t < length h ->
    get (build_histogram l h) t = (get h t + occurrences t l)%Z.
Proof.
  induction l as [l Hl | r g b a rest IH] using pixel_ind; intros h t Ht.
  - rewrite build_histogram_short, occurrences_short by done. lia.
  - cbn [build_histogram occurrences].
    rewrite IH by (by rewrite length_alter). rewrite get_alter_succ.
    repeat case_decide; lia.
Qed.

Lemma cumulative_short (n : nat) (l : list Z) : length l < 4 -> cumulative n l = 0%Z.
Proof.
  intros Hl. induction n as [|n IH]; [done|].
  cbn [cumulative]. rewrite IH, occurrences_short by done. done.
Qed.

Lemma cumulative_pixel (n : nat) (r g b a : Z) (rest : list Z) :
  cumulative n (r :: g :: b :: a :: rest)
  = ((if decide (Z.to_nat r < n)%nat then 1 else 0) + cumulative n rest)%Z.
Proof.
  induction n as [|n IH]; [by case_decide; [lia|]|].
  cbn [cumulative occurrences]. rewrite IH. repeat case_decide; lia.
Qed.

Lemma cumulative_total (l : list Z) :
  Forall (fun v => 0 <= v <= 255)%Z l ->
  cumulative 256 l = (Z.of_nat (length l) / 4)%Z.
Proof.
  induction l as [l Hl | r g b a rest IH] using pixel_ind; intros Hbytes.
  - rewrite cumulative_short by done. rewrite Z.div_small; lia.
  - rewrite cumulative_pixel.
    apply Forall_cons in Hbytes as [Hr Hbytes]. do 3 apply Forall_cons in Hbytes as [_ Hbytes].
    rewrite IH by done. rewrite decide_True by lia.
    replace (Z.of_nat (length (r :: g :: b :: a :: rest)))
      with (1 * 4 + Z.of_nat (length rest))%Z by (simpl length; lia).
    by rewrite Z.div_add_l.
Qed.

Lemma cumulative_mono (n m : nat) (l : list Z) :
  n <= m -> (cumulative n l <= cumulative m l)%Z.
Proof.
  induction 1 as [|m _ IH]; [lia|].
  cbn [cumulative]. pose proof (occurrences_nonneg m l). lia.
Qed.

Lemma cumulative_gap (n m : nat) (l : list Z) :
  (cumulative n l < cumulative m l)%Z ->
  exists t, n <= t < m /\ (0 < occurrences t l)%Z.
Proof.
  induction m as [|m IH]; cbn [cumulative].
  - intros H. pose proof (cumulative_mono 0 n l ltac:(lia)). simpl in *. lia.
  - intros H. destruct (decide (0 < occurrences m l)%Z) as [Hm|Hm].
    + destruct (le_lt_dec n m) as [Hle|Hlt]; [by exists m; split; [lia|]|].
      pose proof (cumulative_mono (S m) n l ltac:(lia)). cbn [cumulative] in *. lia.
    + pose proof (occurrences_nonneg m l).
      destruct IH as (t & Ht & Hocc); [lia|]. exists t. split; [lia|done].
Qed.

#[local] Transparent JS.gt.

(** A number is not greater than itself, NaN included. *)
Lemma gt_irrefl (x : float) : JS.gt x x = false.
Proof.
  unfold JS.gt. rewrite FloatAxioms.ltb_spec. unfold SFltb, SFcompare.
  destruct (Prim2SF x) as [s|s| |s m e]; try reflexivity.
  - destruct s; reflexivity.
  - destruct s; rewrite Z.compare_refl, ?Pos.compare_cont_refl, ?Pos.compare_refl;
      reflexivity.
Qed.

#[local] Opaque JS.gt.

Lemma otsu_step_cases (histogram : list Z) (totalPixels sum : Z) (st : OtsuState)
    (t : nat) :
  otsu_step histogram totalPixels sum st t
  = let wB' := (wB st + get histogram t)%Z in
    if (wB' =? 0)%Z then
      Continue {| sumB := sumB st; wB := wB'; wF := wF st;
                  maxVariance := maxVariance st; best := best st |}
    else if (totalPixels - wB' =? 0)%Z then
      Break {| sumB := sumB st; wB := wB'; wF := (totalPixels - wB')%Z;
               maxVariance := maxVariance st; best := best st |}
    else
      let sumB' := (sumB st + Z.of_nat t * get histogram t)%Z in
      let variance := variance_at totalPixels sum sumB' wB' in
      if JS.gt variance (maxVariance st) then
        Continue {| sumB := sumB'; wB := wB'; wF := (totalPixels - wB')%Z;
                    maxVariance := variance; best := Z.of_nat t |}
      else
        Continue {| sumB := sumB'; wB := wB'; wF := (totalPixels - wB')%Z;
                    maxVariance := maxVariance st; best := best st |}.
Proof.
  unfold otsu_step, JS.checked_div, variance_at. cbv zeta.
  destruct (wB st + get histogram t =? 0)%Z; [reflexivity|].
  destruct (totalPixels - (wB st + get histogram t) =? 0)%Z; reflexivity.
Qed.

(** What the scan keeps true of its state once the bins below [n] are
    read: the background weight is the number of pixels in them; the
    variance of the last candidate evaluated does not exceed the maximum;
    and the best threshold is 0 or an occupied bin with pixels above it. *)
Definition otsu_invariant (l : list Z) (totalPixels sum : Z) (n : nat)
    (st : OtsuState) : Prop :=
  wB st = cumulative n l
  /\ (wB st <> 0%Z ->
      JS.gt (variance_at totalPixels sum (sumB st) (wB st)) (maxVariance st) = false)
  /\ (best st = 0%Z
      \/ (0 <= best st)%Z
         /\ (0 < occurrences (Z.to_nat (best st)) l)%Z
         /\ (cumulative (S (Z.to_nat (best st))) l < totalPixels)%Z).

Lemma cumulative_S (n : nat) (l : list Z) :
  cumulative (S n) l = (cumulative n l + occurrences n l)%Z.
Proof. reflexivity. Qed.

#[local] Opaque cumulative.

Lemma otsu_scan_invariant (l : list Z) (sum : Z) (k n : nat) (st : OtsuState) :
  n + k <= 256 ->
  otsu_invariant l (cumulative 256 l) sum n st ->
  exists st',
    otsu_scan (build_histogram l (replicate 256 0%Z)) (cumulative 256 l) sum (seq n k) st
    = Some st'
    /\ (best st' = 0%Z
        \/ (0 <= best st')%Z
           /\ (0 < occurrences (Z.to_nat (best st')) l)%Z
           /\ (cumulative (S (Z.to_nat (best st'))) l < cumulative 256 l)%Z).
Proof.
  set (total := cumulative 256 l).
  set (histogram := build_histogram l (replicate 256 0%Z)).
  assert (Hbin : forall t, t < 256 -> get histogram t = occurrences t l).
  { intros t Ht. unfold histogram.
    rewrite build_histogram_spec by (rewrite length_replicate; exact Ht).
    unfold get. rewrite lookup_replicate_2 by exact Ht. apply Z.add_0_l. }
  clearbody histogram.
  revert n st. induction k as [|k IH]; intros n st Hn (HwB & Hvar & Hbest).
  { exists st. split; [reflexivity|exact Hbest]. }
  cbn [seq otsu_scan]. rewrite otsu_step_cases. cbv zeta.
  rewrite Hbin by lia.
  pose proof (occurrences_nonneg n l) as Hocc.
  pose proof (cumulative_mono (S n) 256 l ltac:(lia)) as Hle.
  rewrite cumulative_S in Hle. fold total in Hle.
  destruct (Z.eqb_spec (wB st + occurrences n l) 0) as [E0|E0].
  { apply IH; [lia|]. split; [|split]; cbn [wB sumB maxVariance best].
    - rewrite cumulative_S. lia.
    - lia.
    - exact Hbest. }
  destruct (Z.eqb_spec (total - (wB st + occurrences n l)) 0) as [E1|E1].
  { eexists. split; [reflexivity|exact Hbest]. }
  destruct (JS.gt (variance_at total sum (sumB st + Z.of_nat n * occurrences n l)
                     (wB st + occurrences n l)) (maxVariance st)) eqn:Egt.
  - apply IH; [lia|]. split; [|split]; cbn [wB sumB maxVariance best].
    + rewrite cumulative_S. lia.
    + intros _. apply gt_irrefl.
    + right. rewrite Nat2Z.id. split; [lia|]. split.
      * destruct (decide (occurrences n l = 0%Z)) as [Hz|Hz]; [|lia].
        exfalso. rewrite Hz, Z.mul_0_r, !Z.add_0_r in Egt.
        rewrite Hvar in Egt; [discriminate|lia].
      * rewrite cumulative_S. lia.
  - apply IH; [lia|]. split; [|split]; cbn [wB sumB maxVariance best].
    + rewrite cumulative_S. lia.
    + intros _. exact Egt.
    + exact Hbest.
Qed.

(** The bin the scan settles on. *)
Lemma otsu_best_bin (img : ImageData) :
  wf_image img ->
  exists t : Z,
    calculateOtsuThreshold img = Some t
    /\ (t = 0%Z
        \/ (0 <= t)%Z
           /\ (0 < occurrences (Z.to_nat t) (data img))%Z
           /\ (cumulative (S (Z.to_nat t)) (data img) < cumulative 256 (data img))%Z).
Proof.
  intros [Hlen Hbytes]. unfold calculateOtsuThreshold.
  rewrite <- (cumulative_total (data img) Hbytes).
  destruct (otsu_scan_invariant (data img)
              (weighted_sum (build_histogram (data img) (replicate 256 0%Z)))
              256 0 otsu_start ltac:(lia)) as (st' & -> & Hbest).
  { split; [reflexivity|]. split; [done|]. by left. }
  exists (best st'). split; [reflexivity|exact Hbest].
Qed.

(** Some pixel is counted in a bin above [t]. *)
Lemma brighter_pixel (l : list Z) (t : nat) :
  Forall (fun v => 0 <= v <= 255)%Z l ->
  (cumulative (S t) l < cumulative 256 l)%Z ->
  S t <= 255
  /\ exists k, k * 4 + 3 < length l /\ (Z.of_nat t < sample l k 0)%Z.
Proof.
  intros Hbytes Hcum. split.
  - destruct (le_lt_dec (S t) 255) as [?|Hbig]; [done|].
    pose proof (cumulative_mono 256 (S t) l ltac:(lia)). lia.
  - destruct (cumulative_gap (S t) 256 l Hcum) as (t' & Ht' & Hocc').
    destruct (occurrences_sample t' l Hocc') as (k & Hk & Hs).
    exists k. split; [done|]. pose proof (sample_range l k 0 Hbytes). lia.
Qed.

(** X18. Where Otsu's threshold falls.  On a well-formed image the
    threshold [calculateOtsuThreshold] returns is 0, or else the red
    sample of some pixel of the image with some pixel brighter than it; it
    is never 255. *)
Theorem otsu_threshold_is_a_luminance (img : ImageData) :
  wf_image img ->
  exists t : Z,
    calculateOtsuThreshold img = Some t
    /\ (0 <= t <= 254)%Z
    /\ (t = 0%Z
        \/ (exists k, k * 4 + 3 < length (data img) /\ sample (data img) k 0 = t)
           /\ (exists k, k * 4 + 3 < length (data img)
                         /\ (t < sample (data img) k 0)%Z)).
Proof.
  intros Hwf. destruct (otsu_best_bin img Hwf) as (t & Ht & Hbin).
  exists t. split; [exact Ht|].
  destruct Hbin as [->|(Hpos & Hocc & Hcum)]; [split; [lia|by left]|].
  destruct (brighter_pixel (data img) (Z.to_nat t) (proj2 Hwf) Hcum)
    as (Hle & k' & Hk' & Hbright).
  split; [lia|]. right. split.
  - destruct (occurrences_sample (Z.to_nat t) (data img) Hocc) as (k & Hk & Hs).
    exists k. split; [done|].
    pose proof (sample_range (data img) k 0 (proj2 Hwf)). lia.
  - exists k'. split; [done|lia].
Qed.

Lemma otsu_threshold_is_a_luminance_witness :
  calculateOtsuThreshold sample_dots = Some 120%Z.
Proof.
  destruct (otsu_threshold_is_a_luminance sample_dots sample_dots_wf)
    as (t & Ht & _).
  rewrite Ht. vm_compute in Ht. injection Ht as <-. reflexivity.
Defined.

(** Comparing two bytes as numbers is comparing them as integers:
    checked on each of the 65536 pairs. *)
Lemma gt_bytes (a b : Z) :
  (0 <= a <= 255)%Z -> (0 <= b <= 255)%Z ->
  JS.gt (JS.of_Z a) (JS.of_Z b) = (b <? a)%Z.
Proof.
  intros Ha Hb.
  assert (Hall : forallb (fun a => forallb (fun b =>
                    Bool.eqb (JS.gt (JS.of_Z a) (JS.of_Z b)) (b <? a)%Z) (seqZ 0 256))
                   (seqZ 0 256) = true) by (vm_compute; reflexivity).
  rewrite forallb_forall in Hall.
  specialize (Hall a ltac:(apply list_elem_of_In, elem_of_seqZ; lia)).
  rewrite forallb_forall in Hall.
  specialize (Hall b ltac:(apply list_elem_of_In, elem_of_seqZ; lia)).
  by apply Bool.eqb_prop in Hall.
Qed.

(** X19. Thresholding at Otsu's value never blanks an image: unless
    every pixel of a well-formed image has red sample 0, the binarised
    image has a white pixel, namely wherever the input was brightest. *)
Theorem threshold_keeps_brightest (img : ImageData) (k : nat) :
  wf_image img -> k * 4 + 3 < length (data img) ->
  (0 < sample (data img) k 0)%Z ->
  (forall k', k' * 4 + 3 < length (data img) ->
     (sample (data img) k' 0 <= sample (data img) k 0)%Z) ->
  exists out, threshold img None = Some out /\ sample (data out) k 0 = 255%Z.
Proof.
  intros Hwf Hk Hpos Hmax.
  destruct (otsu_best_bin img Hwf) as (t & Ht & Hbin).
  unfold threshold. rewrite Ht. cbn [fmap option_fmap option_map mbind option_bind].
  eexists. split; [reflexivity|]. cbn [data].
  destruct (threshold_data_pixel (JS.of_Z t) (data img) k Hk) as (-> & _).
  pose proof (sample_range (data img) k 0 (proj2 Hwf)) as Hs.
  destruct Hbin as [->|(Ht0 & _ & Hcum)].
  - rewrite gt_bytes by lia.
    destruct (Z.ltb_spec 0 (sample (data img) k 0)); [done|lia].
  - destruct (brighter_pixel (data img) (Z.to_nat t) (proj2 Hwf) Hcum)
      as (Hle & k' & Hk' & Hbright).
    specialize (Hmax k' Hk'). rewrite gt_bytes by lia.
    destruct (Z.ltb_spec t (sample (data img) k 0)); [done|lia].
Qed.

Lemma threshold_keeps_brightest_witness :
  exists out, threshold sample_dots None = Some out /\ sample (data out) 5 0 = 255%Z.
Proof.
  apply (threshold_keeps_brightest sample_dots 5 sample_dots_wf).
  - simpl. lia.
  - vm_compute. reflexivity.
  - intros k' Hk'. simpl in Hk'.
    do 9 (destruct k' as [|k']; [vm_compute; discriminate|]). lia.
Defined.

Lemma threshold_data_short (t : float) (l : list Z) :
  length l < 4 -> threshold_data t l = l.
Proof. destruct l as [|r [|g [|b [|a rest]]]]; simpl; try reflexivity; lia. Qed.

(** X20. Binarising twice at one threshold is binarising once, for any
    threshold value at or above 0 and below 255. *)
Theorem threshold_twice (img : ImageData) (t : float) :
  JS.gt (JS.of_Z 255) t = true -> JS.gt (JS.of_Z 0) t = false ->
  exists out,
    threshold img (Some t) = Some out /\ threshold out (Some t) = Some out.
Proof.
  intros Hwhite Hblack. unfold threshold. cbn [mbind option_bind].
  eexists. split; [reflexivity|]. cbn [data width height]. do 2 f_equal.
  induction (data img) as [l Hl | r g b a rest IH] using pixel_ind.
  - rewrite (threshold_data_short t l Hl). by apply threshold_data_short.
  - cbn [threshold_data]. rewrite IH.
    destruct (JS.gt (JS.of_Z r) t); by rewrite ?Hwhite, ?Hblack.
Qed.

Lemma threshold_twice_witness :
  exists out,
    threshold sample_dots (Some 128%float) = Some out
    /\ threshold out (Some 128%float) = Some out.
Proof.
  apply (threshold_twice sample_dots 128%float); vm_compute; reflexivity.
Defined.

(** **** Deskew on the grid of candidate angles *)





(** **** Contrast *)

(** [Math.max] and [Math.min] on two numbers: NaN if either is NaN, and
    of two zeros the positive one is the larger. *)
Definition Math_max (a b : float) : float :=
  if JS.is_nan a || JS.is_nan b then nan
  else if PrimFloat.ltb a b then b
  else if PrimFloat.ltb b a then a
  else if PrimFloat.eqb a 0 then (a + b)%float
  else a.

Definition Math_min (a b : float) : float :=
  if JS.is_nan a || JS.is_nan b then nan
  else if PrimFloat.ltb a b then a
  else if PrimFloat.ltb b a then b
  else if PrimFloat.eqb a 0 then (- (- a + - b))%float
  else a.

(** [Math.min(255, Math.max(0, factor * data[i] + intercept))], stored. *)
Definition contrast_sample (factor : float) (v : Z) : Z :=
  let intercept := (128 * (1 - factor))%float in
  JS.ToUint8Clamp (Math_min 255 (Math_max 0 (factor * JS.of_Z v + intercept))).

(** The loop of [increaseContrast], one pixel at a time. *)
Fixpoint increaseContrast_data (factor : float) (data : list Z) : list Z :=
  match data with
  | r :: g :: b :: a :: rest =>
      contrast_sample factor r :: contrast_sample factor g :: contrast_sample factor b
        :: a :: increaseContrast_data factor rest
  | _ => data
  end.

Definition increaseContrast (imageData : ImageData) (factor : float) : ImageData :=
  {| width := width imageData; height := height imageData;
     data := increaseContrast_data factor (data imageData) |}.

Lemma increaseContrast_data_pixel (factor : float) (l : list Z) (k c : nat) :
  k * 4 + 3 < length l -> c < 4 ->
  sample (increaseContrast_data factor l) k c
  = if decide (c < 3) then contrast_sample factor (sample l k c) else sample l k c.
Proof.
  revert k. induction l as [l Hl | r g b a rest IH] using pixel_ind; intros k Hk Hc.
  - lia.
  - destruct k as [|k].
    + cbn [increaseContrast_data].
      destruct c as [|[|[|[|c]]]]; try lia; reflexivity.
    + cbn [increaseContrast_data]. rewrite !sample_next.
      apply IH; [simpl in Hk; lia|done].
Qed.

(** The contrast factors of the two presets, on each of the 256 bytes:
    the map is monotone, leaves a byte below 128 where it is or darker and
    a byte from 128 up where it is or brighter. *)
Lemma contrast_sample_presets (factor : float) (v v' : Z) :
  factor = 1.3%float \/ factor = 1.8%float ->
  (0 <= v <= 255)%Z -> (0 <= v' <= 255)%Z ->
  ((v <= v')%Z -> (contrast_sample factor v <= contrast_sample factor v')%Z)
  /\ ((v < 128)%Z -> (contrast_sample factor v <= v)%Z)
  /\ ((128 <= v)%Z -> (v <= contrast_sample factor v)%Z).
Proof.
  intros Hf Hv Hv'.
  assert (Hall : forall f, f = 1.3%float \/ f = 1.8%float ->
            forallb (fun v =>
                       ((v =? 255) || (contrast_sample f v <=? contrast_sample f (v + 1)))
                       && (if v <? 128 then contrast_sample f v <=? v
                           else v <=? contrast_sample f v))%Z
              (seqZ 0 256) = true).
  { intros f [-> | ->]; vm_compute; reflexivity. }
  specialize (Hall factor Hf). rewrite forallb_forall in Hall.
  assert (Hstep : forall u, (0 <= u <= 255)%Z ->
            ((u < 255)%Z -> (contrast_sample factor u <= contrast_sample factor (u + 1))%Z)
            /\ ((u < 128)%Z -> (contrast_sample factor u <= u)%Z)
            /\ ((128 <= u)%Z -> (u <= contrast_sample factor u)%Z)).
  { intros u Hu.
    specialize (Hall u ltac:(apply list_elem_of_In, elem_of_seqZ; lia)).
    apply andb_prop in Hall as [H1 H2].
    split; [|split].
    - intros Hlt. apply orb_prop in H1 as [H1|H1]; lia.
    - intros Hlt. destruct (Z.ltb_spec u 128); lia.
    - intros Hge. destruct (Z.ltb_spec u 128); lia. }
  split; [|split; apply Hstep; exact Hv].
  intros Hle.
  assert (Hmono : forall n : nat, (v + Z.of_nat n <= 255)%Z ->
            (contrast_sample factor v <= contrast_sample factor (v + Z.of_nat n))%Z).
  { induction n as [|n IH]; intros Hn.
    - rewrite Z.add_0_r. lia.
    - specialize (IH ltac:(lia)).
      destruct (Hstep (v + Z.of_nat n)%Z ltac:(lia)) as [Hs _].
      replace (v + Z.of_nat (S n))%Z with (v + Z.of_nat n + 1)%Z by lia. lia. }
  specialize (Hmono (Z.to_nat (v' - v)) ltac:(lia)).
  by replace (v + Z.of_nat (Z.to_nat (v' - v)))%Z with v' in Hmono by lia.
Qed.

(** X22. With the contrast factor of either preset (1.3 printed, 1.8
    handwritten), [increaseContrast] on a well-formed image never inverts
    brightness: of two colour samples, of any pixels and channels, the
    one that was not brighter before is not brighter after; a sample below
    128 does not get brighter and one from 128 up does not get darker; and
    alpha is kept. *)
Theorem increaseContrast_keeps_order (factor : float) (img : ImageData)
    (k k' c c' : nat) :
  factor = 1.3%float \/ factor = 1.8%float ->
  wf_image img ->
  k * 4 + 3 < length (data img) -> k' * 4 + 3 < length (data img) ->
  c < 3 -> c' < 3 ->
  let out := data (increaseContrast img factor) in
  ((sample (data img) k c <= sample (data img) k' c')%Z ->
   (sample out k c <= sample out k' c')%Z)
  /\ ((sample (data img) k c < 128)%Z -> (sample out k c <= sample (data img) k c)%Z)
  /\ ((128 <= sample (data img) k c)%Z -> (sample (data img) k c <= sample out k c)%Z)
  /\ sample out k 3 = sample (data img) k 3.
Proof.
  intros Hf [_ Hbytes] Hk Hk' Hc Hc'. cbv zeta. cbn [increaseContrast data].
  rewrite !increaseContrast_data_pixel by lia.
  rewrite !decide_True by lia. rewrite decide_False by lia.
  pose proof (sample_range (data img) k c Hbytes) as Hv.
  pose proof (sample_range (data img) k' c' Hbytes) as Hv'.
  destruct (contrast_sample_presets factor _ _ Hf Hv Hv') as (Hmono & Hlow & Hhigh).
  repeat split; assumption.
Qed.

Lemma increaseContrast_keeps_order_witness :
  (sample (data (increaseContrast sample_dots 1.8)) 1 0
   <= sample (data (increaseContrast sample_dots 1.8)) 4 0)%Z
  /\ sample (data (increaseContrast sample_dots 1.8)) 1 0 = 60%Z.
Proof.
  destruct (increaseContrast_keeps_order 1.8 sample_dots 1 4 0 0
              ltac:(by right) sample_dots_wf
              ltac:(simpl; lia) ltac:(simpl; lia) ltac:(lia) ltac:(lia))
    as (Hmono & _).
  split; [apply Hmono; vm_compute; discriminate|]. vm_compute. reflexivity.
Defined.

(** **** The stages keep the image an image *)

Lemma toGrayscale_wf (img : ImageData) : wf_image img -> wf_image (toGrayscale img).
Proof.
  intros [Hlen Hbytes]. unfold wf_image, toGrayscale. cbn [data width height].
  rewrite <- Hlen. clear Hlen.
  induction (data img) as [l Hl | r g b a rest IH] using pixel_ind.
  - by destruct l as [|r [|g [|b [|a rest]]]]; simpl in Hl; try lia.
  - apply Forall_cons in Hbytes as [_ Hbytes]. apply Forall_cons in Hbytes as [_ Hbytes].
    apply Forall_cons in Hbytes as [_ Hbytes]. apply Forall_cons in Hbytes as [Ha Hbytes].
    destruct (IH Hbytes) as [IHlen IHbytes]. cbn [toGrayscale_data length].
    split; [by rewrite IHlen|].
    pose proof (ToUint8Clamp_range (luminance r g b)).
    by repeat apply Forall_cons_2.
Qed.

Lemma increaseContrast_wf (img : ImageData) (factor : float) :
  wf_image img -> wf_image (increaseContrast img factor).
Proof.
  intros [Hlen Hbytes]. unfold wf_image, increaseContrast. cbn [data width height].
  rewrite <- Hlen. clear Hlen.
  induction (data img) as [l Hl | r g b a rest IH] using pixel_ind.
  - by destruct l as [|r [|g [|b [|a rest]]]]; simpl in Hl; try lia.
  - apply Forall_cons in Hbytes as [_ Hbytes]. apply Forall_cons in Hbytes as [_ Hbytes].
    apply Forall_cons in Hbytes as [_ Hbytes]. apply Forall_cons in Hbytes as [Ha Hbytes].
    destruct (IH Hbytes) as [IHlen IHbytes]. cbn [increaseContrast_data length].
    split; [by rewrite IHlen|]. unfold contrast_sample.
    repeat apply Forall_cons_2; try apply ToUint8Clamp_range; done.
Qed.

Lemma sharpen_wf (img : ImageData) : wf_image img -> wf_image (sharpen img).
Proof.
  intros Hwf. unfold sharpen. apply interior_pass_wf; [done|].
  intros x y c. destruct (fold_left _ _ _) as [sum ki]. lia.
Qed.

Lemma denoise_wf (img : ImageData) (radius : nat) :
  wf_image img -> wf_image (denoise img radius).
Proof.
  intros Hwf. unfold denoise. apply interior_pass_wf; [done|].
  intros x y c. destruct (fold_left _ _ _) as [sum count]. apply ToUint8Clamp_range.
Qed.

Lemma fold_left_invariant {A B : Type} (P : A -> Prop) (f : A -> B -> A) (l : list B)
    (a : A) :
  P a -> (forall a b, P a -> P (f a b)) -> P (fold_left f l a).
Proof. revert a. induction l as [|b l IH]; intros a Ha Hf; [done|]. apply IH; auto. Qed.

Lemma adaptiveThreshold_wf (img : ImageData) (blockSize : nat) (c : float) :
  wf_image img -> wf_image (adaptiveThreshold img blockSize c).
Proof.
  intros [Hlen Hbytes]. unfold wf_image, adaptiveThreshold. cbn [data width height].
  rewrite <- Hlen.
  apply (fold_left_invariant
           (fun out => length out = length (data img)
                       /\ Forall (fun v => 0 <= v <= 255)%Z out)); [done|].
  intros out y Hout. apply fold_left_invariant; [exact Hout|].
  clear out Hout. intros out x [Hl Hb]. split; [by rewrite store_gray_length|].
  unfold store_gray, binarize.
  repeat apply Forall_insert; try done; destruct (JS.gt _ _); lia.
Qed.

End Image.

(** ** Options and stage orchestration ([ImagePreprocessor.preprocess]) *)

Module Pipeline.

Set Warnings "-inexact-float".

(** The values a property of a [PreprocessingOptions] object can hold. *)
Inductive value : Type :=
| VUndefined
| VBool (b : bool)
| VNum (x : float)
| VStr (s : string).

(** [type OCRMode = 'printed' | 'handwritten'] *)
Inductive OCRMode : Type := printed | handwritten.

Definition mode_name (m : OCRMode) : string :=
  match m with printed => "printed" | handwritten => "handwritten" end.

(** The condition [if (opts.p)] on a property that may be absent. *)
Definition truthy (v : option value) : bool :=
  match v with
  | Some (VBool b) => b
  | Some (VNum x) => negb (PrimFloat.eqb x 0) && negb (JS.is_nan x)
  | Some (VStr s) => negb (String.eqb s EmptyString)
  | Some VUndefined | None => false
  end.

(** [opts.mode === 'handwritten'] *)
Definition is_handwritten (opts : gmap string value) : bool :=
  match opts !! "mode" with
  | Some (VStr s) => String.eqb s "handwritten"
  | _ => false
  end.

(** [opts.p ?? fallback] *)
Definition nullish_or (v : option value) (fallback : value) : value :=
  match v with
  | None | Some VUndefined => fallback
  | Some v => v
  end.

Definition getDefaultPrintedOptions : gmap string value :=
  list_to_map
    [ ("grayscale", VBool true); ("denoise", VBool true); ("contrast", VBool true);
      ("threshold", VBool false); ("adaptiveThreshold", VBool false);
      ("sharpen", VBool true); ("deskew", VBool false); ("morphology", VBool false);
      ("mode", VStr "printed"); ("contrastFactor", VNum 1.3);
      ("upscale", VBool false); ("bilateralFilter", VBool false);
      ("unsharpMask", VBool false) ].

Definition getDefaultHandwrittenOptions : gmap string value :=
  list_to_map
    [ ("grayscale", VBool true); ("denoise", VBool true); ("contrast", VBool true);
      ("threshold", VBool false); ("adaptiveThreshold", VBool true);
      ("sharpen", VBool false); ("deskew", VBool true); ("morphology", VBool true);
      ("mode", VStr "handwritten"); ("contrastFactor", VNum 1.8);
      ("adaptiveBlockSize", VNum 31); ("adaptiveC", VNum 12);
      ("upscale", VBool true); ("bilateralFilter", VBool true);
      ("unsharpMask", VBool true) ].

(** [options.mode === 'handwritten' ? getDefaultHandwrittenOptions()
                                     : getDefaultPrintedOptions()] *)
Definition defaults_for (options : gmap string value) : gmap string value :=
  if is_handwritten options then getDefaultHandwrittenOptions
  else getDefaultPrintedOptions.

(** [const opts = { ...defaults, ...options }]: a property of [options]
    replaces the preset's property of that name. *)
Definition effective_options (options : gmap string value) : gmap string value :=
  options ∪ defaults_for options.

(** The options [UploadZone] keeps in its state: the initial value and the
    ones [handleModeChange] installs. *)
Definition handleModeChange (mode : OCRMode) : gmap string value :=
  match mode with
  | handwritten =>
      list_to_map
        [ ("grayscale", VBool true); ("denoise", VBool true); ("contrast", VBool true);
          ("sharpen", VBool false); ("deskew", VBool true);
          ("adaptiveThreshold", VBool true); ("morphology", VBool true) ]
  | printed =>
      list_to_map
        [ ("grayscale", VBool true); ("denoise", VBool true); ("contrast", VBool true);
          ("sharpen", VBool true); ("deskew", VBool false);
          ("adaptiveThreshold", VBool false); ("morphology", VBool false) ]
  end.

(** [toggleOption(key)]: [{ ...prev, [key]: !prev[key] }] *)
Definition toggleOption (key : string) (prev : gmap string value) : gmap string value :=
  <[key := VBool (negb (truthy (prev !! key)))]> prev.

(** What [processItem] passes to [performOCR]:
    [{ ...preprocessingOptions, mode: ocrMode }]. *)
Definition batch_options (preprocessingOptions : gmap string value) (ocrMode : OCRMode)
    : gmap string value :=
  <["mode" := VStr (mode_name ocrMode)]> preprocessingOptions.

(** The calls [preprocess] makes on [ImagePreprocessor], with the
    arguments it passes besides the image. *)
Inductive Stage : Type :=
| Upscale (factor : Z)
| Grayscale
| Deskew
| BilateralFilter (radius sigmaColor sigmaSpace : Z)
| MedianFilter (radius : Z)
| Denoise
| IncreaseContrast (factor : value)
| Opening (kernelSize : Z)
| Closing (kernelSize : Z)
| UnsharpMask (amount : float) (radius : Z)
| Sharpen
| AdaptiveThreshold (blockSize c : value)
| Threshold.

Section Orchestration.

(** The image type and what each call does to it. *)
Context {Img : Type} (call : Stage -> Img -> Img).

(** "Step 0: Upscale first" *)
Definition step_upscale (opts : gmap string value) (imageData : Img) : Img :=
  if truthy (opts !! "upscale") && is_handwritten opts
  then call (Upscale 2) imageData
  else imageData.

(** "Step 1: Convert to grayscale first" *)
Definition step_grayscale (opts : gmap string value) (imageData : Img) : Img :=
  if truthy (opts !! "grayscale") then call Grayscale imageData else imageData.

(** "Step 2: Deskew" *)
Definition step_deskew (opts : gmap string value) (imageData : Img) : Img :=
  if truthy (opts !! "deskew") then call Deskew imageData else imageData.

(** "Step 3: Bilateral filter", else the plain noise reduction *)
Definition step_noise (opts : gmap string value) (imageData : Img) : Img :=
  if truthy (opts !! "bilateralFilter") then
    call (BilateralFilter (if is_handwritten opts then 3 else 2) 40 40) imageData
  else if truthy (opts !! "denoise") then
    if is_handwritten opts then call (MedianFilter 2) imageData
    else call Denoise imageData
  else imageData.

(** "Step 4: Increase contrast" *)
Definition step_contrast (opts : gmap string value) (imageData : Img) : Img :=
  if truthy (opts !! "contrast") then
    call (IncreaseContrast (nullish_or (opts !! "contrastFactor") (VNum 1.3))) imageData
  else imageData.

(** "Step 5: Morphological operations (for handwriting)" *)
Definition step_morphology (opts : gmap string value) (imageData : Img) : Img :=
  if truthy (opts !! "morphology") && is_handwritten opts then
    call (Closing 3) (call (Opening 2) imageData)
  else imageData.

(** "Step 6: Sharpen or unsharp mask" *)
Definition step_edges (opts : gmap string value) (imageData : Img) : Img :=
  if truthy (opts !! "unsharpMask") then
    call (UnsharpMask (if is_handwritten opts then 2.0 else 1.5) 1) imageData
  else if truthy (opts !! "sharpen") && negb (is_handwritten opts) then
    call Sharpen imageData
  else imageData.

(** "Step 7: Thresholding" *)
Definition step_threshold (opts : gmap string value) (imageData : Img) : Img :=
  if truthy (opts !! "adaptiveThreshold") then
    call (AdaptiveThreshold (nullish_or (opts !! "adaptiveBlockSize") (VNum 15))
                            (nullish_or (opts !! "adaptiveC") (VNum 5))) imageData
  else if truthy (opts !! "threshold") then call Threshold imageData
  else imageData.

(** The body of [img.onload] between [getImageData] and [putImageData]:
    the steps, each on the [imageData] the one before it left. *)
Definition run_stages (opts : gmap string value) (imageData : Img) : Img :=
  let imageData := step_upscale opts imageData in
  let imageData := step_grayscale opts imageData in
  let imageData := step_deskew opts imageData in
  let imageData := step_noise opts imageData in
  let imageData := step_contrast opts imageData in
  let imageData := step_morphology opts imageData in
  let imageData := step_edges opts imageData in
  let imageData := step_threshold opts imageData in
  imageData.

(** [preprocess(file, options)] once the file is decoded. *)
Definition preprocess (options : gmap string value) (imageData : Img) : Img :=
  run_stages (effective_options options) imageData.

(** A log of calls replayed on an image. *)
Definition replay (log : list Stage) (imageData : Img) : Img :=
  fold_left (fun img stage => call stage img) log imageData.

End Orchestration.

(** A run on the log of the calls made so far records its calls. *)
Definition logging (stage : Stage) (log : list Stage) : list Stage := log ++ [stage].

Definition stage_trace (opts : gmap string value) : list Stage :=
  run_stages logging opts [].

(** The eight steps of the pipeline. *)
Definition stage_phase (s : Stage) : nat :=
  match s with
  | Upscale _ => 0
  | Grayscale => 1
  | Deskew => 2
  | BilateralFilter _ _ _ | MedianFilter _ | Denoise => 3
  | IncreaseContrast _ => 4
  | Opening _ | Closing _ => 5
  | UnsharpMask _ _ | Sharpen => 6
  | AdaptiveThreshold _ _ | Threshold => 7
  end.

(** [a] comes before [b] in the fixed order: an earlier step, or the
    opening before the closing within the morphology step. *)
Definition comes_before (a b : Stage) : Prop :=
  stage_phase a < stage_phase b
  \/ exists k k', a = Opening k /\ b = Closing k'.

(** Some call of step [p] is in the log. *)
Definition runs (p : nat) (log : list Stage) : bool :=
  existsb (fun s => stage_phase s =? p) log.

(** The calls of step [k] of a run. *)
Definition step_log (k : nat) (opts : gmap string value) : list Stage :=
  match k with
  | 0 => step_upscale logging opts []
  | 1 => step_grayscale logging opts []
  | 2 => step_deskew logging opts []
  | 3 => step_noise logging opts []
  | 4 => step_contrast logging opts []
  | 5 => step_morphology logging opts []
  | 6 => step_edges logging opts []
  | 7 => step_threshold logging opts []
  | _ => []
  end.

(** *** The merge of preset and caller options *)

Lemma effective_options_lookup (options : gmap string value) (k : string) :
  effective_options options !! k
  = match options !! k with
    | Some v => Some v
    | None => defaults_for options !! k
    end.
Proof.
  unfold effective_options. rewrite lookup_union.
  destruct (options !! k) as [v|], (defaults_for options !! k) as [d|]; reflexivity.
Qed.

Lemma is_handwritten_batch (ui : gmap string value) (mode : OCRMode) :
  is_handwritten (batch_options ui mode)
  = match mode with handwritten => true | printed => false end.
Proof.
  unfold is_handwritten, batch_options. rewrite lookup_insert_eq.
  destruct mode; reflexivity.
Qed.

(** *** The order of the stages *)

Ltac case_ifs :=
  repeat match goal with |- context [if ?c then _ else _] => destruct c end.

Lemma replay_logging (l log : list Stage) : replay logging l log = log ++ l.
Proof.
  unfold replay. revert log. induction l as [|s l IH]; intros log; simpl.
  - by rewrite app_nil_r.
  - rewrite IH. unfold logging. by rewrite <- app_assoc.
Qed.

Lemma replay_app {Img : Type} (call : Stage -> Img -> Img) (l1 l2 : list Stage)
    (img : Img) :
  replay call (l1 ++ l2) img = replay call l2 (replay call l1 img).
Proof. apply fold_left_app. Qed.

(** Each step does to the image what its log says, whatever the calls do. *)
Lemma steps_replay {Img : Type} (call : Stage -> Img -> Img)
    (opts : gmap string value) (img : Img) :
  step_upscale call opts img = replay call (step_log 0 opts) img
  /\ step_grayscale call opts img = replay call (step_log 1 opts) img
  /\ step_deskew call opts img = replay call (step_log 2 opts) img
  /\ step_noise call opts img = replay call (step_log 3 opts) img
  /\ step_contrast call opts img = replay call (step_log 4 opts) img
  /\ step_morphology call opts img = replay call (step_log 5 opts) img
  /\ step_edges call opts img = replay call (step_log 6 opts) img
  /\ step_threshold call opts img = replay call (step_log 7 opts) img.
Proof.
  unfold step_log, step_upscale, step_grayscale, step_deskew, step_noise,
    step_contrast, step_morphology, step_edges, step_threshold.
  repeat split; case_ifs; reflexivity.
Qed.

Lemma run_stages_replay {Img : Type} (call : Stage -> Img -> Img)
    (opts : gmap string value) (img : Img) :
  run_stages call opts img
  = replay call (concat (map (fun k => step_log k opts) (seq 0 8))) img.
Proof.
  unfold run_stages. cbn [seq map concat]. rewrite app_nil_r, !replay_app.
  destruct (steps_replay call opts img) as (-> & _).
  set (img0 := replay call (step_log 0 opts) img).
  destruct (steps_replay call opts img0) as (_ & -> & _).
  set (img1 := replay call (step_log 1 opts) img0).
  destruct (steps_replay call opts img1) as (_ & _ & -> & _).
  set (img2 := replay call (step_log 2 opts) img1).
  destruct (steps_replay call opts img2) as (_ & _ & _ & -> & _).
  set (img3 := replay call (step_log 3 opts) img2).
  destruct (steps_replay call opts img3) as (_ & _ & _ & _ & -> & _).
  set (img4 := replay call (step_log 4 opts) img3).
  destruct (steps_replay call opts img4) as (_ & _ & _ & _ & _ & -> & _).
  set (img5 := replay call (step_log 5 opts) img4).
  destruct (steps_replay call opts img5) as (_ & _ & _ & _ & _ & _ & -> & _).
  set (img6 := replay call (step_log 6 opts) img5).
  destruct (steps_replay call opts img6) as (_ & _ & _ & _ & _ & _ & _ & ->).
  reflexivity.
Qed.

(** The log of a run is the logs of its eight steps, in their order. *)
Lemma stage_trace_steps (opts : gmap string value) :
  stage_trace opts = concat (map (fun k => step_log k opts) (seq 0 8)).
Proof. unfold stage_trace. by rewrite run_stages_replay, replay_logging. Qed.

Ltac unfold_steps :=
  cbv beta iota delta
    [step_log step_upscale step_grayscale step_deskew step_noise step_contrast
     step_morphology step_edges step_threshold logging app].

Lemma step_log_phase (opts : gmap string value) (k : nat) :
  Forall (fun s => stage_phase s = k) (step_log k opts).
Proof.
  do 8 (destruct k as [|k]; [unfold_steps; case_ifs; repeat constructor|]).
  constructor.
Qed.

Lemma step_log_sorted (opts : gmap string value) (k : nat) :
  StronglySorted comes_before (step_log k opts).
Proof.
  do 8 (destruct k as [|k];
        [unfold_steps; case_ifs;
         repeat first [apply SSorted_nil | apply SSorted_cons
                      | apply Forall_nil_2 | apply Forall_cons_2];
         right; by exists 2%Z, 3%Z|]).
  apply SSorted_nil.
Qed.

Lemma elem_of_stage_trace (opts : gmap string value) (s : Stage) :
  s ∈ stage_trace opts <-> s ∈ step_log (stage_phase s) opts.
Proof.
  rewrite stage_trace_steps, !list_elem_of_In, in_concat. split.
  - intros (l & Hl & Hs). apply in_map_iff in Hl as (k & <- & _).
    pose proof (step_log_phase opts k) as Hk. rewrite Forall_forall in Hk.
    by rewrite (Hk s (proj2 (list_elem_of_In _ _) Hs)).
  - intros Hs. exists (step_log (stage_phase s) opts). split; [|done].
    apply (in_map (fun k => step_log k opts)), in_seq. destruct s; simpl; lia.
Qed.

Lemma steps_sorted (opts : gmap string value) (n k : nat) :
  StronglySorted comes_before (concat (map (fun k => step_log k opts) (seq k n)))
  /\ Forall (fun s => k <= stage_phase s)
       (concat (map (fun k => step_log k opts) (seq k n))).
Proof.
  revert k. induction n as [|n IH]; intros k; simpl; [by split; constructor|].
  destruct (IH (S k)) as [Hsorted Hlater].
  pose proof (step_log_phase opts k) as Hk.
  rewrite Forall_forall in Hk, Hlater. split.
  - apply StronglySorted_app_2; [|apply step_log_sorted|done].
    intros a b Ha Hb. left. rewrite (Hk a Ha).
    pose proof (Hlater b Hb). lia.
  - apply Forall_app. split; apply Forall_forall.
    + intros a Ha. by rewrite (Hk a Ha).
    + intros b Hb. pose proof (Hlater b Hb). lia.
Qed.

Lemma stage_trace_sorted (opts : gmap string value) :
  StronglySorted comes_before (stage_trace opts).
Proof. rewrite stage_trace_steps. apply steps_sorted. Qed.

(** Which steps run, by the toggles and the mode. *)
Lemma step_log_runs (opts : gmap string value) (k p : nat) :
  runs p (step_log k opts)
  = (k =? p) && runs k (step_log k opts).
Proof.
  pose proof (step_log_phase opts k) as Hk. unfold runs.
  induction Hk as [|s l Hs _ IH]; simpl; [by rewrite andb_false_r|].
  rewrite IH, Hs, Nat.eqb_refl. simpl. destruct (k =? p); reflexivity.
Qed.

Lemma stage_trace_runs (opts : gmap string value) (p : nat) :
  p < 8 -> runs p (stage_trace opts) = runs p (step_log p opts).
Proof.
  intros Hp. rewrite stage_trace_steps. unfold runs at 1.
  cbn [seq map concat]. rewrite !existsb_app.
  repeat match goal with
         | |- context [existsb (fun s => stage_phase s =? p) (step_log ?k opts)] =>
             change (existsb (fun s => stage_phase s =? p) (step_log k opts))
               with (runs p (step_log k opts));
             rewrite (step_log_runs opts k p)
         end.
  do 8 (destruct p as [|p]; [simpl; by rewrite ?orb_false_r|]). lia.
Qed.

Lemma step_log_enabled (opts : gmap string value) :
  let on p := truthy (opts !! p) in
  let hw := is_handwritten opts in
  runs 0 (step_log 0 opts) = on "upscale" && hw
  /\ runs 1 (step_log 1 opts) = on "grayscale"
  /\ runs 2 (step_log 2 opts) = on "deskew"
  /\ runs 3 (step_log 3 opts) = on "bilateralFilter" || on "denoise"
  /\ runs 4 (step_log 4 opts) = on "contrast"
  /\ runs 5 (step_log 5 opts) = on "morphology" && hw
  /\ runs 6 (step_log 6 opts) = on "unsharpMask" || (on "sharpen" && negb hw)
  /\ runs 7 (step_log 7 opts) = on "adaptiveThreshold" || on "threshold".
Proof.
  cbv zeta. unfold_steps.
  repeat split;
    repeat match goal with
           | |- context [truthy ?v] => destruct (truthy v)
           | |- context [is_handwritten ?o] => destruct (is_handwritten o)
           end; reflexivity.
Qed.

Lemma last_suffix {A : Type} (l1 l2 : list A) (x : A) :
  last l2 = Some x -> last (l1 ++ l2) = Some x.
Proof. intros H. apply last_app_Some. by left. Qed.

(** C1. For every options record, [preprocess] is the replay of a fixed
    log of calls determined by the effective options; the log lists the
    calls in the order upscale, grayscale, deskew, noise reduction,
    contrast, morphology (opening, then closing), edge enhancement,
    binarization, each step present exactly when its toggles enable it;
    with [bilateralFilter] on, the bilateral filter is the only call of
    the noise-reduction step, whether or not [denoise] is on too; and with
    a binarization toggle on, the last call of the run is the
    binarization. *)
Theorem preprocess_stage_order (options : gmap string value) :
  let opts := effective_options options in
  let log := stage_trace opts in
  let on p := truthy (opts !! p) in
  let hw := is_handwritten opts in
  (forall (Img : Type) (call : Stage -> Img -> Img) (imageData : Img),
      preprocess call options imageData = replay call log imageData)
  /\ StronglySorted comes_before log
  /\ (runs 0 log = on "upscale" && hw
      /\ runs 1 log = on "grayscale"
      /\ runs 2 log = on "deskew"
      /\ runs 3 log = on "bilateralFilter" || on "denoise"
      /\ runs 4 log = on "contrast"
      /\ runs 5 log = on "morphology" && hw
      /\ runs 6 log = on "unsharpMask" || (on "sharpen" && negb hw)
      /\ runs 7 log = on "adaptiveThreshold" || on "threshold")
  /\ (on "bilateralFilter" = true ->
      BilateralFilter (if hw then 3 else 2) 40 40 ∈ log
      /\ forall s, s ∈ log -> stage_phase s = 3 ->
           s = BilateralFilter (if hw then 3 else 2) 40 40)
  /\ (on "adaptiveThreshold" || on "threshold" = true ->
      exists s, last log = Some s /\ stage_phase s = 7).
Proof.
  cbv zeta. set (opts := effective_options options).
  split; [|split; [|split; [|split]]].
  - intros Img call img. unfold preprocess. fold opts.
    by rewrite run_stages_replay, stage_trace_steps.
  - apply stage_trace_sorted.
  - rewrite !stage_trace_runs by lia. apply step_log_enabled.
  - intros Hon.
    assert (Hlog : step_log 3 opts
                   = [BilateralFilter (if is_handwritten opts then 3 else 2) 40 40]).
    { unfold_steps. rewrite Hon. reflexivity. }
    split.
    + apply elem_of_stage_trace. cbn [stage_phase]. rewrite Hlog. by left.
    + intros s Hs Hphase. apply elem_of_stage_trace in Hs.
      rewrite Hphase, Hlog in Hs. by apply list_elem_of_singleton in Hs.
  - intros Hon. rewrite stage_trace_steps. cbn [seq map concat].
    rewrite app_nil_r.
    assert (Hlast : exists s, last (step_log 7 opts) = Some s /\ stage_phase s = 7).
    { unfold_steps.
      destruct (truthy (opts !! "adaptiveThreshold")); [by eexists|].
      destruct (truthy (opts !! "threshold")); [by eexists|discriminate]. }
    destruct Hlast as (s & Hlast & Hphase). exists s. split; [|done].
    by do 7 apply last_suffix.
Qed.

Definition sample_options : gmap string value :=
  list_to_map [ ("mode", VStr "handwritten"); ("denoise", VBool true);
                ("threshold", VBool true); ("upscale", VBool false) ].

Lemma preprocess_stage_order_witness :
  BilateralFilter 3 40 40 ∈ stage_trace (effective_options sample_options)
  /\ (exists s, last (stage_trace (effective_options sample_options)) = Some s
                /\ stage_phase s = 7)
  /\ stage_trace (effective_options sample_options)
     = [Grayscale; Deskew; BilateralFilter 3 40 40; IncreaseContrast (VNum 1.8);
        Opening 2; Closing 3; UnsharpMask 2 1;
        AdaptiveThreshold (VNum 31) (VNum 12)].
Proof.
  pose proof (preprocess_stage_order sample_options) as (_ & _ & _ & Hbil & Hlast).
  split; [|split].
  - exact (proj1 (Hbil ltac:(vm_compute; reflexivity))).
  - exact (Hlast ltac:(vm_compute; reflexivity)).
  - vm_compute. reflexivity.
Defined.

(** C7. The options a run uses are the caller's options laid over the
    preset of the mode the caller selected: a property the caller supplies
    keeps the caller's value, any other property has the preset's.  For the
    batch queue, which passes the upload form's options together with the
    selected mode, the preset is that mode's. *)
Theorem effective_options_caller_precedence (options : gmap string value) (k : string) :
  effective_options options !! k
  = match options !! k with
    | Some v => Some v
    | None => (if is_handwritten options then getDefaultHandwrittenOptions
               else getDefaultPrintedOptions) !! k
    end
  /\ (forall (Img : Type) (call : Stage -> Img -> Img) (imageData : Img),
        preprocess call options imageData
        = run_stages call (effective_options options) imageData)
  /\ forall (preprocessingOptions : gmap string value) (ocrMode : OCRMode),
       effective_options (batch_options preprocessingOptions ocrMode) !! k
       = if decide (k = "mode") then Some (VStr (mode_name ocrMode))
         else match preprocessingOptions !! k with
              | Some v => Some v
              | None => match ocrMode with
                        | handwritten => getDefaultHandwrittenOptions
                        | printed => getDefaultPrintedOptions
                        end !! k
              end.
Proof.
  split; [apply effective_options_lookup|]. split; [reflexivity|].
  intros ui mode. rewrite effective_options_lookup.
  unfold defaults_for. rewrite is_handwritten_batch. unfold batch_options.
  case_decide as Hk.
  - subst k. by rewrite lookup_insert_eq.
  - rewrite lookup_insert_ne by done. destruct mode; reflexivity.
Qed.

(** Without a toggle touched, the upload form's options agree with the
    preset of the mode: the run uses exactly the preset. *)
Lemma handleModeChange_effective (mode : OCRMode) :
  effective_options (batch_options (handleModeChange mode) mode)
  = match mode with
    | handwritten => getDefaultHandwrittenOptions
    | printed => getDefaultPrintedOptions
    end.
Proof.
  apply map_eq. intros k. rewrite effective_options_lookup.
  unfold defaults_for. rewrite is_handwritten_batch. unfold batch_options.
  destruct (decide (k = "mode")) as [->|Hk].
  - rewrite lookup_insert_eq. destruct mode; vm_compute; reflexivity.
  - rewrite lookup_insert_ne by done.
    destruct (handleModeChange mode !! k) as [v|] eqn:E; [|by destruct mode].
    destruct mode; apply elem_of_list_to_map_2 in E;
      repeat (apply elem_of_cons in E as [[= -> ->]|E]; [vm_compute; reflexivity|]);
      by apply elem_of_nil in E.
Qed.

(** *** The upload form *)

(** The seven switches of the form's advanced options. *)
Inductive Switch : Type :=
| SwGrayscale | SwDenoise | SwContrast | SwSharpen | SwDeskew
| SwAdaptiveThreshold | SwMorphology.

#[local] Instance Switch_eq_dec : EqDecision Switch.
Proof. solve_decision. Defined.

(** The key each switch passes to [toggleOption]. *)
Definition switch_key (sw : Switch) : string :=
  match sw with
  | SwGrayscale => "grayscale"
  | SwDenoise => "denoise"
  | SwContrast => "contrast"
  | SwSharpen => "sharpen"
  | SwDeskew => "deskew"
  | SwAdaptiveThreshold => "adaptiveThreshold"
  | SwMorphology => "morphology"
  end.

(** The two pieces of state of [UploadZone] that reach the pipeline. *)
Record Form : Type := mkForm
  { ocrMode : OCRMode; preprocessingOptions : gmap string value }.

Inductive FormEvent : Type :=
| ModeChange (mode : OCRMode)
| Toggle (sw : Switch).

(** The [useState] initial values. *)
Definition initial_form : Form :=
  {| ocrMode := printed; preprocessingOptions := handleModeChange printed |}.

Definition form_step (f : Form) (ev : FormEvent) : Form :=
  match ev with
  | ModeChange mode => {| ocrMode := mode; preprocessingOptions := handleModeChange mode |}
  | Toggle sw =>
      {| ocrMode := ocrMode f;
         preprocessingOptions := toggleOption (switch_key sw) (preprocessingOptions f) |}
  end.

(** The form after the user's clicks. *)
Definition form_after (events : list FormEvent) : Form :=
  fold_left form_step events initial_form.

(** [checked={preprocessingOptions.key}] *)
Definition switched_on (sw : Switch) (f : Form) : bool :=
  truthy (preprocessingOptions f !! switch_key sw).

(** The calls of a run started from the form. *)
Definition form_trace (f : Form) : list Stage :=
  stage_trace (effective_options (batch_options (preprocessingOptions f) (ocrMode f))).

(** The options object of the form has the seven switch keys, each with a
    boolean, and no other. *)
Definition form_shape (ui : gmap string value) : Prop :=
  (forall sw, exists b, ui !! switch_key sw = Some (VBool b))
  /\ (forall k, (forall sw, switch_key sw <> k) -> ui !! k = None).

Lemma handleModeChange_shape (mode : OCRMode) : form_shape (handleModeChange mode).
Proof.
  split.
  - intros sw. destruct mode, sw; eexists; vm_compute; reflexivity.
  - intros k Hk. destruct mode; apply not_elem_of_list_to_map_1; cbn [fmap list_fmap fst];
      intros Hin;
      repeat (apply elem_of_cons in Hin as [->|Hin];
              [first [ by apply (Hk SwGrayscale) | by apply (Hk SwDenoise)
                     | by apply (Hk SwContrast) | by apply (Hk SwSharpen)
                     | by apply (Hk SwDeskew) | by apply (Hk SwAdaptiveThreshold)
                     | by apply (Hk SwMorphology) ]|]);
      by apply elem_of_nil in Hin.
Qed.

Lemma toggleOption_shape (sw : Switch) (ui : gmap string value) :
  form_shape ui -> form_shape (toggleOption (switch_key sw) ui).
Proof.
  intros [Hsw Hother]. unfold toggleOption. split.
  - intros sw'. destruct (decide (switch_key sw = switch_key sw')) as [E|E].
    + rewrite E, lookup_insert_eq. by eexists.
    + rewrite lookup_insert_ne by done. apply Hsw.
  - intros k Hk. rewrite lookup_insert_ne by apply Hk. by apply Hother.
Qed.

Lemma form_after_shape (events : list FormEvent) :
  form_shape (preprocessingOptions (form_after events)).
Proof.
  unfold form_after. induction events as [|ev events IH] using rev_ind.
  - apply handleModeChange_shape.
  - rewrite fold_left_app. cbn [fold_left]. destruct ev as [mode|sw]; simpl.
    + apply handleModeChange_shape.
    + by apply toggleOption_shape.
Qed.

(** What a run started from the form reads. *)
Lemma form_options_lookup (f : Form) :
  form_shape (preprocessingOptions f) ->
  let opts := effective_options (batch_options (preprocessingOptions f) (ocrMode f)) in
  let hw := match ocrMode f with handwritten => true | printed => false end in
  is_handwritten opts = hw
  /\ (forall sw, truthy (opts !! switch_key sw) = switched_on sw f)
  /\ truthy (opts !! "upscale") = hw
  /\ truthy (opts !! "bilateralFilter") = hw
  /\ truthy (opts !! "unsharpMask") = hw
  /\ truthy (opts !! "threshold") = false
  /\ nullish_or (opts !! "contrastFactor") (VNum 1.3) = VNum (if hw then 1.8 else 1.3)
  /\ nullish_or (opts !! "adaptiveBlockSize") (VNum 15) = VNum (if hw then 31 else 15)
  /\ nullish_or (opts !! "adaptiveC") (VNum 5) = VNum (if hw then 12 else 5).
Proof.
  intros [Hsw Hother]. cbv zeta.
  set (opts := effective_options (batch_options (preprocessingOptions f) (ocrMode f))).
  assert (Hpreset : forall k, k <> "mode"%string -> (forall sw, switch_key sw <> k) ->
            opts !! k = match ocrMode f with
                        | handwritten => getDefaultHandwrittenOptions
                        | printed => getDefaultPrintedOptions
                        end !! k).
  { intros k Hmode Hk. unfold opts. rewrite effective_options_lookup.
    unfold defaults_for. rewrite is_handwritten_batch. unfold batch_options.
    rewrite lookup_insert_ne by done. rewrite (Hother k Hk). by destruct (ocrMode f). }
  split; [|split].
  - unfold is_handwritten, opts. rewrite effective_options_lookup.
    unfold batch_options. rewrite lookup_insert_eq. by destruct (ocrMode f).
  - intros sw. unfold switched_on, opts. rewrite effective_options_lookup.
    unfold batch_options. rewrite lookup_insert_ne by (by destruct sw).
    destruct (Hsw sw) as [b ->]. reflexivity.
  - repeat split;
      (rewrite Hpreset; [destruct (ocrMode f); vm_compute; reflexivity
                        |done|intros sw; by destruct sw]).
Qed.

(** The calls of a run, read off the form. *)
Lemma form_trace_shape (f : Form) :
  form_shape (preprocessingOptions f) ->
  let on sw (l : list Stage) := if switched_on sw f then l else [] in
  form_trace f
  = match ocrMode f with
    | handwritten =>
        [Upscale 2] ++ on SwGrayscale [Grayscale] ++ on SwDeskew [Deskew]
        ++ [BilateralFilter 3 40 40]
        ++ on SwContrast [IncreaseContrast (VNum 1.8)]
        ++ on SwMorphology [Opening 2; Closing 3]
        ++ [UnsharpMask 2 1]
        ++ on SwAdaptiveThreshold [AdaptiveThreshold (VNum 31) (VNum 12)]
    | printed =>
        on SwGrayscale [Grayscale] ++ on SwDeskew [Deskew] ++ on SwDenoise [Denoise]
        ++ on SwContrast [IncreaseContrast (VNum 1.3)]
        ++ on SwSharpen [Sharpen]
        ++ on SwAdaptiveThreshold [AdaptiveThreshold (VNum 15) (VNum 5)]
    end.
Proof.
  intros Hshape. cbv zeta.
  destruct (form_options_lookup f Hshape)
    as (Hhw & Hsw & Hup & Hbil & Hun & Hth & Hcf & Hbs & Hc).
  unfold form_trace. rewrite stage_trace_steps. cbn [seq map concat].
  set (opts := effective_options _) in *.
  pose proof (Hsw SwGrayscale) as H1. pose proof (Hsw SwDenoise) as H2.
  pose proof (Hsw SwContrast) as H3. pose proof (Hsw SwSharpen) as H4.
  pose proof (Hsw SwDeskew) as H5. pose proof (Hsw SwAdaptiveThreshold) as H6.
  pose proof (Hsw SwMorphology) as H7. cbn [switch_key] in *. clear Hsw.
  cbv beta iota delta
    [step_log step_upscale step_grayscale step_deskew step_noise step_contrast
     step_morphology step_edges step_threshold logging].
  rewrite Hhw, Hup, Hbil, Hun, Hth, Hcf, Hbs, Hc, H1, H2, H3, H4, H5, H6, H7.
  clear. destruct (ocrMode f);
    destruct (switched_on SwGrayscale f), (switched_on SwDeskew f),
      (switched_on SwContrast f), (switched_on SwAdaptiveThreshold f);
    cbn [negb]; rewrite ?andb_false_r, ?andb_true_r; cbn [andb orb negb app];
    first [ by destruct (switched_on SwMorphology f)
          | by destruct (switched_on SwDenoise f), (switched_on SwSharpen f) ].
Qed.

(** X11. What the upload form can make the pipeline do.  After any
    sequence of mode changes and switch clicks, a run in handwriting mode
    always upscales, filters noise with the bilateral filter and sharpens
    with the unsharp mask, and a run in printed mode never upscales nor runs
    the morphology; the switches decide only the remaining calls, and the
    global (Otsu) threshold is never called. *)
Theorem form_pipeline (events : list FormEvent) :
  let f := form_after events in
  let on sw (l : list Stage) := if switched_on sw f then l else [] in
  form_trace f
  = match ocrMode f with
    | handwritten =>
        [Upscale 2] ++ on SwGrayscale [Grayscale] ++ on SwDeskew [Deskew]
        ++ [BilateralFilter 3 40 40]
        ++ on SwContrast [IncreaseContrast (VNum 1.8)]
        ++ on SwMorphology [Opening 2; Closing 3]
        ++ [UnsharpMask 2 1]
        ++ on SwAdaptiveThreshold [AdaptiveThreshold (VNum 31) (VNum 12)]
    | printed =>
        on SwGrayscale [Grayscale] ++ on SwDeskew [Deskew] ++ on SwDenoise [Denoise]
        ++ on SwContrast [IncreaseContrast (VNum 1.3)]
        ++ on SwSharpen [Sharpen]
        ++ on SwAdaptiveThreshold [AdaptiveThreshold (VNum 15) (VNum 5)]
    end.
Proof.
  cbv zeta. apply form_trace_shape.
  (* the options object of the form always has the seven switch keys *)
  apply form_after_shape.
Qed.

Lemma switched_on_toggle (sw sw' : Switch) (f : Form) :
  switched_on sw' (form_step f (Toggle sw))
  = if decide (sw' = sw) then negb (switched_on sw f) else switched_on sw' f.
Proof.
  unfold switched_on, form_step, toggleOption. cbn [preprocessingOptions].
  case_decide as E.
  - subst sw'. by rewrite lookup_insert_eq.
  - rewrite lookup_insert_ne; [done|]. intros E'. apply E. by destruct sw, sw'.
Qed.

(** X12. Switches that do nothing.  In handwriting mode the noise
    reduction and the sharpen switches have no effect on the calls of a
    run, and in printed mode the stroke enhancement switch has none: the
    run after a click on them is the run before it. *)
Theorem form_dead_switches (events : list FormEvent) :
  let f := form_after events in
  match ocrMode f with
  | handwritten =>
      form_trace (form_step f (Toggle SwDenoise)) = form_trace f
      /\ form_trace (form_step f (Toggle SwSharpen)) = form_trace f
  | printed => form_trace (form_step f (Toggle SwMorphology)) = form_trace f
  end.
Proof.
  cbv zeta. pose proof (form_after_shape events) as Hshape.
  set (f := form_after events) in *.
  assert (Htoggle : forall sw,
            form_trace (form_step f (Toggle sw))
            = _ ) by (intros sw; apply form_trace_shape, toggleOption_shape, Hshape).
  cbv beta zeta in Htoggle. rewrite (form_trace_shape f Hshape). cbv beta zeta.
  assert (Hsame : forall sw, ocrMode (form_step f (Toggle sw)) = ocrMode f) by done.
  destruct (ocrMode f) eqn:Hmode; [|split]; rewrite Htoggle, Hsame;
    rewrite !switched_on_toggle; reflexivity.
Qed.

(** X13. A switch flips its own option and no other, and a second click
    restores the form. *)
Theorem toggle_twice_restores (events : list FormEvent) (sw : Switch) :
  let f := form_after events in
  switched_on sw (form_step f (Toggle sw)) = negb (switched_on sw f)
  /\ (forall sw', sw' <> sw ->
        switched_on sw' (form_step f (Toggle sw)) = switched_on sw' f)
  /\ form_step (form_step f (Toggle sw)) (Toggle sw) = f.
Proof.
  cbv zeta. pose proof (form_after_shape events) as [Hsw _].
  set (f := form_after events) in *.
  split; [|split].
  - rewrite switched_on_toggle. by case_decide.
  - intros sw' Hne. rewrite switched_on_toggle. by case_decide.
  - destruct f as [mode ui]. unfold form_step, toggleOption. cbn [ocrMode preprocessingOptions] in *.
    f_equal. rewrite lookup_insert_eq, insert_insert_eq.
    destruct (Hsw sw) as [b Hb]. rewrite Hb. cbn [truthy]. rewrite negb_involutive.
    by apply insert_id.
Qed.

(** *** The stages on an image *)

Section Interpretation.

(** The platform's functions [deskew] rests on, and the stages that are
    calls on the canvas or are not modelled here (upscale, bilateral
    filter, median filter, unsharp mask). *)
Variables Math_cos Math_sin : float -> float.
Variable Math_pow : float -> float -> float.
Variable rotateOnCanvas : Image.ImageData -> float -> Image.ImageData.
Variable platform : Stage -> Image.ImageData -> Image.ImageData.

(** A number that is a size: a non-negative integer. *)
Definition as_size (b : float) : option nat :=
  match JS.Math_round b with
  | Some n => if (0 <=? n)%Z && PrimFloat.eqb (JS.of_Z n) b then Some (Z.to_nat n) else None
  | None => None
  end.

(** What each call of [preprocess] does to the image. *)
Definition perform (stage : Stage) (imageData : Image.ImageData) : Image.ImageData :=
  match stage with
  | Grayscale => Image.toGrayscale imageData
  | Deskew =>
      default imageData
        (Image.deskew Math_cos Math_sin Math_pow rotateOnCanvas imageData)
  | Denoise => Image.denoise imageData 1
  | IncreaseContrast (VNum factor) => Image.increaseContrast imageData factor
  | Opening kernelSize => Image.opening imageData (Z.to_nat kernelSize)
  | Closing kernelSize => Image.closing imageData (Z.to_nat kernelSize)
  | Sharpen => Image.sharpen imageData
  | AdaptiveThreshold (VNum blockSize) (VNum c) =>
      match as_size blockSize with
      | Some n => Image.adaptiveThreshold imageData n c
      | None => platform stage imageData
      end
  | Threshold => default imageData (Image.threshold imageData None)
  | _ => platform stage imageData
  end.

Lemma replay_invariant (P : Image.ImageData -> Prop) (log : list Stage)
    (img : Image.ImageData) :
  Forall (fun stage => forall img, P img -> P (perform stage img)) log ->
  P img -> P (replay perform log img).
Proof.
  unfold replay. revert img. induction log as [|stage log IH]; intros img Hlog Himg; [done|].
  apply Forall_cons in Hlog as [Hstage Hlog]. cbn [fold_left]. apply IH; auto.
Qed.

(** X30. The printed pipeline of the upload form keeps the image an
    image.  In printed mode with the deskew switch off (as the mode's
    preset has it), whatever the other switches, [preprocess] turns a
    well-formed image into a well-formed image of the same width and
    height: each of the calls it makes (grayscale, box blur, contrast at
    1.3, sharpen, adaptive threshold with block 15 and constant 5) does. *)
Theorem printed_pipeline_well_formed (events : list FormEvent) (img : Image.ImageData) :
  let f := form_after events in
  ocrMode f = printed -> switched_on SwDeskew f = false ->
  Image.wf_image img ->
  let out := preprocess perform (batch_options (preprocessingOptions f) (ocrMode f)) img in
  Image.wf_image out
  /\ Image.width out = Image.width img /\ Image.height out = Image.height img.
Proof.
  cbv zeta. intros Hmode Hdeskew Hwf.
  pose proof (form_trace_shape (form_after events) (form_after_shape events)) as Htrace.
  cbv zeta in Htrace. rewrite Hmode, Hdeskew in Htrace. unfold form_trace in Htrace.
  unfold preprocess. rewrite run_stages_replay, <- stage_trace_steps, Htrace.
  clear Htrace.
  apply (replay_invariant
           (fun out => Image.wf_image out
                       /\ Image.width out = Image.width img
                       /\ Image.height out = Image.height img)); [|done].
  assert (Hsize : as_size 15 = Some 15) by (vm_compute; reflexivity).
  cbv beta iota.
  repeat first
    [ apply Forall_nil_2 | apply Forall_cons_2 | apply Forall_app_2
    | match goal with |- Forall _ (if ?b then _ else _) => destruct b end ];
    intros out (Hout & Hw & Hh); cbn [perform]; rewrite ?Hsize.
  - split; [by apply Image.toGrayscale_wf|done].
  - split; [by apply Image.denoise_wf|done].
  - split; [by apply Image.increaseContrast_wf|done].
  - split; [by apply Image.sharpen_wf|done].
  - split; [by apply Image.adaptiveThreshold_wf|done].
Qed.

End Interpretation.

Lemma printed_pipeline_well_formed_witness :
  Image.wf_image
    (preprocess
       (perform (fun _ => 1%float) (fun _ => 0%float) (fun x _ => (x * x)%float)
                (fun img _ => img) (fun _ img => img))
       (batch_options (handleModeChange printed) printed) Image.sample_edge).
Proof.
  destruct (printed_pipeline_well_formed
              (fun _ => 1%float) (fun _ => 0%float) (fun x _ => (x * x)%float)
              (fun img _ => img) (fun _ img => img)
              [] Image.sample_edge eq_refl ltac:(vm_compute; reflexivity)
              Image.sample_edge_wf) as [Hwf _].
  exact Hwf.
Defined.

End Pipeline.

(** ** The batch queue ([useBatchQueue]) *)

Module Batch.

Inductive QueueItemStatus : Type := pending | processing | completed | failed.

(** [interface QueueItem]; the file and its preview URL play no part in
    the processing of the queue state and are left out. *)
Record QueueItem : Type := mkItem
  { id : string;
    language : string;
    detectedLanguage : option string;
    status : QueueItemStatus;
    progress : float;
    progressMessage : option string;
    error : option string;
    confidence : option float }.

(** The [Partial<QueueItem>] objects [processItem] passes to [updateItem]:
    [None] is a property the object does not have, [Some None] one it has
    with the value [undefined]. *)
Record Updates : Type := mkUpdates
  { new_status : option QueueItemStatus;
    new_progress : option float;
    new_progressMessage : option (option string);
    new_detectedLanguage : option (option string);
    new_error : option (option string);
    new_confidence : option (option float) }.

Definition no_updates : Updates :=
  {| new_status := None; new_progress := None; new_progressMessage := None;
     new_detectedLanguage := None; new_error := None; new_confidence := None |}.

(** [{ ...item, ...updates }] *)
Definition spread (item : QueueItem) (updates : Updates) : QueueItem :=
  {| id := id item;
     language := language item;
     detectedLanguage := default (detectedLanguage item) (new_detectedLanguage updates);
     status := default (status item) (new_status updates);
     progress := default (progress item) (new_progress updates);
     progressMessage := default (progressMessage item) (new_progressMessage updates);
     error := default (error item) (new_error updates);
     confidence := default (confidence item) (new_confidence updates) |}.

(** The updater of [updateItem]:
    [prev.map(item => item.id === id ? { ...item, ...updates } : item)]. *)
Definition updateItem (target : string) (updates : Updates) (items : list QueueItem)
    : list QueueItem :=
  map (fun item => if String.eqb (id item) target then spread item updates else item) items.

(** What a [catch] clause receives: an [Error] with its message, or some
    other thrown value. *)
Inductive Thrown : Type :=
| ErrorObject (message : string)
| OtherValue.

(** [error instanceof Error ? error.message : fallback] *)
Definition message_or (fallback : string) (e : Thrown) : string :=
  match e with ErrorObject message => message | OtherValue => fallback end.

(** [interface ProcessingProgress] and the part of [OCRResult] the queue uses. *)
Record ProcessingProgress : Type := mkProgress
  { progress_status : string; progress_value : float }.

Record OCRResult : Type := mkResult { text : string; result_confidence : float }.

(** What the collaborators of [processItem] do for one item: the outcome
    of each awaited call, and the callbacks made while it ran.
    [detectLanguage] catches its own errors and always returns a language. *)
Record Outcome : Type := mkOutcome
  { createDocument : Thrown + string;
    uploadFile : Thrown + string;
    detect_messages : list string;
    detected : string;
    recognize_progress : list ProcessingProgress;
    recognize : Thrown + OCRResult;
    updateDocument : Thrown + unit }.

(** [performOCR]: whatever its body throws is rethrown as
    [new Error(`OCR failed: ${...}`)]. *)
Definition performOCR (o : Outcome) : Thrown + OCRResult :=
  match recognize o with
  | inl e => inl (ErrorObject ("OCR failed: " ++ message_or "Unknown error" e))
  | inr result => inr result
  end.

(** [getLanguageName]: [languageNames[code] || code]. *)
Definition languageNames : gmap string string :=
  list_to_map
    [ ("eng", "English"); ("spa", "Spanish"); ("fra", "French"); ("deu", "German");
      ("ita", "Italian"); ("por", "Portuguese"); ("nld", "Dutch"); ("pol", "Polish");
      ("rus", "Russian"); ("jpn", "Japanese"); ("chi_sim", "Chinese (Simplified)");
      ("chi_tra", "Chinese (Traditional)"); ("kor", "Korean"); ("ara", "Arabic");
      ("hin", "Hindi"); ("tur", "Turkish"); ("vie", "Vietnamese"); ("tha", "Thai");
      ("ukr", "Ukrainian"); ("ces", "Czech"); ("swe", "Swedish"); ("dan", "Danish");
      ("nor", "Norwegian"); ("fin", "Finnish"); ("ell", "Greek"); ("heb", "Hebrew") ]%string.

Definition getLanguageName (code : string) : string :=
  default code (languageNames !! code).

(** *** Asynchronous code over the queue state *)

(** A piece of [async] code: from the queue it finds, a value or a thrown
    error, and the queue it leaves. *)
Definition Action (A : Type) : Type :=
  list QueueItem -> (Thrown + A) * list QueueItem.

#[local] Instance Action_ret : MRet Action := fun A a q => (inr a, q).

#[local] Instance Action_bind : MBind Action :=
  fun A B k m q =>
    match m q with
    | (inl e, q') => (inl e, q')
    | (inr a, q') => k a q'
    end.

(** [await] of a call whose outcome is given. *)
Definition await {A : Type} (outcome : Thrown + A) : Action A := fun q => (outcome, q).

(** [setItems(updater)] *)
Definition setItems (updater : list QueueItem -> list QueueItem) : Action unit :=
  fun q => (inr tt, updater q).

(** [try { body } catch (error) { handler }] *)
Definition try_catch {A : Type} (body : Action A) (handler : Thrown -> Action A)
    : Action A :=
  fun q => match body q with
           | (inl e, q') => handler e q'
           | (inr a, q') => (inr a, q')
           end.

(** A callback called once for each element, in order. *)
Fixpoint for_each {A : Type} (l : list A) (body : A -> Action unit) : Action unit :=
  match l with
  | [] => mret tt
  | a :: rest => body a ;; for_each rest body
  end.

(** *** [processItem] *)

Definition update (target : string) (updates : Updates) : Action unit :=
  setItems (updateItem target updates).

(** The [try] block of [processItem]. *)
Definition processItem_body (item : QueueItem) (o : Outcome) : Action unit :=
  update (id item)
    {| new_status := Some processing; new_progress := Some 0%float;
       new_progressMessage := Some (Some "Starting..."%string);
       new_detectedLanguage := None; new_error := None; new_confidence := None |};;
  doc ← await (createDocument o);
  update (id item)
    {| new_status := None; new_progress := Some 5%float;
       new_progressMessage := Some (Some "Uploading file..."%string);
       new_detectedLanguage := None; new_error := None; new_confidence := None |};;
  fileUrl ← try_catch (url ← await (uploadFile o); mret (Some url))
                       (fun _ => mret None);
  languages ←
    (if String.eqb (language item) "auto" then
       update (id item)
         {| new_status := None; new_progress := Some 10%float;
            new_progressMessage := Some (Some "Detecting language..."%string);
            new_detectedLanguage := None; new_error := None; new_confidence := None |};;
       for_each (detect_messages o)
         (fun msg =>
            update (id item)
              {| new_status := None; new_progress := None;
                 new_progressMessage := Some (Some msg);
                 new_detectedLanguage := None; new_error := None;
                 new_confidence := None |});;
       update (id item)
         {| new_status := None; new_progress := Some 15%float;
            new_progressMessage :=
              Some (Some ("Detected: " ++ getLanguageName (detected o))%string);
            new_detectedLanguage := Some (Some (detected o));
            new_error := None; new_confidence := None |};;
       mret (detected o, Some (detected o))
     else mret (language item, None));
  update (id item)
    {| new_status := None; new_progress := Some 20%float;
       new_progressMessage := Some (Some "Preprocessing..."%string);
       new_detectedLanguage := None; new_error := None; new_confidence := None |};;
  for_each (recognize_progress o)
    (fun prog =>
       update (id item)
         {| new_status := None;
            new_progress := Some (20 + progress_value prog * 70)%float;
            new_progressMessage := Some (Some (progress_status prog));
            new_detectedLanguage := None; new_error := None; new_confidence := None |});;
  result ← await (performOCR o);
  await (updateDocument o);;
  update (id item)
    {| new_status := Some completed; new_progress := Some 100%float;
       new_progressMessage := Some None;
       new_detectedLanguage := Some (snd languages);
       new_error := None;
       new_confidence := Some (Some (result_confidence result)) |}.

(** The [catch] block of [processItem]. *)
Definition processItem_catch (item : QueueItem) (error : Thrown) : Action unit :=
  update (id item)
    {| new_status := Some failed; new_progress := Some 0%float;
       new_progressMessage := Some None;
       new_detectedLanguage := None;
       new_error := Some (Some (message_or "Processing failed" error));
       new_confidence := None |}.

Definition processItem (item : QueueItem) (o : Outcome) : Action unit :=
  try_catch (processItem_body item o) (processItem_catch item).

(** The loop of [startProcessing] over the items that were pending when it
    started, run to its end (neither paused nor stopped). *)
Definition startProcessing (outcome_of : string -> Outcome) (items : list QueueItem)
    : list QueueItem :=
  fold_left (fun q item => snd (processItem item (outcome_of (id item)) q))
    (List.filter (fun item => match status item with pending => true | _ => false end) items)
    items.

(** The awaited calls of [processItem] that can end it. *)
Inductive Step : Type := CreateDocument | PerformOCR | UpdateDocument.

(** The first of them to throw, with what it throws. *)
Definition first_failure (o : Outcome) : option (Step * Thrown) :=
  match createDocument o with
  | inl e => Some (CreateDocument, e)
  | inr _ =>
      match performOCR o with
      | inl e => Some (PerformOCR, e)
      | inr _ =>
          match updateDocument o with
          | inl e => Some (UpdateDocument, e)
          | inr _ => None
          end
      end
  end.

(** *** What a run of [processItem] does to the queue *)

(** [q'] has the entries of [q] in the same places, with the same ids, and
    every entry whose id is not [target] is unchanged. *)
Definition untouched (target : string) (q q' : list QueueItem) : Prop :=
  Forall2 (fun it it' => id it' = id it /\ (id it <> target -> it' = it)) q q'.

Lemma untouched_refl (target : string) (q : list QueueItem) : untouched target q q.
Proof. apply Forall2_same_length_lookup_2; [done|]. intros j it it' H1 H2. naive_solver. Qed.

Lemma untouched_updateItem (target : string) (u : Updates) (q q' : list QueueItem) :
  untouched target q q' -> untouched target q (updateItem target u q').
Proof.
  unfold untouched, updateItem. intros H.
  induction H as [|it it' q q' [Hid Hsame] _ IH]; simpl; constructor; [|done].
  destruct (String.eqb_spec (id it') target) as [E|E]; simpl.
  - split; [done|]. intros Hne. congruence.
  - done.
Qed.

Lemma untouched_fold {A : Type} (target : string) (u : A -> Updates) (l : list A)
    (q q' : list QueueItem) :
  untouched target q q' ->
  untouched target q (fold_left (fun q x => updateItem target (u x) q) l q').
Proof.
  revert q'. induction l as [|x l IH]; intros q' H; simpl; [done|].
  by apply IH, untouched_updateItem.
Qed.

Lemma for_each_update {A : Type} (target : string) (u : A -> Updates) (l : list A)
    (q : list QueueItem) :
  for_each l (fun x q => (inr tt, updateItem target (u x) q)) q
  = (inr tt, fold_left (fun q x => updateItem target (u x) q) l q).
Proof. revert q. induction l as [|x l IH]; intros q; [done|]. simpl. apply IH. Qed.

(** After the [catch] block every entry of the item reads as failed. *)
Lemma updateItem_failed (target msg : string) (q : list QueueItem) (it' : QueueItem) :
  it' ∈ updateItem target
          {| new_status := Some failed; new_progress := Some 0%float;
             new_progressMessage := Some None; new_detectedLanguage := None;
             new_error := Some (Some msg); new_confidence := None |} q ->
  id it' = target ->
  status it' = failed /\ progress it' = 0%float
  /\ error it' = Some msg /\ progressMessage it' = None.
Proof.
  unfold updateItem. intros Hin Hid.
  apply list_elem_of_fmap in Hin as (it & -> & _).
  destruct (String.eqb_spec (id it) target) as [E|E]; [done|].
  by destruct E.
Qed.

Ltac run_action :=
  repeat first
    [ progress cbv beta iota delta
        [mbind mret Action_bind Action_ret update setItems await try_catch]
    | rewrite for_each_update ].

Ltac solve_untouched :=
  repeat first
    [ apply untouched_updateItem | apply untouched_fold | apply untouched_refl ].

(** The run of [processItem], by the first awaited call that throws. *)
Lemma processItem_run (item : QueueItem) (o : Outcome) (q : list QueueItem) :
  exists q_mid : list QueueItem,
    untouched (id item) q q_mid
    /\ processItem item o q
       = (inr tt,
          match first_failure o with
          | Some (_, e) =>
              updateItem (id item)
                {| new_status := Some failed; new_progress := Some 0%float;
                   new_progressMessage := Some None; new_detectedLanguage := None;
                   new_error := Some (Some (message_or "Processing failed" e));
                   new_confidence := None |} q_mid
          | None => q_mid
          end).
Proof.
  unfold processItem, processItem_body, processItem_catch, first_failure, performOCR.
  destruct (createDocument o) as [e|doc]; run_action.
  { eexists. split; [|reflexivity]. solve_untouched. }
  destruct (uploadFile o) as [eu|url];
    destruct (String.eqb (language item) "auto");
    destruct (recognize o) as [e|result];
    destruct (updateDocument o) as [e'|[]];
    run_action; (eexists; split; [|reflexivity]); solve_untouched.
Qed.

Lemma untouched_lookup (target : string) (q q' : list QueueItem) :
  untouched target q q' ->
  length q' = length q
  /\ forall (j : nat) (it : QueueItem),
       q !! j = Some it -> id it <> target -> q' !! j = Some it.
Proof.
  intros H. split; [symmetry; by eapply Forall2_length|].
  intros j it Hj Hne.
  destruct (Forall2_lookup_l _ _ _ _ _ H Hj) as (it' & Hj' & _ & Hsame).
  by rewrite Hj', (Hsame Hne).
Qed.

(** With no error in the three calls the item completes, whatever
    [uploadFile] did. *)
Lemma processItem_success (item : QueueItem) (o : Outcome) (q : list QueueItem) :
  first_failure o = None ->
  exists (q_mid : list QueueItem) (u : Updates),
    untouched (id item) q q_mid
    /\ new_status u = Some completed /\ new_progress u = Some 100%float
    /\ new_error u = None
    /\ processItem item o q = (inr tt, updateItem (id item) u q_mid).
Proof.
  unfold processItem, processItem_body, processItem_catch, first_failure, performOCR.
  destruct (createDocument o) as [e|doc]; [discriminate|].
  destruct (recognize o) as [e|result]; [discriminate|].
  destruct (updateDocument o) as [e'|[]]; [discriminate|]. intros _.
  destruct (uploadFile o) as [eu|url];
    destruct (String.eqb (language item) "auto");
    run_action; (do 2 eexists; split; [|by repeat split]); solve_untouched.
Qed.

(** C8, as the code has it. When [createDocument], [performOCR] or
    [updateDocument] throws while an item is processed, [processItem]
    itself does not throw; every queue entry with the item's id ends with
    status [failed], progress 0, no progress message, and as its error the
    message of the first error thrown (prefixed [OCR failed: ] when it
    comes from [performOCR], and [Processing failed] when what was thrown is
    no [Error]); and every other entry of the queue is left exactly as it
    was, in its place. *)
Theorem processItem_error_marks_item_failed (item : QueueItem) (o : Outcome)
    (q : list QueueItem) (step : Step) (e : Thrown) :
  first_failure o = Some (step, e) ->
  exists q' : list QueueItem,
    processItem item o q = (inr tt, q')
    /\ (forall it' : QueueItem, it' ∈ q' -> id it' = id item ->
          status it' = failed /\ progress it' = 0%float
          /\ error it' = Some (message_or "Processing failed" e)
          /\ progressMessage it' = None)
    /\ length q' = length q
    /\ (forall (j : nat) (other : QueueItem),
          q !! j = Some other -> id other <> id item -> q' !! j = Some other)
    /\ (step = PerformOCR ->
        exists cause, recognize o = inl cause
          /\ e = ErrorObject ("OCR failed: " ++ message_or "Unknown error" cause)).
Proof.
  intros Hfail.
  destruct (processItem_run item o q) as (q_mid & Hmid & Hrun).
  rewrite Hfail in Hrun. eexists. split; [exact Hrun|].
  split; [intros it'; apply updateItem_failed|].
  apply (untouched_updateItem _
           {| new_status := Some failed; new_progress := Some 0%float;
              new_progressMessage := Some None; new_detectedLanguage := None;
              new_error := Some (Some (message_or "Processing failed" e));
              new_confidence := None |}) in Hmid.
  apply untouched_lookup in Hmid as [Hlen Hother].
  split; [exact Hlen|]. split; [exact Hother|].
  intros ->. unfold first_failure, performOCR in Hfail.
  destruct (createDocument o); [discriminate|].
  destruct (recognize o) as [cause|]; [|by destruct (updateDocument o)].
  exists cause. split; [done|]. by injection Hfail as <-.
Qed.

Definition queued (name lang : string) : QueueItem :=
  {| id := name; language := lang; detectedLanguage := None; status := pending;
     progress := 0%float; progressMessage := None; error := None; confidence := None |}.

Definition all_succeed : Outcome :=
  {| createDocument := inr "doc-1"%string;
     uploadFile := inr "https://storage/doc-1.png"%string;
     detect_messages := []; detected := "eng"%string;
     recognize_progress := [ {| progress_status := "Recognizing text..."%string;
                                progress_value := 0.5%float |} ];
     recognize := inr {| text := "hello"%string; result_confidence := 91%float |};
     updateDocument := inr tt |}.

(** The recognizer fails on the first file. *)
Definition recognizer_fails : Outcome :=
  {| createDocument := createDocument all_succeed;
     uploadFile := uploadFile all_succeed;
     detect_messages := []; detected := "eng"%string;
     recognize_progress := recognize_progress all_succeed;
     recognize := inl (ErrorObject "Failed to load image"%string);
     updateDocument := inr tt |}.

Lemma processItem_error_marks_item_failed_witness :
  exists q',
    processItem (queued "queue-1" "eng") recognizer_fails
      [queued "queue-1" "eng"; queued "queue-2" "auto"] = (inr tt, q')
    /\ (status <$> q') = [failed; pending]
    /\ (error <$> q') = [Some "OCR failed: Failed to load image"%string; None].
Proof.
  destruct (processItem_error_marks_item_failed
              (queued "queue-1" "eng") recognizer_fails
              [queued "queue-1" "eng"; queued "queue-2" "auto"]
              PerformOCR
              (ErrorObject "OCR failed: Failed to load image"%string)
              eq_refl) as (q' & Hrun & _).
  exists q'. split; [exact Hrun|].
  vm_compute in Hrun. injection Hrun as <-. split; reflexivity.
Defined.

(** The storage upload fails, nothing else does. *)
Definition upload_fails : Outcome :=
  {| createDocument := createDocument all_succeed;
     uploadFile := inl (ErrorObject "Bucket not found"%string);
     detect_messages := []; detected := "eng"%string;
     recognize_progress := recognize_progress all_succeed;
     recognize := recognize all_succeed;
     updateDocument := inr tt |}.

(** The same network error, once when the document record is created and
    once when it is updated with the result. *)
Definition create_fails : Outcome :=
  {| createDocument := inl (ErrorObject "Failed to fetch"%string);
     uploadFile := uploadFile all_succeed;
     detect_messages := []; detected := "eng"%string;
     recognize_progress := recognize_progress all_succeed;
     recognize := recognize all_succeed;
     updateDocument := inr tt |}.

Definition update_fails : Outcome :=
  {| createDocument := createDocument all_succeed;
     uploadFile := uploadFile all_succeed;
     detect_messages := []; detected := "eng"%string;
     recognize_progress := recognize_progress all_succeed;
     recognize := recognize all_succeed;
     updateDocument := inl (ErrorObject "Failed to fetch"%string) |}.

(** C8 as stated fails on the code.  An error raised while the file is
    uploaded is caught on the spot and processing goes on: the item ends
    [completed] with no error recorded.  And the error an item records is
    the bare message of what was thrown: the same message thrown by two
    different calls leaves the same queue, so the record does not tell
    which call failed. *)
Lemma processItem_error_not_always_fatal_nor_located :
  (uploadFile upload_fails = inl (ErrorObject "Bucket not found"%string)
   /\ processItem (queued "queue-1" "eng") upload_fails [queued "queue-1" "eng"]
      = (inr tt,
         [ {| id := "queue-1"; language := "eng"; detectedLanguage := None;
              status := completed; progress := 100%float; progressMessage := None;
              error := None; confidence := Some 91%float |} ]))
  /\ (first_failure create_fails
        = Some (CreateDocument, ErrorObject "Failed to fetch"%string)
      /\ first_failure update_fails
           = Some (UpdateDocument, ErrorObject "Failed to fetch"%string)
      /\ processItem (queued "queue-1" "eng") create_fails [queued "queue-1" "eng"]
         = processItem (queued "queue-1" "eng") update_fails [queued "queue-1" "eng"]
      /\ (error <$> snd (processItem (queued "queue-1" "eng") create_fails
                           [queued "queue-1" "eng"]))
         = [Some "Failed to fetch"%string]).
Proof. repeat split; vm_compute; reflexivity. Qed.

(** *** The queue operations of the hook *)

(** [++queueItemId] on a JS number: exact below 2^53, where adding one no
    longer changes the value. *)
Definition pre_increment (n : N) : N := if (n <? 2 ^ 53)%N then (n + 1)%N else n.

(** The [items] of the hook and the counter [queueItemId] of its module. *)
Record QueueState : Type := mkQueue { items : list QueueItem; queueItemId : N }.

(** [files.map(file => ({ id: `queue-${++queueItemId}`, ... }))], with the
    counter it leaves. *)
Fixpoint newItems {File : Type} (files : list File) (defaultLanguage : string)
    (counter : N) : list QueueItem * N :=
  match files with
  | [] => ([], counter)
  | _ :: rest =>
      let counter' := pre_increment counter in
      let '(rest_items, final) := newItems rest defaultLanguage counter' in
      (queued ("queue-" ++ pretty counter') defaultLanguage :: rest_items, final)
  end.

Definition addFiles {File : Type} (files : list File) (defaultLanguage : string)
    (st : QueueState) : QueueState :=
  let '(new, counter) := newItems files defaultLanguage (queueItemId st) in
  {| items := items st ++ new; queueItemId := counter |}.

(** [item.status === s] *)
Definition has_status (s : QueueItemStatus) (item : QueueItem) : bool :=
  match s, status item with
  | pending, pending | processing, processing
  | completed, completed | failed, failed => true
  | _, _ => false
  end.

(** [{ ...item, language }] *)
Definition with_language (lang : string) (item : QueueItem) : QueueItem :=
  {| id := id item; language := lang; detectedLanguage := detectedLanguage item;
     status := status item; progress := progress item;
     progressMessage := progressMessage item; error := error item;
     confidence := confidence item |}.

(** [{ ...item, status: 'pending', progress: 0, error: undefined }] *)
Definition retried (item : QueueItem) : QueueItem :=
  {| id := id item; language := language item;
     detectedLanguage := detectedLanguage item;
     status := pending; progress := 0%float;
     progressMessage := progressMessage item; error := None;
     confidence := confidence item |}.

Definition updateLanguage (target lang : string) (q : list QueueItem) : list QueueItem :=
  map (fun item => if String.eqb (id item) target then with_language lang item else item) q.

Definition removeItem (target : string) (q : list QueueItem) : list QueueItem :=
  List.filter (fun item => negb (String.eqb (id item) target)) q.

Definition clearCompleted (q : list QueueItem) : list QueueItem :=
  List.filter (fun item => negb (has_status completed item) && negb (has_status failed item)) q.

Definition retryItem (target : string) (q : list QueueItem) : list QueueItem :=
  map (fun item => if String.eqb (id item) target then retried item else item) q.

Definition retryAllFailed (q : list QueueItem) : list QueueItem :=
  map (fun item => if has_status failed item then retried item else item) q.

(** The [stats] of the queue panel. *)
Record Stats : Type := mkStats
  { stats_pending : nat; stats_processing : nat; stats_completed : nat;
    stats_failed : nat; stats_total : nat }.

Definition stats (q : list QueueItem) : Stats :=
  {| stats_pending := length (List.filter (has_status pending) q);
     stats_processing := length (List.filter (has_status processing) q);
     stats_completed := length (List.filter (has_status completed) q);
     stats_failed := length (List.filter (has_status failed) q);
     stats_total := length q |}.

(** What the user, or [startProcessing], can make the hook do. *)
Inductive Call (File : Type) : Type :=
| AddFiles (files : list File) (defaultLanguage : string)
| UpdateLanguage (target lang : string)
| RemoveItem (target : string)
| ClearCompleted
| RetryItem (target : string)
| RetryAllFailed
| ClearAll
| ProcessItem (item : QueueItem) (o : Outcome).

Arguments AddFiles {File}.
Arguments UpdateLanguage {File}.
Arguments RemoveItem {File}.
Arguments ClearCompleted {File}.
Arguments RetryItem {File}.
Arguments RetryAllFailed {File}.
Arguments ClearAll {File}.
Arguments ProcessItem {File}.

Definition on_items (f : list QueueItem -> list QueueItem) (st : QueueState) : QueueState :=
  {| items := f (items st); queueItemId := queueItemId st |}.

Definition call {File : Type} (st : QueueState) (c : Call File) : QueueState :=
  match c with
  | AddFiles files defaultLanguage => addFiles files defaultLanguage st
  | UpdateLanguage target lang => on_items (updateLanguage target lang) st
  | RemoveItem target => on_items (removeItem target) st
  | ClearCompleted => on_items clearCompleted st
  | RetryItem target => on_items (retryItem target) st
  | RetryAllFailed => on_items retryAllFailed st
  | ClearAll => on_items (fun _ => []) st
  | ProcessItem item o => on_items (fun q => snd (processItem item o q)) st
  end.

(** The hook when the page is loaded. *)
Definition empty_queue : QueueState := {| items := []; queueItemId := 0 |}.

Definition calls {File : Type} (st : QueueState) (cs : list (Call File)) : QueueState :=
  fold_left call cs st.

(** The status [processItem] leaves an item with. *)
Definition final_status (o : Outcome) : QueueItemStatus :=
  match first_failure o with Some _ => failed | None => completed end.

(** **** Counting *)

Lemma stats_cons (it : QueueItem) (q : list QueueItem) :
  stats (it :: q)
  = let s := stats q in
    match status it with
    | pending => mkStats (S (stats_pending s)) (stats_processing s) (stats_completed s)
                   (stats_failed s) (S (stats_total s))
    | processing => mkStats (stats_pending s) (S (stats_processing s)) (stats_completed s)
                      (stats_failed s) (S (stats_total s))
    | completed => mkStats (stats_pending s) (stats_processing s) (S (stats_completed s))
                     (stats_failed s) (S (stats_total s))
    | failed => mkStats (stats_pending s) (stats_processing s) (stats_completed s)
                  (S (stats_failed s)) (S (stats_total s))
    end.
Proof. unfold stats, has_status. simpl. by destruct (status it). Qed.

(** X5. The four counters of the queue panel add up to the total: every
    item is counted under exactly one status. *)
Theorem stats_partition (q : list QueueItem) :
  stats_pending (stats q) + stats_processing (stats q)
  + stats_completed (stats q) + stats_failed (stats q) = stats_total (stats q).
Proof.
  induction q as [|it q IH]; [reflexivity|].
  rewrite stats_cons. cbv zeta.
  destruct (status it);
    cbn [stats_pending stats_processing stats_completed stats_failed stats_total]; lia.
Qed.

(** X6. [retryAllFailed] moves every failed item to pending and touches
    no other count: afterwards no item is failed, the pending count has
    grown by the failed count, and the queue has the same ids in the same
    places. *)
Theorem retryAllFailed_stats (q : list QueueItem) :
  stats (retryAllFailed q)
  = {| stats_pending := stats_pending (stats q) + stats_failed (stats q);
       stats_processing := stats_processing (stats q);
       stats_completed := stats_completed (stats q);
       stats_failed := 0;
       stats_total := stats_total (stats q) |}
  /\ (id <$> retryAllFailed q) = (id <$> q).
Proof.
  split.
  - induction q as [|it q IH]; [reflexivity|].
    change (retryAllFailed (it :: q))
      with ((if has_status failed it then retried it else it) :: retryAllFailed q).
    rewrite !stats_cons. cbv zeta. rewrite IH. clear IH.
    unfold has_status. destruct (status it) eqn:E; simpl; rewrite ?E; f_equal; lia.
  - unfold retryAllFailed. induction q as [|it q IH]; [reflexivity|].
    change ((id (if has_status failed it then retried it else it)
             :: (id <$> map (fun item => if has_status failed item then retried item
                                         else item) q))
            = id it :: (id <$> q)).
    rewrite IH. by destruct (has_status failed it).
Qed.

(** X7. [clearCompleted] removes exactly the completed and the failed
    items: the pending and processing counts are unchanged, the other two
    are zero, and a second call changes nothing. *)
Theorem clearCompleted_stats (q : list QueueItem) :
  stats (clearCompleted q)
  = {| stats_pending := stats_pending (stats q);
       stats_processing := stats_processing (stats q);
       stats_completed := 0;
       stats_failed := 0;
       stats_total := stats_pending (stats q) + stats_processing (stats q) |}
  /\ clearCompleted (clearCompleted q) = clearCompleted q.
Proof.
  split.
  - induction q as [|it q IH]; [reflexivity|].
    unfold clearCompleted in *. cbn [List.filter]. rewrite stats_cons. cbv zeta.
    unfold has_status at 1 2. destruct (status it) eqn:E; cbn [negb andb];
      rewrite ?stats_cons, ?E; cbv zeta; rewrite IH; simpl; f_equal; lia.
  - unfold clearCompleted. induction q as [|it q IH]; [reflexivity|].
    cbn [List.filter].
    destruct (negb (has_status completed it) && negb (has_status failed it)) eqn:E;
      [|exact IH].
    cbn [List.filter]. by rewrite E, IH.
Qed.

(** **** Ids *)

Lemma pre_increment_ge (n : N) : (n <= pre_increment n)%N.
Proof. unfold pre_increment. destruct (N.ltb_spec n (2 ^ 53)); lia. Qed.

Lemma newItems_counter {File : Type} (files : list File) (lang : string) (c : N) :
  (c <= (newItems files lang c).2)%N.
Proof.
  revert c. induction files as [|f files IH]; intros c; simpl; [lia|].
  specialize (IH (pre_increment c)). pose proof (pre_increment_ge c).
  destruct (newItems files lang (pre_increment c)) as [rest final]. simpl in *. lia.
Qed.

(** An id handed out when the counter stood at [k]. *)
Definition issued (from upto : N) (it : QueueItem) : Prop :=
  exists k : N, (from < k <= upto)%N /\ id it = ("queue-" ++ pretty k)%string.

Lemma issued_weaken (from from' upto upto' : N) (it : QueueItem) :
  (from' <= from)%N -> (upto <= upto')%N -> issued from upto it -> issued from' upto' it.
Proof. intros H1 H2 (k & Hk & E). exists k. split; [lia|done]. Qed.

Lemma issued_disjoint (a b c : N) (it it' : QueueItem) :
  issued a b it -> issued b c it' -> id it <> id it'.
Proof.
  intros (k & Hk & E) (k' & Hk' & E') Heq. rewrite E, E' in Heq.
  apply (inj (String.app "queue-")), (inj pretty) in Heq. lia.
Qed.

Lemma newItems_ids {File : Type} (files : list File) (lang : string) (c : N) :
  ((newItems files lang c).2 < 2 ^ 53)%N ->
  Forall (issued c (newItems files lang c).2) (newItems files lang c).1
  /\ NoDup (id <$> (newItems files lang c).1)
  /\ (newItems files lang c).2 = (c + N.of_nat (length files))%N.
Proof.
  revert c. induction files as [|f files IH]; intros c; simpl.
  { intros _. split; [constructor|]. split; [constructor|lia]. }
  specialize (IH (pre_increment c)).
  pose proof (newItems_counter files lang (pre_increment c)) as Hge.
  pose proof (pre_increment_ge c) as Hge'.
  destruct (newItems files lang (pre_increment c)) as [rest final]. simpl in *.
  intros Hfinal. destruct (IH Hfinal) as (Hissued & Hnodup & Hcount).
  assert (Hc : pre_increment c = (c + 1)%N).
  { unfold pre_increment. destruct (N.ltb_spec c (2 ^ 53)); [done|lia]. }
  assert (Hhead : issued c (pre_increment c)
                    (queued ("queue-" ++ pretty (pre_increment c)) lang)).
  { exists (pre_increment c). split; [lia|done]. }
  split; [|split].
  - constructor; [eapply issued_weaken; [..|exact Hhead]; lia|].
    eapply Forall_impl; [exact Hissued|]. intros it. apply issued_weaken; lia.
  - apply NoDup_cons. split; [|exact Hnodup].
    intros Hin. apply list_elem_of_fmap in Hin as (it & Hid & Hit).
    rewrite Forall_forall in Hissued.
    by apply (issued_disjoint _ _ _ _ _ Hhead (Hissued it Hit)).
  - lia.
Qed.

Lemma ids_filter (p : QueueItem -> bool) (q : list QueueItem) :
  NoDup (id <$> q) -> NoDup (id <$> List.filter p q).
Proof.
  induction q as [|it q IH]; [done|]. simpl. rewrite NoDup_cons. intros [Hnotin Hq].
  destruct (p it); [|by apply IH]. simpl. apply NoDup_cons. split; [|by apply IH].
  intros Hin. apply Hnotin.
  apply list_elem_of_fmap in Hin as (it' & -> & Hit').
  apply list_elem_of_fmap. exists it'. split; [done|].
  apply list_elem_of_In. apply list_elem_of_In in Hit'. by apply filter_In in Hit' as [? _].
Qed.

Lemma filter_Forall {A : Type} (P : A -> Prop) (p : A -> bool) (l : list A) :
  Forall P l -> Forall P (List.filter p l).
Proof.
  induction 1 as [|x l Hx _ IH]; simpl; [constructor|].
  destruct (p x); [by constructor|done].
Qed.

Lemma untouched_ids (target : string) (q q' : list QueueItem) :
  untouched target q q' -> (id <$> q') = (id <$> q).
Proof.
  induction 1 as [|it it' q q' [E _] _ IH]; [done|]. rewrite !fmap_cons. by rewrite E, IH.
Qed.

Lemma updateItem_ids (target : string) (u : Updates) (q : list QueueItem) :
  (id <$> updateItem target u q) = (id <$> q).
Proof.
  unfold updateItem. induction q as [|it q IH]; [done|].
  cbn [map]. rewrite !fmap_cons, IH. by destruct (String.eqb (id it) target).
Qed.

Lemma processItem_ids (item : QueueItem) (o : Outcome) (q : list QueueItem) :
  (id <$> snd (processItem item o q)) = (id <$> q).
Proof.
  destruct (processItem_run item o q) as (q_mid & Hmid & ->). simpl.
  apply untouched_ids in Hmid.
  destruct (first_failure o) as [[? e]|]; [rewrite updateItem_ids|]; exact Hmid.
Qed.

(** The ids of the queue are distinct, and were all handed out by the
    counter. *)
Definition ids_distinct (st : QueueState) : Prop :=
  NoDup (id <$> items st) /\ Forall (issued 0 (queueItemId st)) (items st).

Lemma map_keeps_ids (f : QueueItem -> QueueItem) (q : list QueueItem) :
  (forall it, id (f it) = id it) -> (id <$> map f q) = (id <$> q).
Proof.
  intros Hf. induction q as [|it q IH]; [done|].
  cbn [map]. by rewrite !fmap_cons, Hf, IH.
Qed.

Lemma same_ids_issued (from upto : N) (q q' : list QueueItem) :
  (id <$> q') = (id <$> q) -> Forall (issued from upto) q -> Forall (issued from upto) q'.
Proof.
  revert q'. induction q as [|it q IH]; intros [|it' q'] E H; try done.
  injection E as E1 E2. apply Forall_cons in H as [Hit Hq].
  constructor; [|by apply IH]. destruct Hit as (k & Hk & Hid). exists k. by rewrite E1.
Qed.

Lemma call_counter {File : Type} (st : QueueState) (c : Call File) :
  (queueItemId st <= queueItemId (call st c))%N.
Proof.
  destruct c; simpl; try lia. unfold addFiles.
  pose proof (newItems_counter files defaultLanguage (queueItemId st)).
  by destruct (newItems files defaultLanguage (queueItemId st)).
Qed.

Lemma call_ids_distinct {File : Type} (st : QueueState) (c : Call File) :
  (queueItemId (call st c) < 2 ^ 53)%N -> ids_distinct st -> ids_distinct (call st c).
Proof.
  intros Hsafe [Hnodup Hissued]. unfold ids_distinct.
  assert (Hsame : forall q', (id <$> q') = (id <$> items st) ->
            NoDup (id <$> q') /\ Forall (issued 0 (queueItemId st)) q').
  { intros q' E. split; [by rewrite E|by eapply same_ids_issued]. }
  destruct c; simpl in *.
  - unfold addFiles in *.
    pose proof (newItems_ids files defaultLanguage (queueItemId st)) as Hnew.
    pose proof (newItems_counter files defaultLanguage (queueItemId st)) as Hge.
    destruct (newItems files defaultLanguage (queueItemId st)) as [new final].
    simpl in *. destruct (Hnew Hsafe) as (Hnew_issued & Hnew_nodup & _).
    rewrite Forall_forall in Hissued, Hnew_issued.
    split.
    + rewrite fmap_app. apply NoDup_app. split; [done|]. split; [|done].
      intros i Hi Hi'.
      apply list_elem_of_fmap in Hi as (it & -> & Hit).
      apply list_elem_of_fmap in Hi' as (it' & E & Hit').
      by apply (issued_disjoint _ _ _ _ _ (Hissued it Hit) (Hnew_issued it' Hit')).
    + apply Forall_app. split; apply Forall_forall; intros it Hit.
      * eapply issued_weaken; [..|by apply Hissued]; lia.
      * eapply issued_weaken; [..|by apply Hnew_issued]; lia.
  - apply Hsame, map_keeps_ids. intros it. by destruct (String.eqb (id it) target).
  - split; [by apply ids_filter|by apply filter_Forall].
  - split; [by apply ids_filter|by apply filter_Forall].
  - apply Hsame, map_keeps_ids. intros it. by destruct (String.eqb (id it) target).
  - apply Hsame, map_keeps_ids. intros it. by destruct (has_status failed it).
  - split; constructor.
  - apply Hsame, processItem_ids.
Qed.

(** X8. Queue ids are never shared: after any sequence of calls of the
    hook's operations on the queue of a freshly loaded page, and any runs
    of [processItem], no two items of the queue have the same id, as long
    as the counter has stayed below 2^53. *)
Theorem queue_ids_distinct {File : Type} (cs : list (Call File)) :
  (queueItemId (calls empty_queue cs) < 2 ^ 53)%N ->
  NoDup (id <$> items (calls empty_queue cs)).
Proof.
  intros Hsafe. enough (ids_distinct (calls empty_queue cs)) as [H _] by exact H.
  revert Hsafe. unfold calls. induction cs as [|c cs IH] using rev_ind; intros Hsafe.
  { split; constructor. }
  rewrite fold_left_app in *. cbn [fold_left] in *.
  apply call_ids_distinct; [exact Hsafe|]. apply IH.
  pose proof (call_counter (fold_left call cs empty_queue) c). lia.
Qed.

Lemma queue_ids_distinct_witness :
  NoDup (id <$> items (calls empty_queue
                         [AddFiles ["a.png"; "b.png"]%string "auto"%string;
                          ProcessItem (queued "queue-1" "auto") recognizer_fails;
                          RetryAllFailed;
                          RemoveItem "queue-2"%string;
                          AddFiles ["c.png"]%string "eng"%string])).
Proof.
  apply (queue_ids_distinct
           [AddFiles ["a.png"; "b.png"]%string "auto"%string;
            ProcessItem (queued "queue-1" "auto") recognizer_fails;
            RetryAllFailed;
            RemoveItem "queue-2"%string;
            AddFiles ["c.png"]%string "eng"%string]).
  vm_compute. reflexivity.
Defined.

(** **** A whole run of the queue *)

Lemma processItem_effect (item : QueueItem) (o : Outcome) (q : list QueueItem) :
  exists (q_mid : list QueueItem) (u : Updates),
    untouched (id item) q q_mid
    /\ new_status u = Some (final_status o)
    /\ snd (processItem item o q) = updateItem (id item) u q_mid.
Proof.
  unfold final_status. destruct (first_failure o) as [[step e]|] eqn:E.
  - destruct (processItem_run item o q) as (q_mid & Hmid & ->). rewrite E.
    exists q_mid. eexists. split; [exact Hmid|]. split; [|reflexivity]. reflexivity.
  - destruct (processItem_success item o q E) as (q_mid & u & Hmid & Hs & _ & _ & ->).
    by exists q_mid, u.
Qed.

(** Position by position, what one [processItem] does to the queue. *)
Lemma processItem_lookup (item : QueueItem) (o : Outcome) (q : list QueueItem) :
  length (snd (processItem item o q)) = length q
  /\ forall (j : nat) (it : QueueItem),
       q !! j = Some it ->
       exists it', snd (processItem item o q) !! j = Some it'
         /\ id it' = id it
         /\ (id it = id item -> status it' = final_status o)
         /\ (id it <> id item -> it' = it).
Proof.
  destruct (processItem_effect item o q) as (q_mid & u & Hmid & Hu & ->).
  split.
  { unfold updateItem. rewrite length_map. symmetry. by eapply Forall2_length. }
  intros j it Hj.
  destruct (Forall2_lookup_l _ _ _ _ _ Hmid Hj) as (it1 & Hj1 & Hid & Hsame).
  unfold updateItem. rewrite list_lookup_fmap, Hj1. simpl. eexists. split; [reflexivity|].
  rewrite Hid. destruct (String.eqb_spec (id it) (id item)) as [E|E].
  - split; [exact Hid|]. split; [|done]. intros _. simpl. by rewrite Hu.
  - split; [exact Hid|]. split; [done|]. intros _. by apply Hsame.
Qed.

(** X9. A run of [startProcessing] to its end settles exactly the items
    that were pending: in a queue with distinct ids, every item that was
    pending ends completed, or failed if one of the three calls that can
    end its processing threw; every other item is left as it was, in its
    place; and no item is pending afterwards. *)
Theorem startProcessing_settles_pending (outcome_of : string -> Outcome)
    (q : list QueueItem) :
  NoDup (id <$> q) ->
  length (startProcessing outcome_of q) = length q
  /\ (forall (j : nat) (it : QueueItem),
        q !! j = Some it ->
        exists it', startProcessing outcome_of q !! j = Some it'
          /\ id it' = id it
          /\ (status it = pending -> status it' = final_status (outcome_of (id it)))
          /\ (status it <> pending -> it' = it))
  /\ stats_pending (stats (startProcessing outcome_of q)) = 0.
Proof.
  intros Hnodup. unfold startProcessing.
  set (is_pending := fun item : QueueItem =>
                       match status item with pending => true | _ => false end).
  assert (Hinv : forall (todo : list QueueItem) (done : list string) (q1 : list QueueItem),
            (length q1 = length q
             /\ forall j it, q !! j = Some it ->
                  exists it', q1 !! j = Some it' /\ id it' = id it
                    /\ (id it ∈ done -> status it' = final_status (outcome_of (id it)))
                    /\ (id it ∉ done -> it' = it)) ->
            let q2 := fold_left (fun q item => snd (processItem item (outcome_of (id item)) q))
                        todo q1 in
            length q2 = length q
            /\ forall j it, q !! j = Some it ->
                 exists it', q2 !! j = Some it' /\ id it' = id it
                   /\ (id it ∈ done ++ (id <$> todo) ->
                       status it' = final_status (outcome_of (id it)))
                   /\ (id it ∉ done ++ (id <$> todo) -> it' = it)).
  { induction todo as [|x todo IH]; intros done q1 Hq1; cbn [fold_left].
    { simpl. by rewrite app_nil_r. }
    replace (done ++ (id <$> x :: todo)) with ((done ++ [id x]) ++ (id <$> todo))
      by (by rewrite <- app_assoc).
    apply IH. clear IH. destruct Hq1 as [Hlen Hq1].
    destruct (processItem_lookup x (outcome_of (id x)) q1) as [Hlen' Hstep].
    split; [congruence|]. intros j it Hj.
    destruct (Hq1 j it Hj) as (it1 & Hj1 & Hid1 & Hdone & Hrest).
    destruct (Hstep j it1 Hj1) as (it2 & Hj2 & Hid2 & Hhit & Hmiss).
    exists it2. split; [done|]. split; [congruence|].
    rewrite Hid1 in Hhit, Hmiss.
    destruct (decide (id it = id x)) as [E|E].
    - split; [intros _; rewrite E; by apply Hhit|].
      intros Hnot. exfalso. apply Hnot. apply elem_of_app. right. rewrite E.
      by apply list_elem_of_singleton.
    - rewrite (Hmiss E). split.
      + intros Hin. apply Hdone. apply elem_of_app in Hin as [Hin|Hin]; [done|].
        by apply list_elem_of_singleton in Hin.
      + intros Hnot. apply Hrest. intros Hin. apply Hnot. apply elem_of_app. by left. }
  specialize (Hinv (List.filter is_pending q) [] q).
  destruct Hinv as [Hlen Hq'].
  { split; [done|]. intros j it Hj. exists it. repeat split; [done|].
    intros Hin. by apply elem_of_nil in Hin. }
  simpl in Hq'. set (q' := fold_left _ (List.filter is_pending q) q) in *.
  assert (Hmem : forall j it, q !! j = Some it ->
            id it ∈ (id <$> List.filter is_pending q) <-> status it = pending).
  { intros j it Hj. split.
    - intros Hin. apply list_elem_of_fmap in Hin as (it2 & Hid & Hit2).
      apply list_elem_of_In, filter_In in Hit2 as [Hit2 Hp].
      apply list_elem_of_In, list_elem_of_lookup in Hit2 as [j2 Hj2].
      assert (j = j2) as <-.
      { eapply NoDup_lookup; [exact Hnodup|..]; rewrite list_lookup_fmap.
        - by rewrite Hj.
        - rewrite Hj2. simpl. by rewrite Hid. }
      assert (it2 = it) as -> by congruence.
      unfold is_pending in Hp. by destruct (status it).
    - intros Hp. apply list_elem_of_fmap. exists it. split; [done|].
      apply list_elem_of_In, filter_In. split.
      + apply list_elem_of_In. by eapply list_elem_of_lookup_2.
      + unfold is_pending. by rewrite Hp. }
  split; [exact Hlen|]. split.
  - intros j it Hj. destruct (Hq' j it Hj) as (it' & Hj' & Hid & Hhit & Hmiss).
    exists it'. split; [done|]. split; [done|]. split.
    + intros Hp. apply Hhit. by apply (Hmem j it Hj).
    + intros Hp. apply Hmiss. intros Hin. by apply Hp, (Hmem j it Hj).
  - unfold stats. cbn [stats_pending].
    assert (Hnone : Forall (fun it' => has_status pending it' = false) q').
    { apply Forall_lookup. intros j it' Hj'.
      destruct (lookup_lt_is_Some_2 q j) as [it Hj].
      { rewrite <- Hlen. by eapply lookup_lt_Some. }
      destruct (Hq' j it Hj) as (it'' & Hj'' & _ & Hhit & Hmiss).
      assert (it'' = it') as -> by congruence.
      unfold has_status. destruct (status it) eqn:Hs.
      - rewrite Hhit by (by apply (Hmem j it Hj)).
        unfold final_status. by destruct (first_failure _).
      - rewrite Hmiss, Hs; [done|]. intros Hin. apply (Hmem j it Hj) in Hin. congruence.
      - rewrite Hmiss, Hs; [done|]. intros Hin. apply (Hmem j it Hj) in Hin. congruence.
      - rewrite Hmiss, Hs; [done|]. intros Hin. apply (Hmem j it Hj) in Hin. congruence. }
    clear Hlen Hq'. clearbody q'.
    induction Hnone as [|it' l Hit' _ IH]; [done|]. cbn [List.filter]. by rewrite Hit'.
Qed.

Definition sample_queue : list QueueItem :=
  [ queued "queue-1" "eng"; queued "queue-2" "eng";
    spread (queued "queue-3" "eng")
      {| new_status := Some completed; new_progress := Some 100%float;
         new_progressMessage := None; new_detectedLanguage := None;
         new_error := None; new_confidence := Some (Some 88%float) |} ].

Lemma sample_queue_ids : NoDup (id <$> sample_queue).
Proof.
  vm_compute.
  repeat (apply NoDup_cons_2;
          [by (intros H; repeat (apply elem_of_cons in H as [H|H]; [discriminate H|]);
               by apply elem_of_nil in H)|]).
  apply NoDup_nil_2.
Qed.

Lemma startProcessing_settles_pending_witness :
  let outcome_of name :=
    if String.eqb name "queue-2" then recognizer_fails else all_succeed in
  length (startProcessing outcome_of sample_queue) = 3
  /\ stats_pending (stats (startProcessing outcome_of sample_queue)) = 0.
Proof.
  intros outcome_of.
  destruct (startProcessing_settles_pending outcome_of sample_queue sample_queue_ids)
    as (Hlen & _ & Hnone).
  split; [exact Hlen|exact Hnone].
Defined.

(** X10. With distinct ids [removeItem] takes out exactly the item asked
    for: called with the id of the item at position [j], it returns the
    queue without that position, every other item kept in order. *)
Theorem removeItem_removes_one (target : string) (q : list QueueItem) (j : nat)
    (it : QueueItem) :
  NoDup (id <$> q) -> q !! j = Some it -> id it = target ->
  removeItem target q = take j q ++ drop (S j) q.
Proof.
  intros Hnodup Hj Hid.
  assert (Hother : forall l, Forall (fun it' => id it' <> target) l -> removeItem target l = l).
  { induction 1 as [|x l Hx _ IH]; [done|]. unfold removeItem in *. simpl.
    destruct (String.eqb_spec (id x) target); [done|]. simpl. by rewrite IH. }
  rewrite <- (take_drop_middle q j it Hj) at 1.
  rewrite <- (take_drop_middle q j it Hj) in Hnodup.
  rewrite fmap_app, fmap_cons in Hnodup.
  apply NoDup_app in Hnodup as (_ & Hleft & Hright).
  apply NoDup_cons in Hright as [Hright _].
  unfold removeItem. rewrite List.filter_app. simpl.
  rewrite (proj2 (String.eqb_eq _ _) Hid). simpl.
  fold (removeItem target (take j q)). fold (removeItem target (drop (S j) q)).
  rewrite !Hother; [done|..]; apply Forall_forall; intros it' Hit' E.
  - apply Hright. apply list_elem_of_fmap. exists it'. split; [congruence|done].
  - apply (Hleft (id it')); [by apply list_elem_of_fmap_2|].
    rewrite E, <- Hid. by apply list_elem_of_here.
Qed.

Lemma removeItem_removes_one_witness :
  removeItem "queue-2" sample_queue = take 1 sample_queue ++ drop 2 sample_queue.
Proof.
  exact (removeItem_removes_one "queue-2" sample_queue 1 (queued "queue-2" "eng")
           sample_queue_ids eq_refl eq_refl).
Defined.

(** *** [batchOCR] *)

(** [batchOCR]: the files one after the other, each result pushed onto
    [results]; with the value returned or thrown, the number of calls of
    [performOCR] made. *)
Definition batchOCR (files : list Outcome) : (Thrown + list OCRResult) * nat :=
  fold_left
    (fun '(results, calls) o =>
       match results with
       | inl e => (inl e, calls)
       | inr results =>
           match performOCR o with
           | inl e => (inl e, S calls)
           | inr result => (inr (results ++ [result]), S calls)
           end
       end)
    files (inr [], 0).

(** What the recognizer threw on a file, if it did. *)
Definition recognizer_error (o : Outcome) : option Thrown :=
  match recognize o with inl e => Some e | inr _ => None end.

Lemma batchOCR_thrown (files : list Outcome) (e : Thrown) (calls : nat) :
  fold_left
    (fun '(results, calls) o =>
       match results with
       | inl e => (inl e, calls)
       | inr results =>
           match performOCR o with
           | inl e => (inl e, S calls)
           | inr result => (inr (results ++ [result]), S calls)
           end
       end)
    files (inl e, calls) = (inl e, calls).
Proof. induction files as [|o files IH]; [done|]. exact IH. Qed.

(** X25. [batchOCR] is all or nothing.  When [performOCR] succeeds on
    every file the results come back one per file, in the order of the
    files; when it fails on some file, the call throws the error of the
    first such file, the results of the files before it are lost, and no
    file after it is processed. *)
Theorem batchOCR_all_or_nothing (files : list Outcome) :
  match list_find (fun o => is_Some (recognizer_error o)) files with
  | None =>
      exists results,
        batchOCR files = (inr results, length files)
        /\ Forall2 (fun o result => performOCR o = inr result) files results
  | Some (i, o) =>
      exists cause,
        recognize o = inl cause
        /\ batchOCR files
           = (inl (ErrorObject ("OCR failed: " ++ message_or "Unknown error" cause)), S i)
  end.
Proof.
  unfold batchOCR.
  assert (Hgen : forall done calls,
    match list_find (fun o => is_Some (recognizer_error o)) files with
    | None =>
        exists results,
          fold_left
            (fun '(results, calls) o =>
               match results with
               | inl e => (inl e, calls)
               | inr results =>
                   match performOCR o with
                   | inl e => (inl e, S calls)
                   | inr result => (inr (results ++ [result]), S calls)
                   end
               end) files (inr done, calls)
          = (inr (done ++ results), calls + length files)
          /\ Forall2 (fun o result => performOCR o = inr result) files results
    | Some (i, o) =>
        exists cause,
          recognize o = inl cause
          /\ fold_left
               (fun '(results, calls) o =>
                  match results with
                  | inl e => (inl e, calls)
                  | inr results =>
                      match performOCR o with
                      | inl e => (inl e, S calls)
                      | inr result => (inr (results ++ [result]), S calls)
                      end
                  end) files (inr done, calls)
             = (inl (ErrorObject ("OCR failed: " ++ message_or "Unknown error" cause)),
                calls + S i)
    end).
  { induction files as [|o files IH]; intros done calls.
    { exists []. cbn [fold_left length]. rewrite app_nil_r, Nat.add_0_r. by split. }
    cbn [list_find fold_left].
    destruct (decide (is_Some (recognizer_error o))) as [Hfail|Hok].
    - unfold recognizer_error in Hfail.
      destruct (recognize o) as [cause|result] eqn:E; [|by destruct Hfail as [? ?]].
      exists cause. split; [done|].
      assert (performOCR o
              = inl (ErrorObject ("OCR failed: " ++ message_or "Unknown error" cause)))
        as -> by (unfold performOCR; by rewrite E).
      rewrite batchOCR_thrown. f_equal. lia.
    - unfold recognizer_error in Hok.
      destruct (recognize o) as [cause|result] eqn:E; [by destruct Hok; eexists|].
      assert (performOCR o = inr result) as -> by (unfold performOCR; by rewrite E).
      specialize (IH (done ++ [result]) (S calls)).
      destruct (list_find _ files) as [[i o']|];
        cbn [fmap option_fmap option_map prod_map fst snd].
      + destruct IH as (cause & Hcause & ->). exists cause. split; [done|].
        f_equal. lia.
      + destruct IH as (results & -> & Hall). exists (result :: results).
        split; [rewrite <- app_assoc; cbn [length]; f_equal; lia|].
        constructor; [|done]. unfold performOCR. by rewrite E. }
  specialize (Hgen [] 0).
  destruct (list_find _ files) as [[i o]|]; exact Hgen.
Qed.

(** *** The run of [processItem] that succeeds *)

Lemma updateItem_spread (target : string) (u : Updates) (q : list QueueItem)
    (it' : QueueItem) :
  it' ∈ updateItem target u q -> id it' = target ->
  exists it, it ∈ q /\ it' = spread it u.
Proof.
  unfold updateItem. intros Hin Hid.
  apply list_elem_of_fmap in Hin as (it & -> & Hit).
  destruct (String.eqb_spec (id it) target) as [E|E]; [by exists it|].
  by destruct E.
Qed.

Lemma processItem_completes (item : QueueItem) (o : Outcome) (q : list QueueItem) :
  first_failure o = None ->
  exists (q_mid : list QueueItem) (result : OCRResult),
    untouched (id item) q q_mid
    /\ recognize o = inr result
    /\ processItem item o q
       = (inr tt,
          updateItem (id item)
            {| new_status := Some completed; new_progress := Some 100%float;
               new_progressMessage := Some None;
               new_detectedLanguage :=
                 Some (if String.eqb (language item) "auto" then Some (detected o)
                       else None);
               new_error := None;
               new_confidence := Some (Some (result_confidence result)) |} q_mid).
Proof.
  unfold processItem, processItem_body, processItem_catch, first_failure, performOCR.
  destruct (createDocument o) as [e|doc]; [discriminate|].
  destruct (recognize o) as [e|result]; [discriminate|].
  destruct (updateDocument o) as [e'|[]]; [discriminate|]. intros _.
  destruct (uploadFile o) as [eu|url];
    destruct (String.eqb (language item) "auto");
    run_action; (do 2 eexists; split; [|split; reflexivity]); solve_untouched.
Qed.

(** X29. The run of [processItem] that succeeds.  When neither
    [createDocument], [performOCR] nor [updateDocument] throws (whatever
    the upload did), every queue entry with the item's id ends with status
    [completed], progress 100, no progress message and the confidence of
    the OCR result; its [detectedLanguage] is the detected language when
    the item was queued with language [auto] and is cleared otherwise; and
    every other entry of the queue is left exactly as it was, in its
    place. *)
Theorem processItem_success_marks_item_completed (item : QueueItem) (o : Outcome)
    (q : list QueueItem) :
  first_failure o = None ->
  exists (q' : list QueueItem) (result : OCRResult),
    processItem item o q = (inr tt, q')
    /\ performOCR o = inr result
    /\ (forall it', it' ∈ q' -> id it' = id item ->
          status it' = completed /\ progress it' = 100%float
          /\ progressMessage it' = None
          /\ confidence it' = Some (result_confidence result)
          /\ detectedLanguage it'
             = (if String.eqb (language item) "auto" then Some (detected o) else None))
    /\ length q' = length q
    /\ (forall (j : nat) (other : QueueItem),
          q !! j = Some other -> id other <> id item -> q' !! j = Some other).
Proof.
  intros Hok.
  destruct (processItem_completes item o q Hok) as (q_mid & result & Hmid & Hres & Hrun).
  eexists. exists result. split; [exact Hrun|].
  split; [unfold performOCR; by rewrite Hres|]. split.
  - intros it' Hin Hid.
    destruct (updateItem_spread _ _ _ _ Hin Hid) as (it1 & Hit1 & ->).
    by repeat split.
  - pose proof (untouched_updateItem _
                  {| new_status := Some completed; new_progress := Some 100%float;
                     new_progressMessage := Some None;
                     new_detectedLanguage :=
                       Some (if String.eqb (language item) "auto" then Some (detected o)
                             else None);
                     new_error := None;
                     new_confidence := Some (Some (result_confidence result)) |}
                  _ _ Hmid) as Hq'.
    apply untouched_lookup in Hq' as [Hlen Hother]. by split.
Qed.

Lemma processItem_success_marks_item_completed_witness :
  exists q',
    processItem (queued "queue-2" "auto") upload_fails
      [queued "queue-1" "eng"; queued "queue-2" "auto"] = (inr tt, q')
    /\ (status <$> q') = [pending; completed]
    /\ (detectedLanguage <$> q') = [None; Some "eng"%string].
Proof.
  destruct (processItem_success_marks_item_completed
              (queued "queue-2" "auto") upload_fails
              [queued "queue-1" "eng"; queued "queue-2" "auto"] eq_refl)
    as (q' & result & Hrun & _).
  exists q'. split; [exact Hrun|].
  vm_compute in Hrun. injection Hrun as <-. split; reflexivity.
Defined.

End Batch.

(** ** Language detection ([lib/languageDetection], [OCR_LANGUAGES]) *)

Module Language.

Set Warnings "-inexact-float".

(** The keys of [charCounts], in the order the object literal lists them. *)
Inductive Script : Type :=
| latin | cyrillic | arabic | hebrew | devanagari
| chinese | korean | japanese | greek | thai.

#[local] Instance Script_eq_dec : EqDecision Script.
Proof. solve_decision. Defined.

Definition scripts : list Script :=
  [latin; cyrillic; arabic; hebrew; devanagari; chinese; korean; japanese; greek; thai].

(** A string, as its UTF-16 code units. *)
Definition is_high_surrogate (u : N) : bool := (0xD800 <=? u)%N && (u <=? 0xDBFF)%N.
Definition is_low_surrogate (u : N) : bool := (0xDC00 <=? u)%N && (u <=? 0xDFFF)%N.

(** [for (const char of text)] with [char.charCodeAt(0)]: the iteration
    goes by code point, a surrogate pair being one element, of which
    [charCodeAt(0)] is the high surrogate. *)
Fixpoint char_codes (text : list N) : list N :=
  match text with
  | [] => []
  | u :: rest =>
      match rest with
      | lo :: rest' =>
          if is_high_surrogate u && is_low_surrogate lo
          then u :: char_codes rest'
          else u :: char_codes rest
      | [] => [u]
      end
  end.

(** The chain of range tests of the loop body. *)
Definition classify (code : N) : option Script :=
  if ((0x0041 <=? code) && (code <=? 0x007A) || (0x00C0 <=? code) && (code <=? 0x024F))%N
  then Some latin
  else if ((0x0400 <=? code) && (code <=? 0x04FF))%N then Some cyrillic
  else if ((0x0600 <=? code) && (code <=? 0x06FF))%N then Some arabic
  else if ((0x0590 <=? code) && (code <=? 0x05FF))%N then Some hebrew
  else if ((0x0900 <=? code) && (code <=? 0x097F))%N then Some devanagari
  else if ((0x4E00 <=? code) && (code <=? 0x9FFF))%N then Some chinese
  else if ((0xAC00 <=? code) && (code <=? 0xD7AF) || (0x1100 <=? code) && (code <=? 0x11FF))%N
  then Some korean
  else if ((0x3040 <=? code) && (code <=? 0x309F) || (0x30A0 <=? code) && (code <=? 0x30FF))%N
  then Some japanese
  else if ((0x0370 <=? code) && (code <=? 0x03FF))%N then Some greek
  else if ((0x0E00 <=? code) && (code <=? 0x0E7F))%N then Some thai
  else None.

(** [charCounts], an object: its entries in insertion order. *)
Definition charCounts_start : list (Script * nat) := map (fun s => (s, 0)) scripts.

(** [charCounts.script++] *)
Definition increment (script : Script) (charCounts : list (Script * nat))
    : list (Script * nat) :=
  map (fun '(s, n) => if decide (s = script) then (s, S n) else (s, n)) charCounts.

(** The loop over the characters, on [(charCounts, totalLetters)]. *)
Definition count_letters (text : list N) : list (Script * nat) * nat :=
  fold_left
    (fun '(charCounts, totalLetters) code =>
       match classify code with
       | Some script => (increment script charCounts, S totalLetters)
       | None => (charCounts, totalLetters)
       end)
    (char_codes text) (charCounts_start, 0).

(** [entries.sort((a, b) => b[1] - a[1])]: the sort is stable, so the
    result is the one a stable insertion gives: an entry goes before the
    entries after it that do not have a larger count. *)
Fixpoint insert_entry (x : Script * nat) (sorted : list (Script * nat))
    : list (Script * nat) :=
  match sorted with
  | [] => [x]
  | y :: rest => if snd x <? snd y then y :: insert_entry x rest else x :: sorted
  end.

Definition sort_entries (entries : list (Script * nat)) : list (Script * nat) :=
  foldr insert_entry [] entries.

Definition scriptToLang (script : Script) : string :=
  match script with
  | latin => "eng" | cyrillic => "rus" | arabic => "ara" | hebrew => "heb"
  | devanagari => "hin" | chinese => "chi_sim" | korean => "kor"
  | japanese => "jpn" | greek => "ell" | thai => "tha"
  end.

(** [detectByCharacterRanges(text)]; [None] is [null]. *)
Definition detectByCharacterRanges (text : list N) : option string :=
  if length text <? 10 then None
  else
    let '(charCounts, totalLetters) := count_letters text in
    if totalLetters <? 5 then None
    else
      match sort_entries charCounts with
      | (topScript, topCount) :: _ =>
          if PrimFloat.ltb (JS.of_Z (Z.of_nat topCount) / JS.of_Z (Z.of_nat totalLetters)) 0.3
          then None
          else Some (scriptToLang topScript)
      | [] => None
      end.








(** *** The counts *)

Ltac by_computation := apply (bool_decide_unpack _); vm_compute; exact I.

(** The characters of a text classified as [s], and as any script. *)
Definition count (s : Script) (text : list N) : nat :=
  length (List.filter (fun code => bool_decide (classify code = Some s)) (char_codes text)).

Definition letters (text : list N) : nat :=
  length (List.filter (fun code => bool_decide (is_Some (classify code))) (char_codes text)).

(** The count an entries list holds for a script. *)
Definition entry (s : Script) (entries : list (Script * nat)) : nat :=
  default 0 (snd <$> List.find (fun e => bool_decide (fst e = s)) entries).

Lemma increment_fst (script : Script) (entries : list (Script * nat)) :
  (fst <$> increment script entries) = (fst <$> entries).
Proof.
  unfold increment. induction entries as [|[s n] entries IH]; [done|].
  cbn [map]. rewrite !fmap_cons, IH. by case_decide.
Qed.

Lemma entry_increment (script s : Script) (entries : list (Script * nat)) :
  s ∈ (fst <$> entries) ->
  entry s (increment script entries)
  = if decide (s = script) then S (entry s entries) else entry s entries.
Proof.
  unfold entry, increment. induction entries as [|[s' n] entries IH]; intros Hin.
  { by apply elem_of_nil in Hin. }
  cbn [map List.find].
  destruct (decide (s' = script)) as [Es|Es]; cbn [fst];
    destruct (decide (s' = s)) as [E|E].
  - rewrite !bool_decide_eq_true_2 by done. subst. by rewrite decide_True.
  - rewrite !bool_decide_eq_false_2 by done. apply IH.
    rewrite fmap_cons in Hin. apply elem_of_cons in Hin as [Hin|Hin]; [|done].
    by destruct E.
  - rewrite !bool_decide_eq_true_2 by done. subst. by rewrite decide_False.
  - rewrite !bool_decide_eq_false_2 by done. apply IH.
    rewrite fmap_cons in Hin. apply elem_of_cons in Hin as [Hin|Hin]; [|done].
    by destruct E.
Qed.

(** The loop counts what [count] and [letters] say. *)
Lemma count_letters_spec (text : list N) :
  (fst <$> fst (count_letters text)) = scripts
  /\ (forall s, entry s (fst (count_letters text)) = count s text)
  /\ snd (count_letters text) = letters text.
Proof.
  unfold count_letters, count, letters.
  assert (Hgen : forall codes entries total,
            (fst <$> entries) = scripts ->
            let st := fold_left
                        (fun '(charCounts, totalLetters) code =>
                           match classify code with
                           | Some script => (increment script charCounts, S totalLetters)
                           | None => (charCounts, totalLetters)
                           end) codes (entries, total) in
            (fst <$> fst st) = scripts
            /\ (forall s, entry s (fst st)
                          = entry s entries
                            + length (List.filter
                                        (fun code => bool_decide (classify code = Some s))
                                        codes))
            /\ snd st
               = total + length (List.filter
                                   (fun code => bool_decide (is_Some (classify code)))
                                   codes)).
  { induction codes as [|code codes IH]; intros entries total Hkeys; cbn zeta.
    { cbn [fold_left List.filter length fst snd]. split; [done|]. split; [intros s|]; lia. }
    cbn [fold_left List.filter].
    destruct (classify code) as [script|] eqn:E.
    - destruct (IH (increment script entries) (S total)) as (Hk & Hc & Ht).
      { by rewrite increment_fst. }
      split; [exact Hk|]. split.
      + intros s. rewrite Hc, entry_increment.
        2:{ rewrite Hkeys. destruct s; by_computation. }
        destruct (decide (s = script)) as [->|Hne].
        * rewrite bool_decide_eq_true_2 by done. cbn [length]. lia.
        * rewrite bool_decide_eq_false_2 by congruence. lia.
      + rewrite Ht. rewrite bool_decide_eq_true_2 by (by eexists). cbn [length]. lia.
    - destruct (IH entries total Hkeys) as (Hk & Hc & Ht).
      split; [exact Hk|]. split.
      + intros s. rewrite Hc. by rewrite bool_decide_eq_false_2.
      + rewrite Ht. rewrite bool_decide_eq_false_2; [done|]. by intros [? ?]. }
  destruct (Hgen (char_codes text) charCounts_start 0 eq_refl) as (Hk & Hc & Ht).
  split; [exact Hk|]. split; [|exact Ht].
  intros s. rewrite Hc. by destruct s.
Qed.

(** *** The stable sort *)

(** [x] is the first entry of [entries] with the largest count. *)
Definition first_maximum (x : Script * nat) (entries : list (Script * nat)) : Prop :=
  exists before after,
    entries = before ++ x :: after
    /\ Forall (fun e => snd e < snd x) before
    /\ Forall (fun e => snd e <= snd x) after.

Lemma insert_entry_head (x : Script * nat) (sorted : list (Script * nat)) (top : Script * nat) :
  head (insert_entry x sorted)
  = Some (match head sorted with
          | Some y => if snd x <? snd y then y else x
          | None => x
          end).
Proof. destruct sorted as [|y rest]; [done|]. simpl. by destruct (snd x <? snd y). Qed.

Lemma sort_entries_head (entries : list (Script * nat)) (top : Script * nat) :
  head (sort_entries entries) = Some top -> first_maximum top entries.
Proof.
  revert top. induction entries as [|x entries IH]; intros top; [done|].
  cbn [sort_entries foldr]. rewrite (insert_entry_head x _ x).
  fold (sort_entries entries).
  destruct (head (sort_entries entries)) as [y|] eqn:Ehead.
  - destruct (IH y eq_refl) as (before & after & -> & Hb & Ha).
    destruct (Nat.ltb_spec (snd x) (snd y)) as [Hlt|Hge]; intros [= <-].
    + exists (x :: before), after. split; [done|]. split; [by constructor|done].
    + exists [], (before ++ y :: after). split; [done|]. split; [constructor|].
      apply Forall_app. split.
      * eapply Forall_impl; [exact Hb|]. intros e He. simpl in He. lia.
      * constructor; [done|]. eapply Forall_impl; [exact Ha|]. intros e He. simpl in He. lia.
  - intros [= <-]. destruct entries as [|e entries].
    + exists [], []. by repeat split.
    + exfalso. cbn [sort_entries foldr] in Ehead.
      rewrite (insert_entry_head e _ e) in Ehead. discriminate.
Qed.

Lemma entry_lookup (entries : list (Script * nat)) (i : nat) (s : Script) (n : nat) :
  NoDup (fst <$> entries) -> entries !! i = Some (s, n) -> entry s entries = n.
Proof.
  unfold entry. revert i. induction entries as [|[s' n'] entries IH]; intros i Hnd Hi.
  { done. }
  rewrite fmap_cons in Hnd. apply NoDup_cons in Hnd as [Hnotin Hnd].
  destruct i as [|i]; cbn [List.find fst].
  - injection Hi as -> ->. by rewrite bool_decide_eq_true_2.
  - simpl in Hi. rewrite bool_decide_eq_false_2; [by eapply IH|].
    intros ->. apply Hnotin. apply list_elem_of_fmap. exists (s, n).
    split; [done|]. by eapply list_elem_of_lookup_2.
Qed.

Lemma scripts_NoDup : NoDup scripts.
Proof.
  by_computation.
Qed.

(** The position of a script among the keys. *)
Definition position (s : Script) : nat :=
  match s with
  | latin => 0 | cyrillic => 1 | arabic => 2 | hebrew => 3 | devanagari => 4
  | chinese => 5 | korean => 6 | japanese => 7 | greek => 8 | thai => 9
  end.

Lemma scripts_position (s : Script) : scripts !! position s = Some s.
Proof. by destruct s. Qed.

(** X23. What [detectByCharacterRanges] answers.  It returns a language
    only for a text of at least 10 code units with at least 5 characters
    in the ranges it counts; the language is then the one of the script
    with the most characters, the earliest in the order latin, cyrillic,
    arabic, hebrew, devanagari, chinese, korean, japanese, greek, thai
    when several have the most; and that script has at least a tenth of
    the counted characters. *)
Theorem detectByCharacterRanges_dominant (text : list N) (lang : string) :
  detectByCharacterRanges text = Some lang ->
  10 <= length text /\ 5 <= letters text
  /\ exists script : Script,
       lang = scriptToLang script
       /\ (forall s, count s text <= count script text)
       /\ (forall s, position s < position script -> count s text < count script text)
       /\ letters text <= 10 * count script text.
Proof.
  unfold detectByCharacterRanges.
  destruct (Nat.ltb_spec (length text) 10) as [|Hlen]; [discriminate|].
  destruct (count_letters_spec text) as (Hkeys & Hcount & Hletters).
  destruct (count_letters text) as [charCounts totalLetters] eqn:Eloop.
  cbn [fst snd] in *.
  destruct (Nat.ltb_spec totalLetters 5) as [|Hfive]; [discriminate|].
  destruct (sort_entries charCounts) as [|[topScript topCount] rest] eqn:Esort;
    [discriminate|].
  destruct (PrimFloat.ltb _ _); [discriminate|]. intros [= <-].
  split; [exact Hlen|]. split; [lia|].
  destruct (sort_entries_head charCounts (topScript, topCount)) as
    (before & after & Hsplit & Hbefore & Hafter); [by rewrite Esort|].
  cbn [snd] in *.
  assert (Hnd : NoDup (fst <$> charCounts)) by (rewrite Hkeys; apply scripts_NoDup).
  assert (Htop : count topScript text = topCount).
  { rewrite <- Hcount. apply (entry_lookup charCounts (length before)); [done|].
    rewrite Hsplit. by rewrite list_lookup_middle. }
  assert (Hpos : position topScript = length before).
  { pose proof (scripts_position topScript) as Hp. rewrite <- Hkeys in Hp.
    eapply NoDup_lookup; [exact Hnd|exact Hp|].
    rewrite Hsplit, fmap_app, fmap_cons. by rewrite list_lookup_middle by (by rewrite length_fmap). }
  assert (Hentry : forall s, exists i, charCounts !! i = Some (s, count s text)
                                       /\ i = position s).
  { intros s. pose proof (scripts_position s) as Hp. rewrite <- Hkeys in Hp.
    rewrite list_lookup_fmap in Hp.
    destruct (charCounts !! position s) as [[s' n]|] eqn:E; [|discriminate].
    injection Hp as ->. exists (position s). split; [|done].
    by rewrite <- Hcount, (entry_lookup charCounts (position s) s n Hnd E). }
  assert (Hmax : forall s, count s text <= topCount).
  { intros s. destruct (Hentry s) as (i & Hi & _). rewrite Hsplit in Hi.
    apply lookup_app_Some in Hi as [Hi|[_ Hi]].
    - apply (Forall_lookup_1 _ _ _ _ Hbefore) in Hi. simpl in Hi. lia.
    - destruct (i - length before) as [|j]; [by injection Hi as _ <-|].
      simpl in Hi. apply (Forall_lookup_1 _ _ _ _ Hafter) in Hi. simpl in Hi. lia. }
  exists topScript. split; [reflexivity|]. rewrite Htop.
  split; [exact Hmax|]. split.
  - intros s Hs. destruct (Hentry s) as (i & Hi & ->). rewrite Hsplit in Hi.
    rewrite lookup_app_l in Hi by lia.
    apply (Forall_lookup_1 _ _ _ _ Hbefore) in Hi. simpl in Hi. lia.
  - rewrite <- Hletters.
    assert (Hsum : letters text
                   = count latin text + count cyrillic text + count arabic text
                     + count hebrew text + count devanagari text + count chinese text
                     + count korean text + count japanese text + count greek text
                     + count thai text).
    { unfold letters, count. induction (char_codes text) as [|code codes IH]; [done|].
      cbn [List.filter]. destruct (classify code) as [[]|];
        cbn [bool_decide decide_rel]; rewrite ?bool_decide_eq_true_2 by (by eexists);
        rewrite ?(bool_decide_eq_false_2 (is_Some None)) by (by intros [? ?]);
        repeat match goal with
               | |- context [bool_decide (Some ?a = Some ?b)] =>
                   first [ rewrite (bool_decide_eq_true_2 (Some a = Some b)) by done
                         | rewrite (bool_decide_eq_false_2 (Some a = Some b)) by done ]
               | |- context [bool_decide (None = Some ?b)] =>
                   rewrite (bool_decide_eq_false_2 (None = Some b)) by done
               end; cbn [length]; lia. }
    rewrite Hletters, Hsum.
    pose proof (Hmax latin). pose proof (Hmax cyrillic). pose proof (Hmax arabic).
    pose proof (Hmax hebrew). pose proof (Hmax devanagari). pose proof (Hmax chinese).
    pose proof (Hmax korean). pose proof (Hmax japanese). pose proof (Hmax greek).
    pose proof (Hmax thai). lia.
Qed.

(** "Привет, мир" in code units. *)
Definition sample_text : list N :=
  [0x041F; 0x0440; 0x0438; 0x0432; 0x0435; 0x0442; 0x002C; 0x0020;
   0x043C; 0x0438; 0x0440]%N.

Lemma detectByCharacterRanges_dominant_witness :
  detectByCharacterRanges sample_text = Some "rus"%string
  /\ 5 <= letters sample_text.
Proof.
  assert (H : detectByCharacterRanges sample_text = Some "rus"%string)
    by (vm_compute; reflexivity).
  split; [exact H|].
  by destruct (detectByCharacterRanges_dominant sample_text "rus" H) as (_ & Hfive & _).
Defined.



End Language.

(** ** The PDF export ([lib/export], [exportAsPDF]) *)

Module PdfExport.

(** What the loop over the lines asks of the PDF document. *)
Inductive PdfCall : Type :=
| AddPage
| Text (line : string) (x y : Z).

Definition margin : Z := 20.
Definition lineHeight : Z := 6.

Section Pagination.

(** [pageHeight - margin], rounded down: the positions compared with it,
    [margin] plus a multiple of [lineHeight], are integers, and an integer
    exceeds a number when it exceeds the number rounded down. *)
Variable limit : Z.

(** The body of [lines.forEach], on the calls made so far and
    [yPosition]. *)
Definition place (st : list PdfCall * Z) (line : string) : list PdfCall * Z :=
  let '(calls, yPosition) := st in
  let '(calls, yPosition) :=
    if (yPosition >? limit)%Z then (calls ++ [AddPage], margin) else (calls, yPosition) in
  (calls ++ [Text line margin yPosition], (yPosition + lineHeight)%Z).

Definition exportAsPDF (lines : list string) : list PdfCall * Z :=
  fold_left place lines ([], margin).

(** The lines that fit on a page. *)
Definition lines_per_page : nat := Z.to_nat ((limit - margin) / lineHeight + 1).

(** Where line [i] goes. *)
Definition placed (i : nat) (line : string) : list PdfCall :=
  (if (0 <? i) && (i mod lines_per_page =? 0) then [AddPage] else [])
  ++ [Text line margin (margin + lineHeight * Z.of_nat (i mod lines_per_page))%Z].

End Pagination.

Lemma yPosition_exceeds (limit : Z) (m : nat) :
  (margin <= limit)%Z ->
  (margin + lineHeight * Z.of_nat m >? limit)%Z = (lines_per_page limit <=? m).
Proof.
  unfold lines_per_page, margin, lineHeight. intros Hlimit.
  pose proof (Z.div_pos (limit - 20) 6 ltac:(lia) ltac:(lia)) as Hq.
  pose proof (Z.mul_div_le (limit - 20) 6 ltac:(lia)) as Hlow.
  pose proof (Z.mul_succ_div_gt (limit - 20) 6 ltac:(lia)) as Hhigh.
  destruct (Z.gtb_spec (20 + 6 * Z.of_nat m) limit) as [Hgt|Hle];
    destruct (Nat.leb_spec (Z.to_nat ((limit - 20) / 6 + 1)) m) as [Hk|Hk];
    try reflexivity; lia.
Qed.

(** X26. The pagination of the PDF export.  When a page is at least two
    margins high, every page but the last gets the same number [k] of
    lines, the number of line heights that fit between the margins plus
    one: line [i] is drawn at the left margin, [i mod k] line heights
    below the top margin, never below the bottom margin, and a page is
    added exactly before each line whose index is a positive multiple of
    [k]; every line is drawn once, in order. *)
Theorem exportAsPDF_pagination (limit : Z) (lines : list string) :
  (margin <= limit)%Z ->
  let k := lines_per_page limit in
  1 <= k
  /\ fst (exportAsPDF limit lines) = concat (imap (placed limit) lines)
  /\ forall i line,
       lines !! i = Some line ->
       let y := (margin + lineHeight * Z.of_nat (i mod k))%Z in
       (margin <= y <= limit)%Z
       /\ Text line margin y ∈ fst (exportAsPDF limit lines).
Proof.
  intros Hlimit. cbv zeta.
  assert (Hk : 1 <= lines_per_page limit).
  { unfold lines_per_page, margin, lineHeight in *.
    pose proof (Z.div_pos (limit - 20) 6 ltac:(lia) ltac:(lia)). lia. }
  assert (Hrun : forall lines,
            exportAsPDF limit lines
            = (concat (imap (placed limit) lines),
               if length lines =? 0 then margin
               else (margin + lineHeight
                              * Z.of_nat ((length lines - 1) mod lines_per_page limit + 1))%Z)).
  { clear lines. unfold exportAsPDF.
    induction lines as [|line lines IH] using rev_ind; [reflexivity|].
    rewrite fold_left_app, IH. cbn [fold_left place].
    rewrite imap_app, concat_app, length_app. cbn [length imap concat].
    rewrite app_nil_r, Nat.add_0_r.
    replace (length lines + 1 =? 0) with false by (symmetry; apply Nat.eqb_neq; lia).
    replace (length lines + 1 - 1) with (length lines) by lia.
    set (k := lines_per_page limit) in *. set (n := length lines).
    unfold placed. fold k.
    destruct (Nat.eqb_spec n 0) as [Hn|Hn].
    - rewrite Hn. rewrite Nat.Div0.mod_0_l.
      replace (margin >? limit)%Z with false
        by (destruct (Z.gtb_spec margin limit); [lia|done]).
      change ((0 <? 0) && (0 =? 0)) with false. cbn [app].
      replace (margin + lineHeight * Z.of_nat 0)%Z with margin
        by (unfold lineHeight; lia).
      replace (margin + lineHeight * Z.of_nat (0 + 1))%Z with (margin + lineHeight)%Z
        by (unfold lineHeight; lia).
      reflexivity.
    - rewrite yPosition_exceeds by done. fold k.
      replace (0 <? n) with true by (symmetry; apply Nat.ltb_lt; lia). cbn [andb].
      assert (Hmod : (n - 1) mod k < k) by (apply Nat.mod_upper_bound; lia).
      assert (Hstep : n mod k = if (n - 1) mod k + 1 =? k then 0 else (n - 1) mod k + 1).
      { replace n with (n - 1 + 1) at 1 by lia.
        rewrite Nat.Div0.add_mod. destruct (Nat.eq_dec k 1) as [->|Hk1].
        - rewrite !Nat.mod_1_r. reflexivity.
        - rewrite (Nat.mod_small 1 k) by lia.
          destruct (Nat.eqb_spec ((n - 1) mod k + 1) k) as [E|E].
          + rewrite E. apply Nat.Div0.mod_same.
          + apply Nat.mod_small. lia. }
      rewrite Hstep.
      destruct (Nat.eqb_spec ((n - 1) mod k + 1) k) as [E|E].
      + rewrite E, Nat.leb_refl. cbn [Nat.eqb]. rewrite <- app_assoc. cbn [app].
        replace (margin + lineHeight * Z.of_nat 0)%Z with margin
          by (unfold lineHeight; lia).
        replace (margin + lineHeight * Z.of_nat (0 + 1))%Z with (margin + lineHeight)%Z
          by (unfold lineHeight; lia).
        reflexivity.
      + replace (k <=? (n - 1) mod k + 1) with false
          by (symmetry; apply Nat.leb_gt; lia).
        replace ((n - 1) mod k + 1 =? 0) with false
          by (symmetry; apply Nat.eqb_neq; lia).
        cbn [app]. f_equal. unfold lineHeight. lia. }
  split; [exact Hk|]. rewrite Hrun. cbn [fst]. split; [reflexivity|].
  intros i line Hi.
  assert (Hmod : i mod lines_per_page limit < lines_per_page limit)
    by (apply Nat.mod_upper_bound; lia).
  split.
  - split; [unfold margin, lineHeight; lia|].
    pose proof (yPosition_exceeds limit (i mod lines_per_page limit) Hlimit) as Hy.
    destruct (Z.gtb_spec (margin + lineHeight * Z.of_nat (i mod lines_per_page limit)) limit);
      [|lia].
    symmetry in Hy. apply Nat.leb_le in Hy. lia.
  - apply list_elem_of_In, in_concat. exists (placed limit i line). split.
    + apply list_elem_of_In, elem_of_lookup_imap. by exists i, line.
    + unfold placed. apply list_elem_of_In, elem_of_app. right. apply list_elem_of_here.
Qed.

Lemma exportAsPDF_pagination_witness :
  fst (exportAsPDF 30 ["a"; "b"; "c"]%string)
  = [Text "a" 20 20; Text "b" 20 26; AddPage; Text "c" 20 20]%string.
Proof.
  destruct (exportAsPDF_pagination 30 ["a"; "b"; "c"]%string ltac:(unfold margin; lia))
    as (_ & -> & _).
  reflexivity.
Defined.

End PdfExport.

(** ** The document viewer ([DocumentView]) *)

Module Viewer.

(** The updaters of the two font size buttons. *)
Definition smaller (s : Z) : Z := Z.max 12 (s - 1).
Definition larger (s : Z) : Z := Z.min 28 (s + 1).

Inductive Click : Type := Smaller | Larger.

(** [sheetFontSize] after the clicks, from its initial value. *)
Definition sheetFontSize (clicks : list Click) : Z :=
  fold_left (fun s click => match click with Smaller => smaller s | Larger => larger s end)
    clicks 14%Z.

(** The handlers of the Next and Prev buttons: the new [selectedMatch],
    given the query, the number of matches and the selection. *)
Definition next_match (searchQuery : string) (count : Z) (selectedMatch : option Z)
    : option Z :=
  if String.eqb searchQuery EmptyString then selectedMatch
  else if (0 <? count)%Z then
    Some (match selectedMatch with
          | None => 0%Z
          | Some s => Z.rem (s + 1) count
          end)
  else selectedMatch.

Definition prev_match (searchQuery : string) (count : Z) (selectedMatch : option Z)
    : option Z :=
  if String.eqb searchQuery EmptyString then selectedMatch
  else if (0 <? count)%Z then
    Some (match selectedMatch with
          | None => (count - 1)%Z
          | Some s => Z.rem (s - 1 + count) count
          end)
  else selectedMatch.

(** X27. The font size of the viewer stays between 12 and 28 pixels
    whatever buttons are clicked, and a click on one button is undone by a
    click on the other unless the size was at the bound the first click
    runs into. *)
Theorem sheetFontSize_bounds (clicks : list Click) :
  let s := sheetFontSize clicks in
  (12 <= s <= 28)%Z
  /\ (s < 28 -> smaller (larger s) = s)%Z
  /\ (12 < s -> larger (smaller s) = s)%Z.
Proof.
  cbv zeta.
  assert (H : (12 <= sheetFontSize clicks <= 28)%Z).
  { unfold sheetFontSize. induction clicks as [|click clicks IH] using rev_ind;
      [cbn [fold_left]; lia|].
    rewrite fold_left_app. cbn [fold_left].
    set (s := fold_left _ clicks 14%Z) in *. unfold smaller, larger. destruct click; lia. }
  split; [exact H|]. unfold smaller, larger. split; lia.
Qed.

(** X28. Next and Prev cycle through the matches.  With a query and
    [count > 0] matches, both buttons select a match in [0 .. count - 1],
    whatever was selected; each undoes the other on a valid selection; Next
    goes from the last match to the first, Prev from the first to the
    last; and [count] clicks on Next come back to where they started. *)
Theorem match_navigation_cycles (searchQuery : string) (count s : Z) :
  searchQuery <> EmptyString -> (0 <= s < count)%Z ->
  let next := next_match searchQuery count in
  let prev := prev_match searchQuery count in
  (forall selected, (forall v, selected = Some v -> 0 <= v)%Z ->
     exists i j, next selected = Some i /\ prev selected = Some j
                 /\ (0 <= i < count)%Z /\ (0 <= j < count)%Z)
  /\ prev (next (Some s)) = Some s
  /\ next (prev (Some s)) = Some s
  /\ next (Some (count - 1)%Z) = Some 0%Z
  /\ prev (Some 0%Z) = Some (count - 1)%Z
  /\ Nat.iter (Z.to_nat count) next (Some s) = Some s.
Proof.
  intros Hq Hs. cbv zeta. unfold next_match, prev_match.
  rewrite (proj2 (String.eqb_neq _ _) Hq).
  replace (0 <? count)%Z with true by (symmetry; apply Z.ltb_lt; lia).
  assert (Hnext : forall v, (0 <= v < count)%Z ->
            Z.rem (v + 1) count = if (v + 1 =? count)%Z then 0%Z else (v + 1)%Z).
  { intros v Hv. destruct (Z.eqb_spec (v + 1) count) as [E|E].
    - rewrite E. apply Z.rem_same. lia.
    - apply Z.rem_small. lia. }
  assert (Hprev : forall v, (0 <= v < count)%Z ->
            Z.rem (v - 1 + count) count = if (v =? 0)%Z then (count - 1)%Z else (v - 1)%Z).
  { intros v Hv. destruct (Z.eqb_spec v 0) as [E|E].
    - subst. replace (0 - 1 + count)%Z with (count - 1)%Z by lia.
      apply Z.rem_small. lia.
    - rewrite Z.rem_mod_nonneg by lia.
      replace (v - 1 + count)%Z with (v - 1 + 1 * count)%Z by lia.
      rewrite Z_mod_plus_full. apply Z.mod_small. lia. }
  split; [|split; [|split; [|split; [|split]]]].
  - intros selected Hsel. do 2 eexists. split; [reflexivity|]. split; [reflexivity|].
    destruct selected as [v|]; [|lia]. specialize (Hsel v eq_refl).
    pose proof (Z.rem_bound_pos (v + 1) count ltac:(lia) ltac:(lia)).
    pose proof (Z.rem_bound_pos (v - 1 + count) count ltac:(lia) ltac:(lia)). lia.
  - rewrite Hnext by lia. destruct (Z.eqb_spec (s + 1) count) as [E|E].
    + rewrite Hprev by lia. cbn [Z.eqb]. f_equal. lia.
    + rewrite Hprev by lia. destruct (Z.eqb_spec (s + 1) 0); [lia|]. f_equal. lia.
  - rewrite Hprev by lia. destruct (Z.eqb_spec s 0) as [E|E].
    + rewrite Hnext by lia. replace (count - 1 + 1 =? count)%Z with true
        by (symmetry; apply Z.eqb_eq; lia). by subst.
    + rewrite Hnext by lia. destruct (Z.eqb_spec (s - 1 + 1) count); [lia|]. f_equal. lia.
  - rewrite Hnext by lia. by replace (count - 1 + 1 =? count)%Z with true
      by (symmetry; apply Z.eqb_eq; lia).
  - rewrite Hprev by lia. reflexivity.
  - assert (Hiter : forall n : nat,
              Nat.iter n (fun selected =>
                            Some match selected with
                                 | Some s0 => Z.rem (s0 + 1) count
                                 | None => 0%Z
                                 end) (Some s)
              = Some ((s + Z.of_nat n) mod count)%Z).
    { induction n as [|n IH].
      - change (Some s = Some ((s + 0) mod count)%Z).
        rewrite Z.add_0_r, Z.mod_small by lia. reflexivity.
      - rewrite Nat.iter_succ, IH. f_equal.
        pose proof (Z.mod_pos_bound (s + Z.of_nat n) count ltac:(lia)) as Hb.
        rewrite Z.rem_mod_nonneg by lia.
        rewrite Zplus_mod_idemp_l. f_equal. lia. }
    rewrite Hiter. f_equal. rewrite Z2Nat.id by lia.
    replace (s + count)%Z with (s + 1 * count)%Z by lia.
    rewrite Z_mod_plus_full. apply Z.mod_small. lia.
Qed.

Lemma match_navigation_cycles_witness :
  prev_match "ocr" 3 (next_match "ocr" 3 (Some 2%Z)) = Some 2%Z
  /\ next_match "ocr" 3 (Some 2%Z) = Some 0%Z.
Proof.
  destruct (match_navigation_cycles "ocr" 3 2 ltac:(discriminate) ltac:(lia))
    as (_ & H1 & _ & H2 & _).
  split; [exact H1|exact H2].
Defined.

End Viewer.
